(** * LDFrienT: the Picard engine, the boundary roll and the transition search

    A shallow embedding of

    - [ldft_classes_v2/ldft_model.py]: [LdftModel.cal_semi_Om],
      [_tilted_roll_3d], [_tilted_roll], [_boundary_roll],
      [_make_picard_update], [make_picard_iteration], [_set_new_checkp],
      [set_r], [_append_hist];
    - [code/generator.py]: [search_trans].

    Conventions.

    - A Python float is a value of [fl]: an exact real number, one of the
      two infinities, or NaN.  Rounding, overflow and the sign of zero are
      not part of the model.
    - A Python exception is a constructor of [exn]; a Python method is a
      function in the monad [M], which threads the mutable state and keeps
      it when an exception is raised.
    - [print] statements append to an output log. *)

From Stdlib Require Import ZArith Reals Lra Lia List String Bool.
From stdpp Require Import base list sorting.
Import ListNotations.

Set Default Proof Using "Type*".

(** ** Exceptions and the state-and-exception monad *)

(** The exception classes the modelled statements can raise.
    [DivergenceError] is the class the specification names; no statement
    of the source raises it. *)
Inductive exn : Type :=
  | TypeError
  | IndexError
  | ValueError
  | AxisError
  | UnboundLocalError
  | ZeroDivisionError
  | DivergenceError.

Inductive result (A : Type) : Type :=
  | Ok (a : A)
  | Raise (e : exn).
Arguments Ok {A} a.
Arguments Raise {A} e.

Definition M (S A : Type) : Type := S -> result A * S.

Definition ret {S A} (a : A) : M S A := fun s => (Ok a, s).
Definition raise {S A} (e : exn) : M S A := fun s => (Raise e, s).
Definition bind {S A B} (m : M S A) (k : A -> M S B) : M S B :=
  fun s => match m s with
           | (Ok a, s') => k a s'
           | (Raise e, s') => (Raise e, s')
           end.
Definition get {S} : M S S := fun s => (Ok s, s).
Definition put {S} (s : S) : M S unit := fun _ => (Ok tt, s).
Definition modify {S} (f : S -> S) : M S unit := fun s => (Ok tt, f s).
Definition lift {S A} (r : result A) : M S A := fun s => (r, s).

Declare Scope monad_scope.
Delimit Scope monad_scope with monad.
Notation "x <- m ;; k" := (bind m (fun x => k))
  (at level 100, m at next level, right associativity) : monad_scope.
Notation "m ;;; k" := (bind m (fun _ => k))
  (at level 100, right associativity) : monad_scope.
Open Scope monad_scope.

(** Python's [l[i]] for a non-negative index, and [l[-1]]. *)
Definition py_index {A} (l : list A) (i : nat) : result A :=
  match l !! i with
  | Some x => Ok x
  | None => Raise IndexError
  end.

Definition py_last {A} (l : list A) : result A :=
  match last l with
  | Some x => Ok x
  | None => Raise IndexError
  end.

(** Python's [l[i] = x]. *)
Definition py_setitem {A} (l : list A) (i : nat) (x : A) : result (list A) :=
  if (i <? length l)%nat then Ok (<[i:=x]> l) else Raise IndexError.

(** ** Floats *)

Inductive fl : Type :=
  | NaN
  | PInf
  | NInf
  | Fin (x : R).

Definition isnan (a : fl) : bool :=
  match a with NaN => true | _ => false end.

Definition is_fin (a : fl) : Prop :=
  match a with Fin _ => True | _ => False end.

Definition fopp (a : fl) : fl :=
  match a with
  | NaN => NaN
  | PInf => NInf
  | NInf => PInf
  | Fin x => Fin (- x)
  end.

Definition fadd (a b : fl) : fl :=
  match a, b with
  | NaN, _ | _, NaN => NaN
  | PInf, NInf | NInf, PInf => NaN
  | PInf, _ | _, PInf => PInf
  | NInf, _ | _, NInf => NInf
  | Fin x, Fin y => Fin (x + y)
  end.

Definition fsub (a b : fl) : fl := fadd a (fopp b).

(** The infinity with the sign of [x], NaN for [x = 0]. *)
Definition inf_signed (pos : bool) (x : R) : fl :=
  if Req_dec_T x 0 then NaN
  else if Rlt_dec 0 x then (if pos then PInf else NInf)
       else (if pos then NInf else PInf).

Definition fmul (a b : fl) : fl :=
  match a, b with
  | NaN, _ | _, NaN => NaN
  | PInf, PInf | NInf, NInf => PInf
  | PInf, NInf | NInf, PInf => NInf
  | PInf, Fin y => inf_signed true y
  | NInf, Fin y => inf_signed false y
  | Fin x, PInf => inf_signed true x
  | Fin x, NInf => inf_signed false x
  | Fin x, Fin y => Fin (x * y)
  end.

(** numpy's division: a finite value over zero is an infinity (NaN for
    0/0), with a warning and no exception. *)
Definition fdiv (a b : fl) : fl :=
  match a, b with
  | NaN, _ | _, NaN => NaN
  | (PInf | NInf), (PInf | NInf) => NaN
  | PInf, Fin y => if Rlt_dec y 0 then NInf else PInf
  | NInf, Fin y => if Rlt_dec y 0 then PInf else NInf
  | Fin _, (PInf | NInf) => Fin 0
  | Fin x, Fin y => if Req_dec_T y 0 then inf_signed true x else Fin (x / y)
  end.

(** [np.exp] and [np.log] on a scalar. *)
Definition fexp (a : fl) : fl :=
  match a with
  | NaN => NaN
  | PInf => PInf
  | NInf => Fin 0
  | Fin x => Fin (exp x)
  end.

Definition flog (a : fl) : fl :=
  match a with
  | NaN | NInf => NaN
  | PInf => PInf
  | Fin x => if Rlt_dec 0 x then Fin (ln x)
             else if Req_dec_T x 0 then NInf else NaN
  end.

(** [a < b]; false as soon as one side is NaN. *)
Definition flt (a b : fl) : bool :=
  match a, b with
  | NaN, _ | _, NaN => false
  | _, NInf | PInf, _ => false
  | NInf, _ | _, PInf => true
  | Fin x, Fin y => if Rlt_dec x y then true else false
  end.

Definition fabs (a : fl) : fl :=
  match a with
  | NaN => NaN
  | PInf | NInf => PInf
  | Fin x => Fin (Rabs x)
  end.

(** [np.sum] of the elements of an array, and the sum of a Python list of
    floats. *)
Definition fsum (l : list fl) : fl := fold_left fadd l (Fin 0).

Definition of_nat (n : nat) : fl := Fin (INR n).
Definition of_Z (z : Z) : fl := Fin (IZR z).

(** ** Arrays of the Picard engine

    The engine combines its arrays elementwise and reduces them with
    [np.sum], [np.mean] and [np.any]; none of this depends on the shape, so
    an array is modelled here by the list of its elements.  Operands of
    different sizes raise [ValueError] (numpy's broadcasting of axes of
    extent one is not modelled). *)

Abbreviation array := (list fl) (only parsing).

Definition ew2 (op : fl -> fl -> fl) (a b : array) : result array :=
  if (length a =? length b)%nat then Ok (zip_with op a b)
  else Raise ValueError.

Definition np_exp (a : array) : array := map fexp a.
Definition np_sum (a : array) : fl := fsum a.
Definition np_mean (a : array) : fl := fdiv (fsum a) (of_nat (length a)).
Definition any_isnan (a : array) : bool := existsb isnan a.
(** [a * z] and [z * a] for a scalar [z]. *)
Definition scale (z : fl) (a : array) : array := map (fun x => fmul x z) a.
Definition square (a : array) : array := map (fun x => fmul x x) a.

(** ** The model object *)

Inductive output : Type :=
  | OutDivergent                         (* print('divergent!!!') *)
  | OutCheckpoint (it : Z) (err : fl).   (* print('checkpoint at: ...') *)

Record LdftModel : Type := mkLdftModel {
  _size : list Z;
  _mu : list (option fl);
  _dens : list (option fl);
  _mu_fix : list bool;
  _v_ext : list array;
  _r : list array;
  _r_hist : list (list array);
  _err_hist : list (list fl);
  _it_hist : list Z;
  _it_counter : Z;
  _bound_cond : string;
  stdout : list output
}.

Definition with_mu (mu : list (option fl)) (s : LdftModel) : LdftModel :=
  mkLdftModel (_size s) mu (_dens s) (_mu_fix s) (_v_ext s) (_r s)
    (_r_hist s) (_err_hist s) (_it_hist s) (_it_counter s) (_bound_cond s)
    (stdout s).

Definition with_dens (dens : list (option fl)) (s : LdftModel) : LdftModel :=
  mkLdftModel (_size s) (_mu s) dens (_mu_fix s) (_v_ext s) (_r s)
    (_r_hist s) (_err_hist s) (_it_hist s) (_it_counter s) (_bound_cond s)
    (stdout s).

Definition with_r (r : list array) (s : LdftModel) : LdftModel :=
  mkLdftModel (_size s) (_mu s) (_dens s) (_mu_fix s) (_v_ext s) r
    (_r_hist s) (_err_hist s) (_it_hist s) (_it_counter s) (_bound_cond s)
    (stdout s).

Definition with_hist (r_hist : list (list array)) (it_hist : list Z)
    (s : LdftModel) : LdftModel :=
  mkLdftModel (_size s) (_mu s) (_dens s) (_mu_fix s) (_v_ext s) (_r s)
    r_hist (_err_hist s) it_hist (_it_counter s) (_bound_cond s) (stdout s).

Definition with_err_hist (err_hist : list (list fl)) (s : LdftModel)
    : LdftModel :=
  mkLdftModel (_size s) (_mu s) (_dens s) (_mu_fix s) (_v_ext s) (_r s)
    (_r_hist s) err_hist (_it_hist s) (_it_counter s) (_bound_cond s)
    (stdout s).

Definition with_it_counter (c : Z) (s : LdftModel) : LdftModel :=
  mkLdftModel (_size s) (_mu s) (_dens s) (_mu_fix s) (_v_ext s) (_r s)
    (_r_hist s) (_err_hist s) (_it_hist s) c (_bound_cond s) (stdout s).

Definition with_stdout (o : list output) (s : LdftModel) : LdftModel :=
  mkLdftModel (_size s) (_mu s) (_dens s) (_mu_fix s) (_v_ext s) (_r s)
    (_r_hist s) (_err_hist s) (_it_hist s) (_it_counter s) (_bound_cond s) o.

Definition print (o : output) : M LdftModel unit :=
  modify (fun s => with_stdout (stdout s ++ [o]) s).

(** The abstract methods of [LdftModel], implemented by each lattice-gas
    model. *)
Class LdftFunctional : Type := {
  cal_F : LdftModel -> fl;
  cal_mu_ex : LdftModel -> list array
}.

(** [set_r]. *)
Definition set_r (r : list array) : M LdftModel unit :=
  modify (fun s =>
    with_err_hist [] (with_hist [r] [0%Z] (with_it_counter 0%Z (with_r r s)))).

(** [_append_hist]. *)
Definition _append_hist : M LdftModel unit :=
  modify (fun s =>
    with_hist (_r_hist s ++ [_r s]) (_it_hist s ++ [_it_counter s]) s).

(** ** Checkpoints *)

(** The [checkp_method] argument after [str(...)[0:3]] and [float(...)]
    have split it: a Python [int], or a three-letter method with its
    parameter.  The parameter is an integer here; fractional parameters
    are not modelled. *)
Inductive checkp_method : Type :=
  | CpInt (k : Z)
  | CpStr (method : string) (parm : Z).

(** [int(np.floor(np.log10(n)))] for an integer [n >= 1]. *)
Fixpoint ilog10_fuel (fuel : nat) (n : Z) : Z :=
  match fuel with
  | O => 0
  | S f => if (n <? 10)%Z then 0 else 1 + ilog10_fuel f (n / 10)
  end%Z.

Definition ilog10 (n : Z) : Z := ilog10_fuel (S (Z.to_nat (Z.log2 n))) n.

(** [int(last ** parm)] for an integer [last] and an integral [parm]. *)
Definition int_pow (last parm : Z) : result Z :=
  if (0 <=? parm)%Z then Ok (last ^ parm)%Z
  else if (last =? 0)%Z then Raise ZeroDivisionError
  else Ok (Z.quot 1 (last ^ (- parm)))%Z.

(** [_set_new_checkp]. *)
Definition _set_new_checkp (cm : checkp_method) : M LdftModel Z :=
  self <- get ;;
  match cm with
  | CpInt k =>
      last <- lift (py_last (_it_hist self)) ;;
      ret (last + k)%Z
  | CpStr method parm =>
      if String.eqb method "exp" then
        last <- lift (py_last (_it_hist self)) ;;
        checkp <- lift (int_pow last parm) ;;
        if (checkp =? last)%Z then ret (checkp + 1)%Z else ret checkp
      else if String.eqb method "dec" then
        last <- lift (py_last (_it_hist self)) ;;
        exp <- (if negb (last =? 0)%Z
                then (if (last <? 0)%Z then raise ValueError
                      else ret (ilog10 last))
                else ret 1%Z) ;;
        let steps := (parm * 10 ^ exp)%Z in
        ret (last + steps)%Z
      else raise UnboundLocalError
  end.

(** ** The Picard iteration *)

(** A list comprehension [[f(i) for i in idxs]]: the elements are
    evaluated in order and the first exception ends the evaluation. *)
Fixpoint list_comp {S A} (f : nat -> M S A) (idxs : list nat)
    : M S (list A) :=
  match idxs with
  | [] => ret []
  | i :: rest =>
      x <- f i ;;
      xs <- list_comp f rest ;;
      ret (x :: xs)
  end.

(** [reduce(lambda a, b: a*b, size)]. *)
Definition volume (size : list Z) : result Z :=
  match size with
  | [] => Raise TypeError
  | x :: xs => Ok (fold_left Z.mul xs x)
  end.

(** An entry of [_mu] or [_dens] used as a number: [None] is a
    [TypeError]. *)
Definition as_float {S} (x : option fl) : M S fl :=
  match x with
  | Some v => ret v
  | None => raise TypeError
  end.

Section Engine.
Context `{Functional : LdftFunctional}.

(** The [for i, temp_i in enumerate(temp)] loop of [_make_picard_update];
    [None] is the early [return] of the divergent case. *)
Fixpoint update_species (V : Z) (i : nat) (temp r_new : list array)
    : M LdftModel (option (list array)) :=
  match temp with
  | [] => ret (Some r_new)
  | temp_i :: rest =>
      if any_isnan temp_i then
        print OutDivergent ;;;
        ret None
      else
        self <- get ;;
        fix_i <- lift (py_index (_mu_fix self) i) ;;
        if (fix_i : bool) then
          mu_i <- lift (py_index (_mu self) i) ;;
          mu_i <- as_float mu_i ;;
          let r := scale (fexp mu_i) temp_i in
          dens <- lift (py_setitem (_dens self) i (Some (np_mean r))) ;;
          modify (with_dens dens) ;;;
          update_species V (S i) rest (r_new ++ [r])
        else
          let temp_dens := fdiv (np_sum temp_i) (of_Z V) in
          dens_i <- lift (py_index (_dens self) i) ;;
          dens_i <- as_float dens_i ;;
          let z := fdiv dens_i temp_dens in
          mu <- lift (py_setitem (_mu self) i (Some (flog z))) ;;
          modify (with_mu mu) ;;;
          update_species V (S i) rest (r_new ++ [scale z temp_i])
  end.

(** [_make_picard_update]. *)
Definition _make_picard_update (alpha : fl)
    : M LdftModel (option (list array * list fl)) :=
  self <- get ;;
  let mu_ex := cal_mu_ex self in
  temp <- list_comp (fun i =>
            mu_ex_i <- lift (py_index mu_ex i) ;;
            v_ext_i <- lift (py_index (_v_ext self) i) ;;
            d <- lift (ew2 fsub mu_ex_i v_ext_i) ;;
            ret (np_exp d))
          (seq 0 (length (_mu_fix self))) ;;
  V <- lift (volume (_size self)) ;;
  res <- update_species V 0 temp [] ;;
  match res with
  | None => ret None
  | Some r_new =>
      self <- get ;;
      error <- list_comp (fun i =>
                 r_new_i <- lift (py_index r_new i) ;;
                 r_i <- lift (py_index (_r self) i) ;;
                 d <- lift (ew2 fsub r_new_i r_i) ;;
                 ret (np_sum (square d)))
               (seq 0 (length r_new)) ;;
      r <- list_comp (fun i =>
             r_new_i <- lift (py_index r_new i) ;;
             r_i <- lift (py_index (_r self) i) ;;
             lift (ew2 fadd (scale alpha r_new_i)
                            (scale (fsub (Fin 1) alpha) r_i)))
           (seq 0 (length r_new)) ;;
      modify (with_r r) ;;;
      modify (fun s => with_it_counter (_it_counter s + 1)%Z s) ;;;
      ret (Some (r, error))
  end.

(** [all(np.array(error) < min_err)] guarded by [min_err != None]. *)
Definition below_min_err (min_err : option fl) (error : list fl) : bool :=
  match min_err with
  | Some m => forallb (fun e => flt e m) error
  | None => false
  end.

(** The [for i in np.arange(it_steps)] loop of [make_picard_iteration]
    with [n] rounds left. *)
Fixpoint picard_loop (alpha : fl) (cm : checkp_method)
    (min_err : option fl) (n : nat) (checkp : Z) : M LdftModel unit :=
  match n with
  | O => ret tt
  | S n' =>
      res <- _make_picard_update alpha ;;
      match res with
      | None => raise TypeError     (* [r, error = None] *)
      | Some (r, error) =>
          modify (fun s => with_err_hist (_err_hist s ++ [error]) s) ;;;
          self <- get ;;
          checkp <- (if (_it_counter self - checkp =? 0)%Z then
                       e <- lift (py_last (_err_hist self)) ;;
                       e0 <- lift (py_index e 0) ;;
                       print (OutCheckpoint (_it_counter self) e0) ;;;
                       _append_hist ;;;
                       _set_new_checkp cm
                     else ret checkp) ;;
          if below_min_err min_err error then ret tt
          else picard_loop alpha cm min_err n' checkp
      end
  end.

(** [make_picard_iteration]. *)
Definition make_picard_iteration (alpha : fl) (it_steps : nat)
    (cm : checkp_method) (min_err : option fl) : M LdftModel unit :=
  checkp <- _set_new_checkp cm ;;
  picard_loop alpha cm min_err it_steps checkp ;;;
  self <- get ;;
  last <- lift (py_last (_it_hist self)) ;;
  if negb (_it_counter self =? last)%Z then _append_hist else ret tt.

(** [cal_semi_Om]: the loop over the species, then the method. *)
Fixpoint semi_Om_loop (idxs : list nat) (semi_Om : fl) : M LdftModel fl :=
  match idxs with
  | [] => ret semi_Om
  | i :: rest =>
      self <- get ;;
      fix_i <- lift (py_index (_mu_fix self) i) ;;
      term <- (if (fix_i : bool) then
                 mu_i <- lift (py_index (_mu self) i) ;;
                 r_i <- lift (py_index (_r self) i) ;;
                 mu_i <- as_float mu_i ;;
                 ret (fmul mu_i (np_sum r_i))
               else ret (Fin 0)) ;;
      semi_Om_loop rest (fsub semi_Om term)
  end.

Definition cal_semi_Om : M LdftModel fl :=
  self <- get ;;
  semi_Om_loop (seq 0 (length (_mu_fix self))) (cal_F self).

End Engine.

(** ** Lattice arrays and the boundary roll

    For the roll the shape matters: an array with two axes is a list of
    rows, an array with three axes a list of such arrays.  The arrays live
    in a heap, a reference is the position of an array in the heap, and
    the numpy functions that return a new array allocate it. *)

Module Roll.

Inductive axis3 : Type := X0 | X1 | X2.

(** A position or a shape of an array with three axes. *)
Definition idx : Type := (nat * nat * nat)%type.

Definition ix (ax : axis3) (p : idx) : nat :=
  let '(i, j, k) := p in
  match ax with X0 => i | X1 => j | X2 => k end.

Definition upd (ax : axis3) (v : nat) (p : idx) : idx :=
  let '(i, j, k) := p in
  match ax with X0 => (v, j, k) | X1 => (i, v, k) | X2 => (i, j, v) end.

Definition inrange (sh p : idx) : Prop :=
  (ix X0 p < ix X0 sh /\ ix X1 p < ix X1 sh /\ ix X2 p < ix X2 sh)%nat.

(** [(i - steps) mod n], the position that a roll by [steps] along an axis
    of extent [n] reads for the position [i]. *)
Definition wrap (i : nat) (steps : Z) (n : nat) : nat :=
  Z.to_nat ((Z.of_nat i - steps) mod Z.of_nat n).

(** A bound [b] of a Python slice over an axis of extent [n]. *)
Definition py_bound (n : nat) (b : Z) : nat :=
  if (b <? 0)%Z then Z.to_nat (Z.max 0 (Z.of_nat n + b))
  else Z.to_nat (Z.min b (Z.of_nat n)).

Definition pos_shape (sh : idx) : Prop :=
  (0 < ix X0 sh /\ 0 < ix X1 sh /\ 0 < ix X2 sh)%nat.

(** A reference to an array: its position in the heap. *)
Abbreviation ref := nat (only parsing).

(** Arrays with two and with three axes. *)
Abbreviation arr2 X := (list (list X)) (only parsing).
Abbreviation arr3 X := (list (list (list X))) (only parsing).

Section Arrays.
Context {A : Type} (dflt : A).


(** [a] is a rectangular array of shape [sh]. *)
Definition wf3 (sh : idx) (a : arr3 A) : Prop :=
  let '(l0, l1, l2) := sh in
  length a = l0 /\
  Forall (fun row => length row = l1 /\
                     Forall (fun c => length c = l2) row) a.

Inductive ndarray : Type :=
  | Arr2 (a : arr2 A)
  | Arr3 (a : arr3 A).

Definition shape3 (a : arr3 A) : idx :=
  (length a, length (hd [] a), length (hd [] (hd [] a))).

Definition get3 (a : arr3 A) (p : idx) : A :=
  let '(i, j, k) := p in nth k (nth j (nth i a []) []) dflt.

(** The array of shape [sh] with the element [f p] at the position [p]. *)
Definition tab3 (sh : idx) (f : idx -> A) : arr3 A :=
  let '(l0, l1, l2) := sh in
  map (fun i => map (fun j => map (fun k => f (i, j, k)) (seq 0 l2))
                    (seq 0 l1))
      (seq 0 l0).

(** [np.roll(a, steps, ax)] on an array with three axes. *)
Definition roll3 (a : arr3 A) (steps : Z) (ax : axis3) : arr3 A :=
  let sh := shape3 a in
  tab3 sh (fun p => get3 a (upd ax (wrap (ix ax p) steps (ix ax sh)) p)).

(** The slice [lo:hi] of [a] along [ax], full along the other axes. *)
Definition slice3 (a : arr3 A) (ax : axis3) (lo hi : nat) : arr3 A :=
  tab3 (upd ax (hi - lo) (shape3 a))
       (fun p => get3 a (upd ax (ix ax p + lo) p)).

(** [a] after the assignment of [b] to its slice [lo:hi] along [ax]. *)
Definition assign3 (a : arr3 A) (ax : axis3) (lo hi : nat) (b : arr3 A)
    : arr3 A :=
  tab3 (shape3 a)
       (fun p => if (lo <=? ix ax p)%nat && (ix ax p <? hi)%nat
                 then get3 b (upd ax (ix ax p - lo) p)
                 else get3 a p).

(** [np.roll] on an array with two axes, through the array with three
    axes that has it as its only layer. *)
Definition roll2 (a : arr2 A) (steps : Z) (ax : axis3) : arr2 A :=
  hd [] (roll3 [a] steps ax).

(** numpy's normalisation of an axis argument for [ndim] axes.  For an
    array with two axes the result is the axis of the three-axis array
    that has the array as its only layer. *)
Definition norm_axis (ndim : Z) (axis : Z) : result axis3 :=
  if ((- ndim <=? axis) && (axis <? ndim))%Z then
    match (axis mod ndim + (3 - ndim))%Z with
    | 0%Z => Ok X0
    | 1%Z => Ok X1
    | _ => Ok X2
    end
  else Raise AxisError.

Local Abbreviation heap := (list ndarray) (only parsing).

(** A reference outside the heap does not exist in Python; reading one
    is an error of the model. *)
Definition read (r : ref) : M heap ndarray :=
  fun h => match h !! r with
           | Some a => (Ok a, h)
           | None => (Raise TypeError, h)
           end.

Definition alloc (a : ndarray) : M heap ref :=
  fun h => (Ok (length h), h ++ [a]).

Definition write (r : ref) (a : ndarray) : M heap unit :=
  fun h => (Ok tt, <[r:=a]> h).

(** [np.copy(array)]. *)
Definition np_copy (array : ref) : M heap ref :=
  a <- read array ;;
  alloc a.

(** [np.roll(array, steps, axis)]. *)
Definition np_roll (array : ref) (steps axis : Z) : M heap ref :=
  a <- read array ;;
  match a with
  | Arr2 a2 =>
      ax <- lift (norm_axis 2 axis) ;;
      alloc (Arr2 (roll2 a2 steps ax))
  | Arr3 a3 =>
      ax <- lift (norm_axis 3 axis) ;;
      alloc (Arr3 (roll3 a3 steps ax))
  end.

(** [array[start:stop] = np.roll(array[start:stop], shift, shift_axis)]
    with the slice taken along [ax] of an array with three axes. *)
Definition roll_slice (array : ref) (ax : axis3) (start stop : Z)
    (shift shift_axis : Z) : M heap unit :=
  a <- read array ;;
  match a with
  | Arr2 _ => raise IndexError
  | Arr3 a3 =>
      let n := ix ax (shape3 a3) in
      let lo := py_bound n start in
      let hi := py_bound n stop in
      sax <- lift (norm_axis 3 shift_axis) ;;
      let rolled := roll3 (slice3 a3 ax lo hi) shift sax in
      alloc (Arr3 rolled) ;;;
      write array (Arr3 (assign3 a3 ax lo hi rolled))
  end.

(** [array.shape[0]], [array.shape[1]], [array.shape[2]]. *)
Definition shape_of (array : ref) : M heap idx :=
  a <- read array ;;
  match a with
  | Arr2 _ => raise IndexError
  | Arr3 a3 => ret (shape3 a3)
  end.

(** [_tilted_roll_3d]. *)
Definition _tilted_roll_3d (array : ref) (steps roll_axis shift shift_axis : Z)
    : M heap ref :=
  array <- np_copy array ;;
  sh <- shape_of array ;;
  let '(l0, l1, l2) := sh in
  (if (roll_axis =? 0)%Z then
     if (steps >? 0)%Z then
       roll_slice array X0 (- steps) (Z.of_nat l0) shift shift_axis
     else roll_slice array X0 0 (- steps) shift shift_axis
   else ret tt) ;;;
  (if (roll_axis =? 1)%Z then
     if (steps >? 0)%Z then
       roll_slice array X1 (- steps) (Z.of_nat l1) shift shift_axis
     else roll_slice array X1 0 (- steps) shift shift_axis
   else ret tt) ;;;
  (if (roll_axis =? 2)%Z then
     if (steps >? 0)%Z then
       roll_slice array X2 (- steps) (Z.of_nat l2) shift shift_axis
     else roll_slice array X2 0 (- steps) shift shift_axis
   else ret tt) ;;;
  np_roll array steps roll_axis.

(** [_tilted_roll]; the lattice has two or three axes. *)
Definition _tilted_roll (array : ref) (steps roll_axis shift shift_axis : Z)
    : M heap ref :=
  a <- read array ;;
  match a with
  | Arr2 a2 =>
      array <- alloc (Arr3 [a2]) ;;              (* np.array([array]) *)
      array <- _tilted_roll_3d array steps (roll_axis + 1) shift
                 (shift_axis + 1) ;;
      a' <- read array ;;                        (* array[0, :, :] *)
      match a' with
      | Arr3 (layer :: _) => alloc (Arr2 layer)
      | _ => raise IndexError
      end
  | Arr3 _ => _tilted_roll_3d array steps roll_axis shift shift_axis
  end.

(** [max(size)] and [size.index(max(size))]. *)
Definition py_max (size : list Z) : result Z :=
  match size with
  | [] => Raise ValueError
  | x :: xs => Ok (fold_left Z.max xs x)
  end.

Fixpoint py_index_of (x : Z) (l : list Z) : result Z :=
  match l with
  | [] => Raise ValueError
  | y :: l' => if (y =? x)%Z then Ok 0%Z
               else match py_index_of x l' with
                    | Ok i => Ok (i + 1)%Z
                    | Raise e => Raise e
                    end
  end.

(** [_boundary_roll]; the result is [None] for a boundary condition the
    method does not know. *)
Definition _boundary_roll (self : LdftModel) (r : ref) (steps axis : Z)
    : M heap (option ref) :=
  let bc := _bound_cond self in
  if String.eqb bc "periodic" then
    x <- np_roll r steps axis ;; ret (Some x)
  else if String.eqb bc "111_if" || String.eqb bc "11_if" then
    mx <- lift (py_max (_size self)) ;;
    shift_axis <- lift (py_index_of mx (_size self)) ;;
    if (shift_axis =? axis)%Z then
      x <- np_roll r steps axis ;; ret (Some x)
    else
      let shift := (mx / 2)%Z in
      x <- _tilted_roll r steps axis shift shift_axis ;; ret (Some x)
  else if String.eqb bc "110_if" then
    mx <- lift (py_max (_size self)) ;;
    shift_axis <- lift (py_index_of mx (_size self)) ;;
    if (shift_axis =? axis)%Z then
      x <- np_roll r steps axis ;; ret (Some x)
    else if ((shift_axis + 1) mod 3 =? axis)%Z then
      x <- np_roll r steps axis ;; ret (Some x)
    else
      let shift := (mx / 2)%Z in
      x <- _tilted_roll r steps axis shift shift_axis ;; ret (Some x)
  else ret None.

End Arrays.

End Roll.

(** ** The search for a phase transition

    [search_trans] of [generator.py].  The lattice-gas model, with the
    parameters [alpha], [it_step] and [chp] that every round passes on
    unchanged, is a parameter of the section: a system of the model is a
    value of [Sys], and the three operations of a round may raise.  The
    densities and the accuracy are finite floats, that is real numbers.
    Python's limit on the depth of the recursion is not modelled; the
    recursion is bounded by [fuel], and [None] is returned when it runs
    out. *)

Module Search.

Section Search.
Variable Sys : Type.

(** The [init] argument: the name of a nucleus or a system whose profile
    is taken over. *)
Inductive init : Type :=
  | InitShape (name : string)
  | InitSys (sys : Sys).

Inductive event : Type :=
  | PrintModel                                  (* print(Model) *)
  | PrintDensity (dens : R)                     (* 'current density: ' *)
  | PrintF (leftF rightF : fl)                  (* 'leftF=', 'rightF=' *)
  | PrintNoTransition                           (* 'no Transition here' *)
  | PrintLeftLower                              (* 'leftF<rightF' *)
  | PrintRightLower                             (* 'rightF<leftF' *)
  | Save (path : string) (sys : Sys) (dens : R) (spec : string)
                                                (* sys.save_syst(...) *)
  | PrintFinish (lo hi : R).                    (* 'Finish!!' ... *)

Variable size : list Z.
(** [create_save_path(Model, size[0], epsi)] for [true] and
    [create_save_path(Model, size, epsi)] for [false]. *)
Variable create_save_path : bool -> string.
(** [create_sys(Model, size, epsi, dens, init)]. *)
Variable create_sys : R -> init -> result Sys.
(** [sys.make_picard_iteration(alpha, it_step, chp, min_err=10**(-20))];
    the result is the system after the iteration. *)
Variable make_picard_iteration : Sys -> result Sys.
(** [sys.cal_semi_Om()]. *)
Variable cal_semi_Om : Sys -> result fl.
Variable acuracy : R.

Definition emit (e : event) : M (list event) unit :=
  modify (fun log => log ++ [e]).

(** [reduce(lambda a, b: (a+b)/2, size) == size[0]]. *)
Definition folds_to_first (size : list Z) : result bool :=
  match size with
  | [] => Raise TypeError
  | x :: xs =>
      Ok (if Req_dec_T
               (fold_left (fun a b => (a + IZR b) / 2)%R xs (IZR x)) (IZR x)
          then true else false)
  end.

(** The two systems [left] and [right] of a round and their semi-grand
    potentials. *)
Definition probe (dens : R) (initLeft initRight : init)
    : result (Sys * Sys * fl * fl) :=
  match create_sys dens initLeft with
  | Raise e => Raise e
  | Ok left_sys =>
  match make_picard_iteration left_sys with
  | Raise e => Raise e
  | Ok left_sys =>
  match create_sys dens initRight with
  | Raise e => Raise e
  | Ok right_sys =>
  match make_picard_iteration right_sys with
  | Raise e => Raise e
  | Ok right_sys =>
  match cal_semi_Om left_sys with
  | Raise e => Raise e
  | Ok leftF =>
  match cal_semi_Om right_sys with
  | Raise e => Raise e
  | Ok rightF => Ok (left_sys, right_sys, leftF, rightF)
  end end end end end end.

(** [search_trans]. *)
Fixpoint search_trans (fuel : nat) (densRange : R * R)
    (initLeft initRight : init) (specLeft specRight : string)
    : M (list event) (option unit) :=
  match fuel with
  | O => ret None
  | S fuel' =>
      short <- lift (folds_to_first size) ;;
      (if (short : bool) then emit PrintModel else ret tt) ;;;
      let savePath := create_save_path short in
      let '(lo, hi) := densRange in
      if Rgt_dec (hi - lo) acuracy then
        let dens := ((hi + lo) / 2)%R in
        emit (PrintDensity dens) ;;;
        p <- lift (probe dens initLeft initRight) ;;
        let '(left_sys, right_sys, leftF, rightF) := p in
        emit (PrintF leftF rightF) ;;;
        if flt (fabs (fsub leftF rightF)) (Fin (/ 1000)) then
          emit PrintNoTransition ;;;
          emit (Save savePath left_sys dens "noTrans") ;;;
          ret (Some tt)
        else if flt leftF rightF then
          emit PrintLeftLower ;;;
          emit (Save savePath left_sys dens specLeft) ;;;
          search_trans fuel' (dens, hi) (InitSys left_sys) initRight
            specLeft specRight
        else
          emit PrintRightLower ;;;
          emit (Save savePath right_sys dens specRight) ;;;
          search_trans fuel' (lo, dens) initLeft (InitSys right_sys)
            specLeft specRight
      else
        emit (PrintFinish lo hi) ;;;
        ret (Some tt)
  end.

End Search.

Arguments InitShape {Sys} name.
Arguments InitSys {Sys} sys.
Arguments PrintModel {Sys}.
Arguments PrintDensity {Sys} dens.
Arguments PrintF {Sys} leftF rightF.
Arguments PrintNoTransition {Sys}.
Arguments PrintLeftLower {Sys}.
Arguments PrintRightLower {Sys}.
Arguments Save {Sys} path sys dens spec.
Arguments PrintFinish {Sys} lo hi.
Arguments emit {Sys} e.
Arguments probe {Sys} create_sys make_picard_iteration cal_semi_Om dens
  initLeft initRight.

End Search.

(** The ideal lattice gas: no excess free energy, no excess chemical
    potential. *)
Definition ideal_gas : LdftFunctional :=
  {| cal_F := fun _ => Fin 0;
     cal_mu_ex := fun s => map (map (fun _ => Fin 0)) (_r s) |}.

(** * The vocabulary of the properties

    What the statements below are written in: the runs, predicates and
    values that the properties speak of, and the concrete states at which
    they are evaluated. *)

(** ** The iteration engine *)

(** Recording a checkpoint: the counter has reached [c] and
    [_append_hist] runs. *)
Definition record_checkpoint (c : Z) : M LdftModel unit :=
  modify (with_it_counter c) ;;; _append_hist.

(** The first [n] checkpoints of a policy, each computed from the history
    that ends with the checkpoint recorded before it. *)
Fixpoint checkpoints (cm : checkp_method) (n : nat) : M LdftModel (list Z) :=
  match n with
  | O => ret []
  | S n' =>
      c <- _set_new_checkp cm ;;
      record_checkpoint c ;;;
      cs <- checkpoints cm n' ;;
      ret (c :: cs)
  end.

(** What [_make_picard_update] leaves alone while it loops over the
    species: everything but [_mu], [_dens] and the output log. *)
Definition same_but_scalars (s s' : LdftModel) : Prop :=
  _size s' = _size s /\ _mu_fix s' = _mu_fix s /\ _v_ext s' = _v_ext s /\
  _r s' = _r s /\ _r_hist s' = _r_hist s /\ _err_hist s' = _err_hist s /\
  _it_hist s' = _it_hist s /\ _it_counter s' = _it_counter s /\
  _bound_cond s' = _bound_cond s.

(** A computation that never changes the state. *)
Definition pure_state {S A} (m : M S A) : Prop := forall s, snd (m s) = s.

(** The sum of a list of reals. *)
Definition Rsum (xs : list R) : R := fold_right Rplus 0%R xs.

Section EngineSpec.
Context `{Functional : LdftFunctional}.

(** The arrays [temp] of [_make_picard_update]:
    [np.exp(mu_ex[i] - self._v_ext[i])] for each species. *)
Definition temp_arrays (s : LdftModel) : list array :=
  zip_with (fun m v => np_exp (zip_with fsub m v)) (cal_mu_ex s) (_v_ext s).

(** The functional and the external potential give one array per species,
    of equal sizes, and the lattice has at least one axis. *)
Definition shapes_ok (s : LdftModel) : Prop :=
  length (cal_mu_ex s) = length (_mu_fix s) /\
  length (_v_ext s) = length (_mu_fix s) /\
  Forall2 (fun a b : array => length a = length b) (cal_mu_ex s) (_v_ext s) /\
  _size s <> [].

(** Species [j] can be updated without an exception: the scalar it reads
    is a number and the list it writes has an entry [j]. *)
Definition species_ok (s : LdftModel) (j : nat) : Prop :=
  match _mu_fix s !! j with
  | Some true =>
      (exists m, _mu s !! j = Some (Some m)) /\ (j < length (_dens s))%nat
  | Some false =>
      (exists d, _dens s !! j = Some (Some d)) /\ (j < length (_mu s))%nat
  | None => False
  end.

(** What the update of species [j] with the array [t] has done when the
    state went from [s] to [s']: the candidate profile [c] and the scalar
    that was overwritten. *)
Definition species_post (V : Z) (s s' : LdftModel) (j : nat) (t c : array)
    : Prop :=
  match _mu_fix s !! j with
  | Some true =>
      exists m, _mu s !! j = Some (Some m) /\
        c = scale (fexp m) t /\
        _dens s' !! j = Some (Some (np_mean c)) /\
        _mu s' !! j = _mu s !! j
  | Some false =>
      exists d, _dens s !! j = Some (Some d) /\
        c = scale (fdiv d (fdiv (np_sum t) (of_Z V))) t /\
        _mu s' !! j =
          Some (Some (flog (fdiv d (fdiv (np_sum t) (of_Z V))))) /\
        _dens s' !! j = _dens s !! j
  | None => False
  end.

(** The damped profile and the error of one species. *)
Definition mix (alpha : fl) (c r_k : list fl) : list fl :=
  zip_with fadd (scale alpha c) (scale (fsub (Fin 1) alpha) r_k).

Definition sq_error (c r_k : list fl) : fl :=
  np_sum (square (zip_with fsub c r_k)).

(** The term [mu_i * sum(r_i)] of a grand-canonical species; none for a
    canonical species. *)
Definition gc_term (s : LdftModel) (i : nat) : option fl :=
  match _mu_fix s !! i, _mu s !! i, _r s !! i with
  | Some true, Some (Some m), Some r_i => Some (fmul m (np_sum r_i))
  | _, _, _ => None
  end.

(** The semi-grand potential as the specification words it: the free
    energy minus the sum of the terms of the grand-canonical species. *)
Definition semi_Om_spec (s : LdftModel) : fl :=
  fsub (cal_F s) (fsum (omap (gc_term s) (seq 0 (length (_mu_fix s))))).

(** The iteration indices of the history increase strictly and none of
    them lies beyond the iteration counter. *)
Definition hist_inv (s : LdftModel) : Prop :=
  StronglySorted Z.lt (_it_hist s) /\
  forall l, last (_it_hist s) = Some l -> (l <= _it_counter s)%Z.

End EngineSpec.

(** ** The boundary roll *)

Import Roll.

(** The positions along the roll axis of extent [n] whose layers
    [_tilted_roll_3d] shifts before a roll by [steps]: the slice
    [-steps:n] for positive [steps], the slice [0:-steps] otherwise. *)
Definition in_tilt (n : nat) (steps : Z) (i : nat) : bool :=
  if (steps >? 0)%Z then
    (py_bound n (- steps) <=? i)%nat && (i <? py_bound n (Z.of_nat n))%nat
  else
    (py_bound n 0 <=? i)%nat && (i <? py_bound n (- steps))%nat.

Definition axis_Z (ax : axis3) : Z :=
  match ax with X0 => 0 | X1 => 1 | X2 => 2 end%Z.

Section RollSpec.
Context {A : Type} (dflt : A).

(** The array that [roll_slice] stores:
    [a[start:stop] = np.roll(a[start:stop], shift, sax)] along [ax]. *)
Definition tilt3 (a : arr3 A) (ax : axis3) (start stop shift : Z)
    (sax : axis3) : arr3 A :=
  let n := ix ax (shape3 a) in
  let lo := py_bound n start in
  let hi := py_bound n stop in
  assign3 dflt a ax lo hi (roll3 dflt (slice3 dflt a ax lo hi) shift sax).

(** The array that [_tilted_roll_3d] returns for the roll axis [ra] and
    the shift axis [sax]. *)
Definition tilted_roll3 (a : arr3 A) (steps : Z) (ra : axis3) (shift : Z)
    (sax : axis3) : arr3 A :=
  let n := ix ra (shape3 a) in
  let a1 := if (steps >? 0)%Z
            then tilt3 a ra (- steps) (Z.of_nat n) shift sax
            else tilt3 a ra 0 (- steps) shift sax in
  roll3 dflt a1 steps ra.

(** The command [m] keeps the first [n0] arrays of the heap, and its
    result satisfies [Q]. *)
Definition keeps {X} (n0 : nat) (m : M (list (@ndarray A)) X)
    (Q : X -> Prop) : Prop :=
  forall h, (n0 <= length h)%nat ->
    (n0 <= length (snd (m h)))%nat /\
    take n0 (snd (m h)) = take n0 h /\
    match fst (m h) with Ok x => Q x | Raise _ => True end.

End RollSpec.

(** The two ways in which [_boundary_roll] rolls an array. *)
Inductive path : Type :=
  | Plain (ax : axis3)                      (* [np.roll] *)
  | Tilted (ra sax : axis3) (shift : Z).    (* [_tilted_roll] *)

Section PathSpec.
Context {A : Type} (dflt : A).

(** The array that [_boundary_roll] returns on the path [pth]. *)
Definition path_val (pth : path) (a : @ndarray A) (steps : Z) : @ndarray A :=
  match pth, a with
  | Plain ax, Arr2 a2 => Arr2 (roll2 dflt a2 steps ax)
  | Plain ax, Arr3 a3 => Arr3 (roll3 dflt a3 steps ax)
  | Tilted ra sax shift, Arr2 a2 =>
      Arr2 (hd [] (tilted_roll3 dflt [a2] steps ra shift sax))
  | Tilted ra sax shift, Arr3 a3 =>
      Arr3 (tilted_roll3 dflt a3 steps ra shift sax)
  end.

(** The array [a] has the extents [size]; [sh] is its shape, or the shape
    of the three-axis array that has it as its only layer. *)
Definition fits (size : list Z) (sh : idx) (a : @ndarray A) : Prop :=
  let '(l0, l1, l2) := sh in
  match a with
  | Arr3 a3 => size = [Z.of_nat l0; Z.of_nat l1; Z.of_nat l2] /\ wf3 sh a3
  | Arr2 a2 => size = [Z.of_nat l1; Z.of_nat l2] /\ l0 = 1%nat /\
               wf3 sh [a2]
  end.

Definition path_ok (sh : idx) (pth : path) : Prop :=
  match pth with
  | Plain _ => True
  | Tilted ra sax shift =>
      ra <> sax /\ (2 * shift = Z.of_nat (ix sax sh))%Z
  end.

(** The number of axes of an array. *)
Definition ndim (a : @ndarray A) : Z :=
  match a with Arr2 _ => 2 | Arr3 _ => 3 end.

End PathSpec.

(** Axis [k] of an array with [nd] axes, as an axis of the three-axis
    array. *)
Definition ax_of (nd k : Z) : axis3 :=
  match (k + (3 - nd))%Z with
  | 0%Z => X0
  | 1%Z => X1
  | _ => X2
  end.

(** The path for a tilted boundary condition [bc], the shift axis [k], the
    roll axis [axis] and the largest extent [mx]. *)
Definition choose_path (bc : string) (nd k axis mx : Z) : path :=
  if (k =? axis)%Z then Plain (ax_of nd axis)
  else if String.eqb bc "110_if" && ((k + 1) mod 3 =? axis)%Z
       then Plain (ax_of nd axis)
       else Tilted (ax_of nd axis) (ax_of nd k) (mx / 2).

(** One extent is twice each of the others. *)
Definition twice_long (size : list Z) : Prop :=
  exists k x, size !! k = Some x /\
    forall j y, j <> k -> size !! j = Some y -> x = (2 * y)%Z.

Definition tilted_mode (bc : string) : Prop :=
  (bc = "11_if" \/ bc = "110_if" \/ bc = "111_if")%string.

(** ** The search *)

Import Search.

Section SearchSpec.
Variable Sys : Type.
Variable size : list Z.
Variable create_save_path : bool -> string.
Variable create_sys : R -> init Sys -> result Sys.
Variable make_picard_iteration : Sys -> result Sys.
Variable cal_semi_Om : Sys -> result fl.
Variable acuracy : R.

Local Abbreviation run :=
  (search_trans Sys size create_save_path create_sys make_picard_iteration
     cal_semi_Om acuracy).
Local Abbreviation probe_round :=
  (probe create_sys make_picard_iteration cal_semi_Om).

(** The verdict of a round. *)
Definition no_transition (leftF rightF : fl) : bool :=
  flt (fabs (fsub leftF rightF)) (Fin (/ 1000)).

(** The one system that a round saves. *)
Definition round_save (path : string) (dens : R) (l r : Sys)
    (leftF rightF : fl) (specLeft specRight : string) : event Sys :=
  if no_transition leftF rightF then Save path l dens "noTrans"
  else if flt leftF rightF then Save path l dens specLeft
  else Save path r dens specRight.

(** All that a round prints and saves. *)
Definition round_events (short : bool) (dens : R) (l r : Sys)
    (leftF rightF : fl) (specLeft specRight : string) : list (event Sys) :=
  (if short then [PrintModel] else []) ++
  [PrintDensity dens; PrintF leftF rightF;
   if no_transition leftF rightF then PrintNoTransition
   else if flt leftF rightF then PrintLeftLower else PrintRightLower;
   round_save (create_save_path short) dens l r leftF rightF
     specLeft specRight].

(** What follows a round: the end of the search or the recursive call. *)
Definition after_round (fuel : nat) (lo hi : R) (initLeft initRight : init Sys)
    (l r : Sys) (leftF rightF : fl) (specLeft specRight : string)
    : M (list (event Sys)) (option unit) :=
  let dens := ((hi + lo) / 2)%R in
  if no_transition leftF rightF then ret (Some tt)
  else if flt leftF rightF
       then run fuel (dens, hi) (InitSys l) initRight specLeft specRight
       else run fuel (lo, dens) initLeft (InitSys r) specLeft specRight.

Definition is_save (e : event Sys) : bool :=
  match e with Save _ _ _ _ => true | _ => false end.

Definition is_round (e : event Sys) : bool :=
  match e with PrintDensity _ => true | _ => false end.

(** The number of rounds in a log. *)
Definition rounds (log : list (event Sys)) : nat :=
  length (filter (fun e => is_round e = true) log).

(** How a search ends: by the report of an interval that is narrow enough
    and has the width of the first one halved once per round, or by the
    save of a system for which no transition was found. *)
Definition ends_well (lo hi : R) (evs : list (event Sys)) : Prop :=
  (exists lo' hi',
     last evs = Some (PrintFinish lo' hi') /\
     (hi' - lo' <= acuracy)%R /\
     ((hi' - lo') * 2 ^ rounds evs = hi - lo)%R) \/
  (exists path s d, last evs = Some (Save path s d "noTrans")).

(** What [fuel = S n] gives when [n] halvings make the interval narrow
    enough. *)
Definition within_rounds (n : nat) (lo hi : R) (initLeft initRight : init Sys)
    (specLeft specRight : string) (log : list (event Sys)) : Prop :=
  let out := run (S n) (lo, hi) initLeft initRight specLeft specRight log in
  exists evs,
    snd out = log ++ evs /\ (rounds evs <= n)%nat /\
    match fst out with
    | Ok None => False
    | Ok (Some _) => ends_well lo hi evs
    | Raise _ => True
    end.

End SearchSpec.

(** ** Concrete states *)

(** One canonical species of density 1/2 on a lattice of two sites, with
    the homogeneous profile 1/4. *)
Definition model0 : LdftModel :=
  mkLdftModel [2%Z] [None] [Some (Fin (1/2))] [false] [[Fin 0; Fin 0]]
    [[Fin (1/4); Fin (1/4)]] [[[Fin (1/4); Fin (1/4)]]] [] [0%Z] 0%Z
    "periodic" [].

(** The scalar state of [model0] with another iteration history. *)
Definition model_at (it_hist : list Z) (c : Z) : LdftModel :=
  with_hist (map (fun _ => _r model0) it_hist) it_hist
    (with_it_counter c model0).

(** A functional whose excess chemical potential is NaN at the first
    lattice site of the first species. *)
Definition nan_first : LdftFunctional :=
  {| cal_F := fun _ => Fin 0;
     cal_mu_ex := fun _ => [[NaN; Fin 0]] |}.

(** A functional for two species whose excess chemical potential is NaN at
    the first lattice site of the second species. *)
Definition nan_second : LdftFunctional :=
  {| cal_F := fun _ => Fin 0;
     cal_mu_ex := fun _ => [[Fin 0; Fin 0]; [NaN; Fin 0]] |}.

(** Two canonical species on a lattice of two sites. *)
Definition model2 : LdftModel :=
  mkLdftModel [2%Z] [None; None] [Some (Fin (1/2)); Some (Fin (1/2))]
    [false; false] [[Fin 0; Fin 0]; [Fin 0; Fin 0]]
    [[Fin (1/4); Fin (1/4)]; [Fin (1/4); Fin (1/4)]]
    [[[Fin (1/4); Fin (1/4)]; [Fin (1/4); Fin (1/4)]]] [] [0%Z] 0%Z
    "periodic" [].

(** The one-species model with a profile of mean 1/2 that is not
    homogeneous. *)
Definition model1 : LdftModel :=
  with_r [[Fin (1/4); Fin (3/4)]] model0.

(** A toy model for the search: a system is the phase it was seeded for
    ([true] for the low-density phase) and its density; the potential of
    the low-density phase grows with the density and that of the
    high-density phase falls. *)
Definition toy_sys : Type := (bool * R)%type.

Definition toy_create (dens : R) (i : init toy_sys) : result toy_sys :=
  match i with
  | InitShape name => Ok (String.eqb name "hom", dens)
  | InitSys (phase, _) => Ok (phase, dens)
  end.

Definition toy_iterate (s : toy_sys) : result toy_sys := Ok s.

Definition toy_semi_Om (s : toy_sys) : result fl :=
  let '(phase, dens) := s in
  Ok (Fin (if phase then dens else 1 - dens)).

Definition toy_path (short : bool) : string :=
  if short then "data/64" else "data/size".

Definition toy_search (acuracy : R) :=
  search_trans toy_sys [64%Z; 64%Z] toy_path toy_create toy_iterate
    toy_semi_Om acuracy.

(** A lattice of two by four sites under the boundary condition '11_if',
    and one with the grand-canonical species 0 and the canonical
    species 1. *)
Definition lattice_11 : LdftModel :=
  mkLdftModel [2%Z; 4%Z] [None] [Some (Fin (1/2))] [false] [] [] [] [] [0%Z]
    0%Z "11_if" [].

Definition model_gc : LdftModel :=
  mkLdftModel [2%Z] [Some (Fin 2); None] [None; Some (Fin (1/2))]
    [true; false] [[Fin 0; Fin 0]; [Fin 0; Fin 0]]
    [[Fin (1/4); Fin (1/4)]; [Fin (1/2); Fin (1/2)]]
    [[[Fin (1/4); Fin (1/4)]; [Fin (1/2); Fin (1/2)]]] [] [0%Z] 0%Z
    "periodic" [].

Definition field_2x4 : @ndarray nat :=
  Arr2 [[1; 2; 3; 4]; [5; 6; 7; 8]]%nat.

(** * More of the code

    The methods of [ldft_model.py] and the functions of [generator.py]
    and [lg_2d_highl.py] that the parts above do not cover, and the
    vocabulary of their properties. *)

(** ** Invariants of the histories *)

(** The iteration counter counts the entries of the error history. *)
Definition counts_inv (s : LdftModel) : Prop :=
  _it_counter s = Z.of_nat (length (_err_hist s)).

(** A history that ends with the current value of the counter ends with
    the current profile. *)
Definition snapshot_inv (s : LdftModel) : Prop :=
  last (_it_hist s) = Some (_it_counter s) -> last (_r_hist s) = Some (_r s).

(** The step from [s] to [s'] has made [k] updates: the histories have
    grown at their ends, the two lists of a snapshot by as many entries,
    the error history by [k] entries, and the counter by [k]. *)
Definition advanced (k : nat) (s s' : LdftModel) : Prop :=
  exists rs its es,
    _r_hist s' = _r_hist s ++ rs /\ _it_hist s' = _it_hist s ++ its /\
    _err_hist s' = _err_hist s ++ es /\
    length rs = length its /\ length es = k /\
    _it_counter s' = (_it_counter s + Z.of_nat k)%Z.

(** ** More methods of [LdftModel] *)

(** [set_hist]. *)
Definition set_hist (r_hist : list (list array)) (it_hist : list Z)
    (err_hist : list (list fl)) : M LdftModel unit :=
  modify (fun s => with_hist (_r_hist s) it_hist s) ;;;
  modify (fun s => with_hist r_hist (_it_hist s) s) ;;;
  modify (with_err_hist err_hist) ;;;
  self <- get ;;
  r <- lift (py_last (_r_hist self)) ;;
  modify (with_r r).

Section MoreEngine.
Context `{Functional : LdftFunctional}.

(** [cal_Om]: the loop over the species, then the method. *)
Fixpoint Om_loop (idxs : list nat) (Om : fl) : M LdftModel fl :=
  match idxs with
  | [] => ret Om
  | i :: rest =>
      self <- get ;;
      mu_i <- lift (py_index (_mu self) i) ;;
      r_i <- lift (py_index (_r self) i) ;;
      mu_i <- as_float mu_i ;;
      Om_loop rest (fsub Om (fmul mu_i (np_sum r_i)))
  end.

Definition cal_Om : M LdftModel fl :=
  self <- get ;;
  Om_loop (seq 0 (length (_mu_fix self))) (cal_F self).

(** The term [mu_i * sum(r_i)] of species [i]. *)
Definition om_term (s : LdftModel) (i : nat) : option fl :=
  match _mu s !! i, _r s !! i with
  | Some (Some m), Some r_i => Some (fmul m (np_sum r_i))
  | _, _ => None
  end.

(** The grand potential as its docstring words it: the free energy with
    every species treated grand-canonically. *)
Definition Om_spec (s : LdftModel) : fl :=
  fsub (cal_F s) (fsum (omap (om_term s) (seq 0 (length (_mu_fix s))))).

End MoreEngine.

(** The candidate profile [r_new[k]] that an update computes for species
    [k] from the array [u] of [temp], on a lattice of [V] sites. *)
Definition candidate (V : Z) (s : LdftModel) (k : nat) (u : array)
    : option array :=
  match _mu_fix s !! k with
  | Some true =>
      match _mu s !! k with
      | Some (Some m) => Some (scale (fexp m) u)
      | _ => None
      end
  | Some false =>
      match _dens s !! k with
      | Some (Some d) =>
          Some (scale (fdiv d (fdiv (np_sum u) (of_Z V))) u)
      | _ => None
      end
  | None => None
  end.

(** The checkpoint policies whose next checkpoint lies ahead of the last
    recorded index: an integer interval [k > 0], 'dec#' with [# > 0] and
    'exp#' with [# >= 1]. *)
Definition forward_policy (cm : checkp_method) : Prop :=
  match cm with
  | CpInt k => (0 < k)%Z
  | CpStr method parm =>
      (method = "dec"%string /\ (0 < parm)%Z) \/
      (method = "exp"%string /\ (1 <= parm)%Z)
  end.

(** The iteration indices that the policy [k] records between the index
    [l] and the counter [c]: [l + k], [l + 2 k], ... *)
Definition int_checkpoints (l k c : Z) : list Z :=
  map (fun j => (l + Z.of_nat j * k)%Z) (seq 1 (Z.to_nat ((c - l) / k))).

(** ** The lattice gas of [lg_2d_highl.py]

    The class [LG2dAOHighl] has three species: the colloids (0) and the
    two species of polymer clusters (1, 2). *)

(** [translate_epsi_to_mu_pc] and [translate_mu_pc_to_epsi]. *)
Definition translate_epsi_to_mu_pc (epsi : fl) : fl :=
  flog (fsub (fexp epsi) (Fin 1)).

Definition translate_mu_pc_to_epsi (mu_pc : fl) : fl :=
  flog (fadd (fexp mu_pc) (Fin 1)).

Section Highlander.
Context `{Functional : LdftFunctional}.

(** [cal_F_lg]; [cal_F] is that of the class. *)
Definition cal_F_lg : M LdftModel fl :=
  self <- get ;;
  let F_lg := cal_F self in
  mu_pc1 <- lift (py_index (_mu self) 1) ;;
  mu_pc2 <- lift (py_index (_mu self) 2) ;;
  r_pc1 <- lift (py_index (_r self) 1) ;;
  r_pc2 <- lift (py_index (_r self) 2) ;;
  mu_pc1 <- as_float mu_pc1 ;;
  mu_pc2 <- as_float mu_pc2 ;;
  ret (fsub F_lg (fadd (fmul mu_pc1 (np_sum r_pc1))
                       (fmul mu_pc2 (np_sum r_pc2)))).

End Highlander.

(** ** Functions of the packing fraction and of the bulk density *)

(** [_cal_Phi_0], [_cal_dPhi_0] and [_cal_d2Phi_0] of [LdftModel], on an
    element of a numpy array. *)
Definition _cal_Phi_0 (x : fl) : fl :=
  fadd x (fmul (fsub (Fin 1) x) (flog (fsub (Fin 1) x))).

Definition _cal_dPhi_0 (x : fl) : fl := fopp (flog (fsub (Fin 1) x)).

Definition _cal_d2Phi_0 (x : fl) : fl := fdiv (Fin 1) (fsub (Fin 1) x).

(** The [dens] argument of the bulk functions of [LG3dMf]
    ([lg_3d_mf.py]): a float, or a list whose first entry is taken. *)
Inductive bulk_arg : Type :=
  | BFloat (x : fl)
  | BList (l : list fl).

Definition bulk_rho (dens : bulk_arg) : result fl :=
  match dens with
  | BFloat x => Ok x
  | BList l => py_index l 0
  end.

(** [LG3dMf.cal_bulk_f] and [LG3dMf.cal_bulk_mu]. *)
Definition cal_bulk_f (dens : bulk_arg) (epsi : fl) : result fl :=
  match bulk_rho dens with
  | Raise e => Raise e
  | Ok rho =>
      let f_id := fmul rho (fsub (flog rho) (Fin 1)) in
      let f_hr := fadd rho (fmul (fsub (Fin 1) rho)
                                 (flog (fsub (Fin 1) rho))) in
      let f_sa := fmul (fmul (Fin (- 3)) epsi) (fmul rho rho) in
      Ok (fadd (fadd f_id f_hr) f_sa)
  end.

Definition cal_bulk_mu (dens : bulk_arg) (epsi : fl) : result fl :=
  match bulk_rho dens with
  | Raise e => Raise e
  | Ok rho =>
      Ok (fsub (flog (fdiv rho (fsub (Fin 1) rho)))
               (fmul (fmul epsi (Fin 6)) rho))
  end.

(** The value of a finite float, and of a result that is one. *)
Definition real_of (a : fl) : R :=
  match a with Fin x => x | _ => 0%R end.

Definition real_of_result (r : result fl) : R :=
  match r with Ok a => real_of a | Raise _ => 0%R end.

(** ** Arrays of any lattice *)

Section RollVocabulary.
Context {A : Type}.

(** [a] is a rectangular array; [sh] is its shape, or the shape of the
    three-axis array that has it as its only layer. *)
Definition rect (sh : idx) (a : @ndarray A) : Prop :=
  match a with
  | Arr3 a3 => wf3 sh a3
  | Arr2 a2 => ix X0 sh = 1%nat /\ wf3 sh [a2]
  end.

(** The extents of such an array, as a lattice has them in [_size]. *)
Definition extents (sh : idx) (a : @ndarray A) : list Z :=
  let '(l0, l1, l2) := sh in
  match a with
  | Arr3 _ => [Z.of_nat l0; Z.of_nat l1; Z.of_nat l2]
  | Arr2 _ => [Z.of_nat l1; Z.of_nat l2]
  end.

End RollVocabulary.

(** The boundary conditions that [_boundary_roll] knows. *)
Definition known_mode (bc : string) : Prop :=
  bc = "periodic"%string \/ tilted_mode bc.

(** ** Initial density profiles

    [return_hom_densProfile], [return_nuc_densProfile] and
    [create_init_profile].  The code indexes a profile only when the
    lattice has two or three axes; a profile with another number of axes
    is the list of its elements.  [_dim] is [len(size)], the number of
    axes of the array that [np.ones(self._size)] makes. *)

Inductive grid : Type :=
  | Grid2 (a : list (list fl))
  | Grid3 (a : list (list (list fl)))
  | GridN (a : array).

(** The elements of a profile, in the order of the memory. *)
Definition ravel (g : grid) : array :=
  match g with
  | Grid2 a => concat a
  | Grid3 a => concat (concat a)
  | GridN a => a
  end.

(** An elementwise operation with a scalar. *)
Definition gmap (f : fl -> fl) (g : grid) : grid :=
  match g with
  | Grid2 a => Grid2 (map (map f) a)
  | Grid3 a => Grid3 (map (map (map f)) a)
  | GridN a => GridN (map f a)
  end.

(** The number of sites of a lattice. *)
Definition sites (size : list Z) : nat :=
  Z.to_nat (fold_right Z.mul 1%Z size).

(** [np.ones(size)]; a negative extent raises [ValueError]. *)
Definition np_ones (size : list Z) : result grid :=
  if existsb (fun n => (n <? 0)%Z) size then Raise ValueError
  else Ok match size with
          | [n0; n1] =>
              Grid2 (repeat (repeat (Fin 1) (Z.to_nat n1)) (Z.to_nat n0))
          | [n0; n1; n2] =>
              Grid3 (repeat (repeat (repeat (Fin 1) (Z.to_nat n2))
                                    (Z.to_nat n1)) (Z.to_nat n0))
          | _ => GridN (repeat (Fin 1) (sites size))
          end.

(** [return_hom_densProfile]. *)
Definition return_hom_densProfile (self : LdftModel) (dens : fl)
    : result grid :=
  match np_ones (_size self) with
  | Raise e => Raise e
  | Ok grid => Ok (gmap (fun x => fmul x dens) grid)
  end.

(** The position [i] lies in the slice [lo:hi] of an axis of extent [n]. *)
Definition in_slice (n : nat) (b : Z * Z) (i : nat) : bool :=
  (py_bound n (fst b) <=? i)%nat && (i <? py_bound n (snd b))%nat.

(** The slice [(n - s)//2 : (n + s)//2] of the nucleus along an axis of
    the lattice with [n] sites. *)
Definition nuc_slice (n s : Z) : Z * Z := ((n - s) / 2, (n + s) / 2)%Z.

(** [row[b] = v], [a[b0, b1] = v] and [a[b0, b1, b2] = v] for slices [b],
    [b0], [b1], [b2] and a scalar [v]. *)
Definition fill1 (b : Z * Z) (v : fl) (row : list fl) : list fl :=
  imap (fun j x => if in_slice (length row) b j then v else x) row.

Definition fill2 (b0 b1 : Z * Z) (v : fl) (a : list (list fl))
    : list (list fl) :=
  imap (fun i row => if in_slice (length a) b0 i then fill1 b1 v row
                     else row) a.

Definition fill3 (b0 b1 b2 : Z * Z) (v : fl) (a : list (list (list fl)))
    : list (list (list fl)) :=
  imap (fun i layer => if in_slice (length a) b0 i then fill2 b1 b2 v layer
                       else layer) a.

(** [np.roll(row, steps)] on an array with one axis. *)
Definition roll1 (row : list fl) (steps : Z) : list fl :=
  let k := Z.to_nat ((- steps) mod Z.of_nat (length row)) in
  drop k row ++ take k row.

(** A [for] loop over the indices [l] that updates a local variable. *)
Fixpoint for_each {S : Type} (l : list nat) (body : nat -> S -> result S)
    (s : S) : result S :=
  match l with
  | [] => Ok s
  | i :: l' =>
      match body i s with
      | Ok s' => for_each l' body s'
      | Raise e => Raise e
      end
  end.

(** The loop [profile[i,:] = np.roll(profile[i,:], sheer-i)] over
    [range(sheer)] on a profile with two axes. *)
Definition shear_rows (sheer : nat) (profile : list (list fl))
    : result (list (list fl)) :=
  for_each (seq 0 sheer)
    (fun i profile =>
       match profile !! i with
       | Some row =>
           Ok (<[i := roll1 row (Z.of_nat sheer - Z.of_nat i)]> profile)
       | None => Raise IndexError
       end) profile.

(** The loop [profile[:,i,:] = np.roll(profile[:,i,:], sheer-i, axis=1)]
    over [range(sheer)]: the index [i] selects along the second axis and
    raises [IndexError] beyond its extent. *)
Definition shear_columns (sheer : nat) (profile : list (list (list fl)))
    : result (list (list (list fl))) :=
  for_each (seq 0 sheer)
    (fun i profile =>
       if (i <? length (hd [] profile))%nat then
         Ok (map (alter (fun row =>
                           roll1 row (Z.of_nat sheer - Z.of_nat i)) i)
                 profile)
       else Raise IndexError) profile.

(** The loop [profile[i,:,:] = np.roll(profile[i,:,:], sheer-i, axis=1)]
    over [range(sheer)]. *)
Definition shear_layers (sheer : nat) (profile : list (list (list fl)))
    : result (list (list (list fl))) :=
  for_each (seq 0 sheer)
    (fun i profile =>
       match profile !! i with
       | Some layer =>
           Ok (<[i := map (fun row =>
                             roll1 row (Z.of_nat sheer - Z.of_nat i))
                          layer]> profile)
       | None => Raise IndexError
       end) profile.

(** The branches [if self._dim==2] and [if self._dim==3] of
    [return_nuc_densProfile]: the nucleus is written into the profile,
    which is then sheared as the boundary condition says.  [shape[k]] of a
    tuple that is too short raises [IndexError]. *)
Definition place_nucleus (self : LdftModel) (nuc_dens : fl)
    (shape : list Z) (profile : grid) : result grid :=
  let bc := _bound_cond self in
  match profile with
  | Grid2 a =>
      match _size self, shape with
      | n0 :: n1 :: _, s0 :: s1 :: _ =>
          let a := fill2 (nuc_slice n0 s0) (nuc_slice n1 s1) nuc_dens a in
          if String.eqb bc "11_if" then
            match shear_rows (length a) a with
            | Ok a => Ok (Grid2 a)
            | Raise e => Raise e
            end
          else Ok (Grid2 a)
      | _, _ => Raise IndexError
      end
  | Grid3 a =>
      match _size self, shape with
      | n0 :: n1 :: n2 :: _, s0 :: s1 :: s2 :: _ =>
          let a := fill3 (nuc_slice n0 s0) (nuc_slice n1 s1)
                         (nuc_slice n2 s2) nuc_dens a in
          let sheer := length a in
          match (if String.eqb bc "111_if" || String.eqb bc "110_if"
                 then shear_columns sheer a else Ok a) with
          | Raise e => Raise e
          | Ok a =>
              match (if String.eqb bc "111_if" then shear_layers sheer a
                     else Ok a) with
              | Raise e => Raise e
              | Ok a => Ok (Grid3 a)
              end
          end
      | _, _ => Raise IndexError
      end
  | GridN _ => Ok profile
  end.

(** [return_nuc_densProfile]. *)
Definition return_nuc_densProfile (self : LdftModel) (dens : fl)
    (shape : list Z) : result grid :=
  match return_hom_densProfile self dens with
  | Raise e => Raise e
  | Ok profile =>
      let nuc_dens := if flt dens (Fin (1/2)) then fadd dens (Fin (5/100))
                      else fsub dens (Fin (5/100)) in
      match place_nucleus self nuc_dens shape profile with
      | Raise e => Raise e
      | Ok profile =>
          Ok (gmap (fun x => fdiv (fmul x dens) (np_mean (ravel profile)))
                   profile)
      end
  end.

(** The body of the loop of [create_init_profile]:
    [r.append(self.return_nuc_densProfile(dens[i], shape[i]))].  The
    arguments default to [None], whose subscription raises [TypeError];
    the engine keeps the elements of each profile. *)
Definition append_profile (self : LdftModel) (dens : option (list fl))
    (shape : option (list (list Z))) (i : nat) (r : list array)
    : result (list array) :=
  match dens with
  | None => Raise TypeError
  | Some dens =>
  match dens !! i with
  | None => Raise IndexError
  | Some dens_i =>
  match shape with
  | None => Raise TypeError
  | Some shape =>
  match shape !! i with
  | None => Raise IndexError
  | Some shape_i =>
  match return_nuc_densProfile self dens_i shape_i with
  | Raise e => Raise e
  | Ok profile => Ok (r ++ [ravel profile])
  end end end end end.

(** [create_init_profile]. *)
Definition create_init_profile (dens : option (list fl))
    (shape : option (list (list Z))) : M LdftModel unit :=
  self <- get ;;
  r <- lift (for_each (seq 0 (length (_mu_fix self)))
               (append_profile self dens shape) []) ;;
  set_r r.

(** *** The vocabulary of the profiles *)

(** [a] has the extents [n0], [n1] (and [n2]), and all its elements
    satisfy [P]. *)
Definition all2 (P : fl -> Prop) (n0 n1 : nat) (a : list (list fl))
    : Prop :=
  length a = n0 /\ Forall (fun row => length row = n1 /\ Forall P row) a.

Definition all3 (P : fl -> Prop) (n0 n1 n2 : nat)
    (a : list (list (list fl))) : Prop :=
  length a = n0 /\ Forall (all2 P n1 n2) a.

(** The profile [g] has one element for each site of the lattice of the
    extents [size], and all its elements satisfy [P]. *)
Definition grid_all (P : fl -> Prop) (size : list Z) (g : grid) : Prop :=
  match g with
  | Grid2 a =>
      exists n0 n1, size = [n0; n1] /\
        all2 P (Z.to_nat n0) (Z.to_nat n1) a
  | Grid3 a =>
      exists n0 n1 n2, size = [n0; n1; n2] /\
        all3 P (Z.to_nat n0) (Z.to_nat n1) (Z.to_nat n2) a
  | GridN a =>
      length size <> 2%nat /\ length size <> 3%nat /\
      length a = sites size /\ Forall P a
  end.

(** A finite, positive float. *)
Definition positive (x : fl) : Prop := exists r, x = Fin r /\ (0 < r)%R.

(** The tuple [shape] has an entry for each axis of the lattice, and a
    lattice with three axes that the boundary condition shears is not
    longer along its first axis than along its second. *)
Definition nucleus_ok (self : LdftModel) (shape : list Z) : Prop :=
  match _size self with
  | [_; _] => (2 <= length shape)%nat
  | [n0; n1; _] =>
      (3 <= length shape)%nat /\
      (_bound_cond self = "110_if"%string \/
       _bound_cond self = "111_if"%string -> (n0 <= n1)%Z)
  | _ => True
  end.

(** ** More concrete states *)

(** One grand-canonical species with the chemical potential 2. *)
Definition model_one_gc : LdftModel :=
  mkLdftModel [2%Z] [Some (Fin 2)] [None] [true] [[Fin 0; Fin 0]]
    [[Fin (1/4); Fin (1/4)]] [[[Fin (1/4); Fin (1/4)]]] [] [0%Z] 0%Z
    "periodic" [].

(** A history of two snapshots whose last index is 100. *)
Definition two_snapshots : list (list array) :=
  [[[Fin (1/4); Fin (1/4)]]; [[Fin (1/2); Fin (1/2)]]].

(** A state of the three species of [LG2dAOHighl] with canonical
    colloids, on a lattice of two sites. *)
Definition model_ao : LdftModel :=
  mkLdftModel [2%Z] [None; Some (Fin 1); Some (Fin 1)]
    [Some (Fin (1/2)); None; None] [false; true; true]
    [[Fin 0; Fin 0]; [Fin 0; Fin 0]; [Fin 0; Fin 0]]
    [[Fin (1/2); Fin (1/2)]; [Fin (1/4); Fin (1/4)]; [Fin (1/8); Fin (1/8)]]
    [] [] [0%Z] 0%Z "periodic" [].

(** One grand-canonical species of the ideal gas at the chemical
    potential 0, with the profile that an update computes for it (the
    density 1 at each site). *)
Definition model_fixed : LdftModel :=
  mkLdftModel [2%Z] [Some (Fin 0)] [None] [true] [[Fin 0; Fin 0]]
    [[Fin (exp (0 + - 0) * exp 0); Fin (exp (0 + - 0) * exp 0)]]
    [] [] [0%Z] 0%Z "periodic" [].

(** A lattice of two by three sites with periodic boundaries, one that
    is not twice as long as wide under the condition '11_if', and one
    with a boundary condition that the class does not know. *)
Definition lattice_periodic : LdftModel :=
  mkLdftModel [2%Z; 3%Z] [None] [Some (Fin (1/2))] [false] [] [] [] []
    [0%Z] 0%Z "periodic" [].

Definition lattice_2x3_tilted : LdftModel :=
  mkLdftModel [2%Z; 3%Z] [None] [Some (Fin (1/2))] [false] [] [] [] []
    [0%Z] 0%Z "11_if" [].

Definition lattice_unknown : LdftModel :=
  mkLdftModel [2%Z; 3%Z] [None] [Some (Fin (1/2))] [false] [] [] [] []
    [0%Z] 0%Z "open" [].

Definition field_2x3 : @ndarray nat :=
  Arr2 [[1; 2; 3]; [4; 5; 6]]%nat.

(** Lattices with three axes under the boundary condition '110_if', one
    longer along its first axis than along its second, and a lattice
    with two species. *)
Definition lattice_3x2x4 : LdftModel :=
  mkLdftModel [3%Z; 2%Z; 4%Z] [None] [Some (Fin (1/2))] [false] [] [] [] []
    [0%Z] 0%Z "110_if" [].

Definition lattice_two_species : LdftModel :=
  mkLdftModel [2%Z; 3%Z] [None; Some (Fin 0)] [Some (Fin (1/4)); None]
    [false; true] [] [] [] [] [0%Z] 0%Z "11_if" [].

(** * Properties *)

(** ** Generic tactics for the monad *)

Ltac unfold_monad :=
  unfold print, as_float in *;
  unfold bind, ret, raise, get, put, modify, lift in *.

(** ** Checkpoint schedule *)

Lemma ilog10_fuel_spec (fuel : nat) (n : Z) :
  (1 <= n)%Z -> (n < 2 ^ Z.of_nat fuel)%Z ->
  (0 <= ilog10_fuel fuel n /\
   10 ^ ilog10_fuel fuel n <= n < 10 ^ (ilog10_fuel fuel n + 1))%Z.
Proof.
  revert n. induction fuel as [|fuel IH]; intros n Hn Hlt.
  - simpl in Hlt. lia.
  - simpl ilog10_fuel. destruct (Z.ltb_spec n 10) as [Hs|Hs].
    + simpl. lia.
    + assert (Hq : (1 <= n / 10)%Z) by (apply Z.div_le_lower_bound; lia).
      assert (Hq2 : (n / 10 < 2 ^ Z.of_nat fuel)%Z).
      { apply Z.div_lt_upper_bound; [lia|].
        rewrite Nat2Z.inj_succ, Z.pow_succ_r in Hlt by lia. lia. }
      destruct (IH _ Hq Hq2) as (H0 & Hlo & Hhi).
      set (k := ilog10_fuel fuel (n / 10)) in *.
      pose proof (Z.mul_div_le n 10 ltac:(lia)) as Hm.
      pose proof (Z.mul_succ_div_gt n 10 ltac:(lia)) as Hm'.
      split; [lia|].
      replace (1 + k + 1)%Z with (Z.succ (k + 1)) by lia.
      replace (1 + k)%Z with (Z.succ k) by lia.
      rewrite !Z.pow_succ_r by lia. lia.
Qed.

(** [ilog10 n] is the integer part of the decimal logarithm of [n]. *)
Lemma ilog10_spec (n : Z) :
  (1 <= n)%Z ->
  (0 <= ilog10 n /\ 10 ^ ilog10 n <= n < 10 ^ (ilog10 n + 1))%Z.
Proof.
  intros Hn. unfold ilog10. apply ilog10_fuel_spec; [exact Hn|].
  rewrite Nat2Z.inj_succ, Z2Nat.id by apply Z.log2_nonneg.
  apply Z.log2_spec. lia.
Qed.

Lemma py_last_snoc {A} (l : list A) (x : A) : py_last (l ++ [x]) = Ok x.
Proof. unfold py_last. now rewrite last_snoc. Qed.

Lemma set_new_checkp_dec (s : LdftModel) (l p : Z) :
  last (_it_hist s) = Some l -> (0 < l)%Z ->
  _set_new_checkp (CpStr "dec" p) s = (Ok (l + p * 10 ^ ilog10 l)%Z, s).
Proof.
  intros Hl Hpos. unfold _set_new_checkp, py_last. unfold_monad.
  rewrite Hl. simpl.
  destruct (Z.eqb_spec l 0); [lia|]. simpl.
  destruct (Z.ltb_spec l 0); [lia|]. reflexivity.
Qed.

Lemma set_new_checkp_int (s : LdftModel) (l k : Z) :
  last (_it_hist s) = Some l ->
  _set_new_checkp (CpInt k) s = (Ok (l + k)%Z, s).
Proof.
  intros Hl. unfold _set_new_checkp, py_last. unfold_monad.
  now rewrite Hl.
Qed.

Lemma checkpoints_dec_step (s : LdftModel) (l p : Z) (n : nat) :
  last (_it_hist s) = Some l -> (0 < l)%Z ->
  exists s', last (_it_hist s') = Some (l + p * 10 ^ ilog10 l)%Z /\
    fst (checkpoints (CpStr "dec" p) (S n) s) =
    match fst (checkpoints (CpStr "dec" p) n s') with
    | Ok cs => Ok ((l + p * 10 ^ ilog10 l)%Z :: cs)
    | Raise e => Raise e
    end.
Proof.
  intros Hl Hpos.
  set (c := (l + p * 10 ^ ilog10 l)%Z).
  exists (with_hist (_r_hist (with_it_counter c s) ++ [_r s])
            (_it_hist s ++ [c]) (with_it_counter c s)).
  split; [simpl; apply last_snoc|].
  cbn [checkpoints]. unfold bind at 1.
  rewrite (set_new_checkp_dec s l p Hl Hpos). fold c.
  unfold record_checkpoint, _append_hist. unfold_monad. simpl.
  destruct (checkpoints _ n _) as [[cs|e] s'']; reflexivity.
Qed.

(** C4, as stated, fails: after the checkpoint 30 the policy 'dec2' yields
    50, so the first eight checkpoints from a history ending in 10 are not
    30, 60, 90, 100, 300, 600, 900, 1000. *)
Lemma C4_dec2_counterexample :
  fst (checkpoints (CpStr "dec" 2) 8 (model_at [10%Z] 10%Z)) =
    Ok [30; 50; 70; 90; 110; 310; 510; 710]%Z /\
  fst (checkpoints (CpStr "dec" 2) 8 (model_at [10%Z] 10%Z)) <>
    Ok [30; 60; 90; 100; 300; 600; 900; 1000]%Z.
Proof. split; [vm_compute; reflexivity | vm_compute; discriminate]. Qed.

(** C4 (amended): with the policy 'dec2' and a history whose last index is
    10, the successive checkpoints of [_set_new_checkp] are 30, 50, 70, 90:
    each is the last recorded index [l] plus [2 * 10 ^ floor(log10 l)]. *)
Theorem C4_dec2_checkpoints (s : LdftModel) :
  last (_it_hist s) = Some 10%Z ->
  fst (checkpoints (CpStr "dec" 2) 4 s) = Ok [30; 50; 70; 90]%Z.
Proof.
  intros H10.
  destruct (checkpoints_dec_step s 10 2 3 H10 ltac:(lia)) as (s1 & H1 & ->).
  destruct (checkpoints_dec_step s1 _ 2 2 H1 ltac:(vm_compute; reflexivity))
    as (s2 & H2 & ->).
  destruct (checkpoints_dec_step s2 _ 2 1 H2 ltac:(vm_compute; reflexivity))
    as (s3 & H3 & ->).
  destruct (checkpoints_dec_step s3 _ 2 0 H3 ltac:(vm_compute; reflexivity))
    as (s4 & H4 & ->).
  reflexivity.
Qed.

Lemma C4_dec2_checkpoints_witness :
  last (_it_hist (model_at [0; 10]%Z 10%Z)) = Some 10%Z /\
  fst (checkpoints (CpStr "dec" 2) 4 (model_at [0; 10]%Z 10%Z)) =
    Ok [30; 50; 70; 90]%Z.
Proof.
  split; [reflexivity | apply C4_dec2_checkpoints; reflexivity].
Defined.

(** ** Frame properties of the update *)

Lemma same_but_scalars_refl s : same_but_scalars s s.
Proof. repeat split. Qed.

Lemma same_but_scalars_trans s1 s2 s3 :
  same_but_scalars s1 s2 -> same_but_scalars s2 s3 -> same_but_scalars s1 s3.
Proof.
  unfold same_but_scalars. intros H1 H2.
  decompose [and] H1. decompose [and] H2. repeat split; congruence.
Qed.

Lemma lift_state {S A} (r : result A) (s : S) : snd (lift r s) = s.
Proof. reflexivity. Qed.

Lemma pure_ret {S A} (a : A) : pure_state (@ret S A a).
Proof. intros s. reflexivity. Qed.

Lemma pure_raise {S A} (e : exn) : pure_state (@raise S A e).
Proof. intros s. reflexivity. Qed.

Lemma pure_lift {S A} (r : result A) : pure_state (@lift S A r).
Proof. intros s. reflexivity. Qed.

Lemma pure_get {S} : pure_state (@get S).
Proof. intros s. reflexivity. Qed.

Lemma pure_bind {S A B} (m : M S A) (k : A -> M S B) :
  pure_state m -> (forall a, pure_state (k a)) -> pure_state (bind m k).
Proof.
  intros Hm Hk s. unfold bind. specialize (Hm s).
  destruct (m s) as [[a|e] s1]; simpl in Hm; subst; [apply Hk|reflexivity].
Qed.

Lemma pure_list_comp {S A} (f : nat -> M S A) (idxs : list nat) :
  (forall i, pure_state (f i)) -> pure_state (list_comp f idxs).
Proof.
  intros Hf. induction idxs as [|i rest IH]; simpl.
  - apply pure_ret.
  - apply pure_bind; [apply Hf|]. intros x.
    apply pure_bind; [apply IH|]. intros xs. apply pure_ret.
Qed.

Lemma pure_as_float {S} (x : option fl) : pure_state (@as_float S x).
Proof. destruct x; [apply pure_ret | apply pure_raise]. Qed.

Create HintDb pure_db.
#[local] Hint Resolve pure_ret pure_raise pure_lift pure_get pure_as_float
  : pure_db.

Ltac solve_pure :=
  repeat first
    [ apply pure_list_comp; intros
    | apply pure_bind; [|intros]
    | solve [auto with pure_db]
    | match goal with
      | |- pure_state (if ?b then _ else _) => destruct b
      | |- pure_state (match ?x with _ => _ end) => destruct x
      end ].

Lemma pure_set_new_checkp (cm : checkp_method) :
  pure_state (_set_new_checkp cm).
Proof. unfold _set_new_checkp. solve_pure. Qed.

(** ** Arrays of finite numbers *)

Lemma all_fin_inv (l : list fl) :
  Forall is_fin l -> exists xs, l = map Fin xs.
Proof.
  induction 1 as [|a l Ha _ [xs ->]]; [now exists []|].
  destruct a as [| | |x]; try contradiction. now exists (x :: xs).
Qed.

Lemma fsum_fin_acc (xs : list R) (a : R) :
  fold_left fadd (map Fin xs) (Fin a) = Fin (a + Rsum xs).
Proof.
  revert a. induction xs as [|x xs IH]; intros a; simpl.
  - f_equal. lra.
  - rewrite IH. f_equal. lra.
Qed.

Lemma fsum_fin (xs : list R) : fsum (map Fin xs) = Fin (Rsum xs).
Proof. unfold fsum. rewrite fsum_fin_acc. f_equal. lra. Qed.

Lemma scale_fin (z : R) (xs : list R) :
  scale (Fin z) (map Fin xs) = map Fin (map (fun x => x * z)%R xs).
Proof. unfold scale. rewrite !map_map. reflexivity. Qed.

Lemma zip_fadd_fin (xs ys : list R) :
  zip_with fadd (map Fin xs) (map Fin ys) = map Fin (zip_with Rplus xs ys).
Proof.
  revert ys. induction xs as [|x xs IH]; intros [|y ys]; simpl;
    try reflexivity. now rewrite IH.
Qed.

Lemma zip_fsub_fin (xs ys : list R) :
  zip_with fsub (map Fin xs) (map Fin ys) =
  map Fin (zip_with (fun x y => x + - y)%R xs ys).
Proof.
  revert ys. induction xs as [|x xs IH]; intros [|y ys]; simpl;
    try reflexivity. now rewrite IH.
Qed.

Lemma Rsum_scale (z : R) (xs : list R) :
  Rsum (map (fun x => x * z)%R xs) = (Rsum xs * z)%R.
Proof. induction xs as [|x xs IH]; simpl; [lra|]. rewrite IH. lra. Qed.

Lemma Rsum_zip_plus (xs ys : list R) :
  length xs = length ys ->
  Rsum (zip_with Rplus xs ys) = (Rsum xs + Rsum ys)%R.
Proof.
  revert ys. induction xs as [|x xs IH]; intros [|y ys] Hlen; simpl in *;
    try discriminate; [lra|].
  rewrite IH by lia. lra.
Qed.

Lemma Rsum_exp_pos (xs : list R) :
  xs <> [] -> (0 < Rsum (map exp xs))%R.
Proof.
  induction xs as [|x xs IH]; [congruence|]. intros _. simpl.
  pose proof (exp_pos x) as Hx. destruct xs as [|y ys]; [simpl; lra|].
  specialize (IH ltac:(discriminate)). lra.
Qed.

Lemma fdiv_fin (x y : R) : y <> 0%R -> fdiv (Fin x) (Fin y) = Fin (x / y).
Proof. intros Hy. simpl. destruct (Req_dec_T y 0); [contradiction|reflexivity]. Qed.

Lemma np_mean_fin (xs : list R) :
  xs <> [] -> np_mean (map Fin xs) = Fin (Rsum xs / INR (length xs)).
Proof.
  intros Hne. unfold np_mean, of_nat. rewrite fsum_fin, length_map.
  apply fdiv_fin. apply not_0_INR. destruct xs; [congruence|discriminate].
Qed.

Lemma np_exp_fin (xs : list R) : np_exp (map Fin xs) = map Fin (map exp xs).
Proof. unfold np_exp. rewrite !map_map. reflexivity. Qed.

Lemma any_isnan_fin (xs : list R) : any_isnan (map Fin xs) = false.
Proof. induction xs as [|x xs IH]; [reflexivity|exact IH]. Qed.

(** ** Sums of floats *)

Lemma fadd_comm (a b : fl) : fadd a b = fadd b a.
Proof. destruct a, b; simpl; try reflexivity. f_equal. lra. Qed.

Lemma fadd_assoc (a b c : fl) : fadd (fadd a b) c = fadd a (fadd b c).
Proof. destruct a, b, c; simpl; try reflexivity. f_equal. lra. Qed.

Lemma fadd_0_r (a : fl) : fadd a (Fin 0) = a.
Proof. destruct a; simpl; try reflexivity. f_equal. lra. Qed.

Lemma fsub_0_r (a : fl) : fsub a (Fin 0) = a.
Proof. destruct a; simpl; try reflexivity. f_equal. lra. Qed.

Lemma fopp_fadd (a b : fl) : fopp (fadd a b) = fadd (fopp a) (fopp b).
Proof. destruct a, b; simpl; try reflexivity. f_equal. lra. Qed.

Lemma fsum_acc (l : list fl) (a : fl) :
  fold_left fadd l a = fadd a (fsum l).
Proof.
  unfold fsum. revert a. induction l as [|x l IH]; intros a;
    cbn [fold_left].
  - now rewrite fadd_0_r.
  - rewrite IH, (IH (fadd (Fin 0) x)).
    rewrite (fadd_comm (Fin 0) x), fadd_0_r. apply fadd_assoc.
Qed.

Lemma fsum_cons (x : fl) (l : list fl) : fsum (x :: l) = fadd x (fsum l).
Proof.
  unfold fsum at 1. cbn [fold_left]. rewrite fsum_acc.
  now rewrite (fadd_comm (Fin 0) x), fadd_0_r.
Qed.

(** Subtracting [t] and then a sum is subtracting the sum that starts
    with [t]. *)
Lemma fsub_fsub (acc t rest : fl) :
  fsub (fsub acc t) rest = fsub acc (fadd t rest).
Proof. unfold fsub. now rewrite fopp_fadd, fadd_assoc. Qed.

Section EngineFacts.
Context `{Functional : LdftFunctional}.

Lemma update_species_frame (temp : list array) :
  forall V i r_new s,
    same_but_scalars s (snd (update_species V i temp r_new s)).
Proof.
  induction temp as [|temp_i rest IH]; intros V i r_new s; simpl.
  - apply same_but_scalars_refl.
  - destruct (any_isnan temp_i).
    + unfold_monad. simpl. repeat split.
    + unfold_monad. unfold py_index, py_setitem.
      destruct (_mu_fix s !! i) as [[|]|]; simpl;
        try apply same_but_scalars_refl.
      * destruct (_mu s !! i) as [[m|]|]; simpl;
          try apply same_but_scalars_refl.
        destruct (i <? length (_dens s))%nat; simpl;
          try apply same_but_scalars_refl.
        eapply same_but_scalars_trans; [|apply IH]. repeat split.
      * destruct (_dens s !! i) as [[d|]|]; simpl;
          try apply same_but_scalars_refl.
        destruct (i <? length (_mu s))%nat; simpl;
          try apply same_but_scalars_refl.
        eapply same_but_scalars_trans; [|apply IH]. repeat split.
Qed.


Lemma list_comp_ok {S A} (f : nat -> M S A) (h : nat -> A) (idxs : list nat)
    (s : S) :
  (forall i, In i idxs -> f i s = (Ok (h i), s)) ->
  list_comp f idxs s = (Ok (map h idxs), s).
Proof.
  induction idxs as [|i rest IH]; intros Hf; simpl; [reflexivity|].
  unfold bind at 1. rewrite (Hf i) by (left; reflexivity).
  unfold bind at 1. rewrite IH by (intros j Hj; apply Hf; right; exact Hj).
  reflexivity.
Qed.

Lemma temp_ok (s : LdftModel) :
  shapes_ok s ->
  list_comp (fun i =>
      mu_ex_i <- lift (py_index (cal_mu_ex s) i) ;;
      v_ext_i <- lift (py_index (_v_ext s) i) ;;
      d <- lift (ew2 fsub mu_ex_i v_ext_i) ;;
      ret (np_exp d))
    (seq 0 (length (_mu_fix s))) s = (Ok (temp_arrays s), s).
Proof.
  intros (Hl1 & Hl2 & Hsh & _).
  rewrite (list_comp_ok _ (fun i => default [] (temp_arrays s !! i))).
  - f_equal. f_equal. apply list_eq. intros i.
    rewrite list_lookup_fmap.
    destruct (decide (i < length (_mu_fix s))%nat) as [Hi|Hi].
    + rewrite lookup_seq_lt by exact Hi. simpl.
      destruct (temp_arrays s !! i) eqn:E; [reflexivity|].
      apply lookup_ge_None in E. unfold temp_arrays in E.
      rewrite length_zip_with in E. lia.
    + rewrite lookup_seq_ge by lia. simpl. symmetry.
      apply lookup_ge_None. unfold temp_arrays.
      rewrite length_zip_with. lia.
  - intros i Hi. apply in_seq in Hi.
    destruct (lookup_lt_is_Some_2 (cal_mu_ex s) i ltac:(lia)) as [m Hm].
    destruct (lookup_lt_is_Some_2 (_v_ext s) i ltac:(lia)) as [v Hv].
    pose proof (Forall2_lookup_lr _ _ _ _ _ _ Hsh Hm Hv) as Hlen.
    unfold_monad. unfold py_index, ew2. rewrite ?Hm, ?Hv. simpl.
    simpl in Hlen. rewrite ?Hlen, ?Nat.eqb_refl.
    unfold temp_arrays. rewrite lookup_zip_with, Hm. simpl. rewrite Hv.
    reflexivity.
Qed.

Lemma species_step (V : Z) (s : LdftModel) (i : nat) (t : array) :
  any_isnan t = false -> species_ok s i ->
  exists s1 c,
    (forall rest r_new,
       update_species V i (t :: rest) r_new s =
       update_species V (S i) rest (r_new ++ [c]) s1) /\
    same_but_scalars s s1 /\ stdout s1 = stdout s /\
    length (_mu s1) = length (_mu s) /\
    length (_dens s1) = length (_dens s) /\
    (forall j, j <> i ->
       _mu s1 !! j = _mu s !! j /\ _dens s1 !! j = _dens s !! j) /\
    species_post V s s1 i t c.
Proof.
  intros Hnan Hok. unfold species_ok in Hok. unfold species_post.
  destruct (_mu_fix s !! i) as [[|]|] eqn:Hfix; [| |contradiction].
  - destruct Hok as [[m Hm] Hlt].
    exists (with_dens (<[i:=Some (np_mean (scale (fexp m) t))]> (_dens s)) s),
      (scale (fexp m) t).
    split; [|split; [|split; [|split; [|split; [|split]]]]].
    + intros rest r_new. simpl. rewrite Hnan.
      unfold_monad. unfold py_index, py_setitem. rewrite Hfix, Hm. simpl.
      apply Nat.ltb_lt in Hlt. rewrite Hlt. reflexivity.
    + repeat split.
    + reflexivity.
    + reflexivity.
    + simpl. apply length_insert.
    + intros j Hj. simpl. split; [reflexivity|].
      apply list_lookup_insert_ne. congruence.
    + exists m. simpl. repeat split; try assumption.
      apply list_lookup_insert_eq. exact Hlt.
  - destruct Hok as [[d Hd] Hlt].
    set (z := fdiv d (fdiv (np_sum t) (of_Z V))).
    exists (with_mu (<[i:=Some (flog z)]> (_mu s)) s), (scale z t).
    split; [|split; [|split; [|split; [|split; [|split]]]]].
    + intros rest r_new. simpl. rewrite Hnan.
      unfold_monad. unfold py_index, py_setitem. rewrite Hfix, Hd. simpl.
      apply Nat.ltb_lt in Hlt. rewrite Hlt. reflexivity.
    + repeat split.
    + reflexivity.
    + simpl. apply length_insert.
    + reflexivity.
    + intros j Hj. simpl. split; [|reflexivity].
      apply list_lookup_insert_ne. congruence.
    + exists d. simpl. repeat split; try assumption.
      apply list_lookup_insert_eq. exact Hlt.
Qed.

Lemma species_ok_transport (s s1 : LdftModel) (i j : nat) :
  same_but_scalars s s1 ->
  length (_mu s1) = length (_mu s) ->
  length (_dens s1) = length (_dens s) ->
  (forall k, k <> i ->
     _mu s1 !! k = _mu s !! k /\ _dens s1 !! k = _dens s !! k) ->
  j <> i -> species_ok s j -> species_ok s1 j.
Proof.
  intros Hf Hlm Hld Hout Hji. unfold species_ok.
  destruct Hf as (_ & -> & _). destruct (Hout j Hji) as [-> ->].
  rewrite Hlm, Hld. tauto.
Qed.

Lemma update_species_prefix (V : Z) (rest : list array) :
  forall pre i0 r_new s,
    (forall k t, pre !! k = Some t ->
       any_isnan t = false /\ species_ok s (i0 + k)) ->
    exists s' cands,
      update_species V i0 (pre ++ rest) r_new s =
        update_species V (i0 + length pre) rest (r_new ++ cands) s' /\
      length cands = length pre /\
      same_but_scalars s s' /\ stdout s' = stdout s /\
      length (_mu s') = length (_mu s) /\
      length (_dens s') = length (_dens s) /\
      (forall j, (j < i0 \/ i0 + length pre <= j)%nat ->
         _mu s' !! j = _mu s !! j /\ _dens s' !! j = _dens s !! j) /\
      (forall k t, pre !! k = Some t ->
         exists c, cands !! k = Some c /\ species_post V s s' (i0 + k) t c).
Proof.
  induction pre as [|t pre IH]; intros i0 r_new s Hpre.
  - exists s, []. simpl. rewrite Nat.add_0_r, app_nil_r.
    repeat split; try reflexivity. intros k t Hk. discriminate.
  - destruct (Hpre 0%nat t eq_refl) as [Hnan Hok].
    rewrite Nat.add_0_r in Hok.
    destruct (species_step V s i0 t Hnan Hok)
      as (s1 & c & Hrun & Hf1 & Ho1 & Hlm1 & Hld1 & Hout1 & Hpost1).
    destruct (IH (S i0) (r_new ++ [c]) s1) as
      (s' & cands & Hrun' & Hlen & Hf' & Ho' & Hlm' & Hld' & Hout' & Hpost').
    { intros k t' Hk. destruct (Hpre (S k) t' Hk) as [Hn Ho].
      split; [exact Hn|].
      replace (S i0 + k)%nat with (i0 + S k)%nat by lia.
      eapply species_ok_transport; eauto. lia. }
    exists s', (c :: cands).
    split; [|split; [|split; [|split; [|split; [|split; [|split]]]]]].
    + simpl app at 1. rewrite Hrun, Hrun'. simpl length.
      rewrite <- app_assoc. simpl. f_equal; lia.
    + simpl. now rewrite Hlen.
    + eapply same_but_scalars_trans; eauto.
    + congruence.
    + congruence.
    + congruence.
    + intros j Hj. simpl length in Hj.
      destruct (Hout' j ltac:(lia)) as [-> ->]. apply Hout1. lia.
    + intros [|k] t' Hk.
      * simpl in Hk. injection Hk as <-. exists c. split; [reflexivity|].
        rewrite Nat.add_0_r.
        destruct (Hout' i0 ltac:(lia)) as [Hm Hd].
        unfold species_post in *.
        destruct (_mu_fix s !! i0) as [[|]|]; [| |contradiction].
        -- destruct Hpost1 as (m & H1 & H2 & H3 & H4).
           exists m. repeat split; congruence.
        -- destruct Hpost1 as (d & H1 & H2 & H3 & H4).
           exists d. repeat split; congruence.
      * simpl in Hk. destruct (Hpost' k t' Hk) as (c' & Hc' & Hp).
        exists c'. split; [exact Hc'|].
        replace (i0 + S k)%nat with (S i0 + k)%nat by lia.
        destruct (Hout1 (S i0 + k)%nat ltac:(lia)) as [Hm Hd].
        unfold species_post in *.
        destruct Hf1 as (_ & Hfix & _). rewrite Hfix in Hp.
        destruct (_mu_fix s !! (S i0 + k)%nat) as [[|]|]; [| |contradiction].
        -- destruct Hp as (m & H1 & H2 & H3 & H4).
           exists m. repeat split; congruence.
        -- destruct Hp as (d & H1 & H2 & H3 & H4).
           exists d. repeat split; congruence.
Qed.


Lemma pure_run {S A} (m : M S A) (s : S) :
  pure_state m -> m s = (fst (m s), s).
Proof. intros H. rewrite <- (H s) at 3. apply surjective_pairing. Qed.

(** The state after [_make_picard_update], whatever its outcome: the
    histories are untouched; the profile and the counter change only when
    the update returns a profile. *)
Lemma make_picard_update_frame (alpha : fl) (s : LdftModel) :
  forall res s', _make_picard_update alpha s = (res, s') ->
    (_size s' = _size s /\ _mu_fix s' = _mu_fix s /\ _v_ext s' = _v_ext s /\
     _r_hist s' = _r_hist s /\ _err_hist s' = _err_hist s /\
     _it_hist s' = _it_hist s /\ _bound_cond s' = _bound_cond s) /\
    match res with
    | Ok (Some (r, _)) => _it_counter s' = (_it_counter s + 1)%Z /\ _r s' = r
    | _ => _it_counter s' = _it_counter s /\ _r s' = _r s
    end.
Proof.
  intros res s'. unfold _make_picard_update.
  unfold bind at 1. unfold get at 1.
  unfold bind at 1.
  match goal with |- context [list_comp ?f ?l s] =>
    rewrite (pure_run (list_comp f l) s) by solve_pure;
    destruct (fst (list_comp f l s)) as [temp|e] end.
  2:{ intros [= <- <-]. repeat split. }
  unfold bind at 1. unfold lift at 1.
  destruct (volume (_size s)) as [V|e].
  2:{ intros [= <- <-]. repeat split. }
  unfold bind at 1.
  pose proof (update_species_frame temp V 0 [] s) as Hf.
  destruct (update_species V 0 temp [] s) as [[[r_new|]|e] s1]; simpl in Hf;
    destruct Hf as (H1 & H2 & H3 & H4 & H5 & H6 & H7 & H8 & H9).
  3:{ intros [= <- <-]. repeat split; assumption. }
  2:{ unfold ret. intros [= <- <-]. repeat split; assumption. }
  unfold bind at 1. unfold get at 1.
  unfold bind at 1.
  match goal with |- context [list_comp ?f ?l s1] =>
    rewrite (pure_run (list_comp f l) s1) by solve_pure;
    destruct (fst (list_comp f l s1)) as [error|e] end.
  2:{ intros [= <- <-]. repeat split; assumption. }
  unfold bind at 1.
  match goal with |- context [list_comp ?f ?l s1] =>
    rewrite (pure_run (list_comp f l) s1) by solve_pure;
    destruct (fst (list_comp f l s1)) as [r|e] end.
  2:{ intros [= <- <-]. repeat split; assumption. }
  unfold_monad. simpl. intros [= <- <-]. simpl.
  repeat split; try assumption. now rewrite H8.
Qed.


(** ** The divergent case *)

Lemma volume_ok (size : list Z) :
  size <> [] -> exists V, volume size = Ok V.
Proof. destruct size as [|x xs]; [congruence|]. intros _. now eexists. Qed.

Lemma nan_in_temp (s : LdftModel) (i : nat) (m : list fl) :
  shapes_ok s -> cal_mu_ex s !! i = Some m -> NaN ∈ m ->
  exists t, temp_arrays s !! i = Some t /\ any_isnan t = true.
Proof.
  intros (Hl1 & Hl2 & Hsh & _) Hm Hnan.
  destruct (lookup_lt_is_Some_2 (_v_ext s) i) as [v Hv].
  { rewrite Hl2, <- Hl1. eapply lookup_lt_Some; eauto. }
  pose proof (Forall2_lookup_lr _ _ _ _ _ _ Hsh Hm Hv) as Hlen.
  simpl in Hlen.
  exists (np_exp (zip_with fsub m v)). split.
  - unfold temp_arrays. rewrite lookup_zip_with, Hm. simpl. now rewrite Hv.
  - apply list_elem_of_lookup in Hnan as [p Hp].
    destruct (lookup_lt_is_Some_2 v p) as [y Hy].
    { rewrite <- Hlen. eapply lookup_lt_Some; eauto. }
    unfold any_isnan, np_exp. apply existsb_exists. exists NaN.
    split; [|reflexivity]. apply list_elem_of_In, list_elem_of_lookup.
    exists p. rewrite list_lookup_fmap, lookup_zip_with, Hp. simpl.
    now rewrite Hy.
Qed.

(** The state in which [_make_picard_update] leaves the model when species
    [length pre] is the first one with a NaN. *)
Lemma update_divergent (alpha : fl) (s : LdftModel)
    (pre : list (list fl)) (t : list fl) (post : list (list fl)) :
  shapes_ok s -> temp_arrays s = pre ++ t :: post ->
  (forall k u, pre !! k = Some u ->
     any_isnan u = false /\ species_ok s k) ->
  any_isnan t = true ->
  exists s' V,
    _make_picard_update alpha s = (Ok None, s') /\
    volume (_size s) = Ok V /\
    same_but_scalars s s' /\ stdout s' = stdout s ++ [OutDivergent] /\
    (forall j, (length pre <= j)%nat ->
       _mu s' !! j = _mu s !! j /\ _dens s' !! j = _dens s !! j) /\
    (forall k u, pre !! k = Some u ->
       exists c, species_post V s s' k u c).
Proof.
  intros Hshape Htemp Hpre Hnan.
  destruct (volume_ok (_size s)) as [V HV]; [apply Hshape|].
  destruct (update_species_prefix V (t :: post) pre 0 [] s Hpre)
    as (s1 & cands & Hrun & _ & Hf & Ho & _ & _ & Hout & Hpost).
  exists (with_stdout (stdout s1 ++ [OutDivergent]) s1), V.
  split; [|split; [exact HV|split; [|split; [|split]]]].
  - unfold _make_picard_update. unfold bind at 1. unfold get at 1.
    unfold bind at 1. rewrite (temp_ok s Hshape).
    unfold bind at 1. unfold lift at 1. rewrite HV.
    unfold bind at 1. rewrite Htemp, Hrun. simpl. rewrite Hnan.
    reflexivity.
  - destruct Hf as (H1 & H2 & H3 & H4 & H5 & H6 & H7 & H8 & H9).
    repeat split; assumption.
  - simpl. now rewrite Ho.
  - intros j Hj. simpl. apply Hout. lia.
  - intros k u Hk. destruct (Hpost k u Hk) as (c & _ & Hc).
    exists c. unfold species_post in *. simpl in *. exact Hc.
Qed.

(** The species [i] whose array has a NaN, the species before it being
    free of NaN, is the one at which the loop over [temp] stops. *)
Lemma first_nan (s : LdftModel) (i : nat) (m : list fl) :
  shapes_ok s ->
  cal_mu_ex s !! i = Some m -> NaN ∈ m ->
  (forall j t, (j < i)%nat -> temp_arrays s !! j = Some t ->
     any_isnan t = false /\ species_ok s j) ->
  exists pre t post,
    temp_arrays s = pre ++ t :: post /\ any_isnan t = true /\
    (i <= length pre)%nat /\
    forall k u, pre !! k = Some u ->
      any_isnan u = false /\ species_ok s k.
Proof.
  intros Hshape Hm Hnan Hbefore.
  destruct (nan_in_temp s i m Hshape Hm Hnan) as (t & Ht & Htn).
  exists (take i (temp_arrays s)), t, (drop (S i) (temp_arrays s)).
  pose proof (lookup_lt_Some _ _ _ Ht) as Hlt.
  split; [|split; [exact Htn|split]].
  - rewrite <- (take_drop_middle _ _ _ Ht) at 1. reflexivity.
  - rewrite length_take. lia.
  - intros k u Hk. apply lookup_take_Some in Hk as [Hk Hki].
    apply (Hbefore k u Hki Hk).
Qed.

(** C10: when the functional yields a NaN for species [i] and the species
    before it are free of NaN, [_make_picard_update] returns [None] with
    [_r] and [_it_counter] unchanged, but for every species [j < i] it has
    already overwritten [_dens[j]] (grand-canonical species) or [_mu[j]]
    (canonical species). *)
Theorem C10_abort_not_atomic (alpha : fl) (s : LdftModel) (i : nat)
    (m : list fl) :
  shapes_ok s ->
  cal_mu_ex s !! i = Some m -> NaN ∈ m ->
  (forall j t, (j < i)%nat -> temp_arrays s !! j = Some t ->
     any_isnan t = false /\ species_ok s j) ->
  exists s' V,
    _make_picard_update alpha s = (Ok None, s') /\
    volume (_size s) = Ok V /\
    _r s' = _r s /\ _it_counter s' = _it_counter s /\
    forall j t, (j < i)%nat -> temp_arrays s !! j = Some t ->
      match _mu_fix s !! j with
      | Some true =>
          exists mu_j, _mu s !! j = Some (Some mu_j) /\
            _dens s' !! j = Some (Some (np_mean (scale (fexp mu_j) t)))
      | Some false =>
          exists d_j, _dens s !! j = Some (Some d_j) /\
            _mu s' !! j =
              Some (Some (flog (fdiv d_j (fdiv (np_sum t) (of_Z V)))))
      | None => False
      end.
Proof.
  intros Hshape Hm Hnan Hbefore.
  destruct (first_nan s i m Hshape Hm Hnan Hbefore)
    as (pre & t & post & Htemp & Htn & Hlen & Hpre).
  destruct (update_divergent alpha s pre t post Hshape Htemp Hpre Htn)
    as (s' & V & Hrun & HV & Hf & _ & _ & Hpost).
  exists s', V. destruct Hf as (_ & _ & _ & Hr & _ & _ & _ & Hc & _).
  repeat (split; [assumption|]).
  intros j u Hj Hu.
  assert (Hpj : pre !! j = Some u).
  { rewrite Htemp in Hu. rewrite lookup_app_l in Hu by lia. exact Hu. }
  destruct (Hpost j u Hpj) as (c & Hc'). unfold species_post in Hc'.
  destruct (_mu_fix s !! j) as [[|]|]; [| |contradiction].
  - destruct Hc' as (mu_j & H1 & -> & H3 & _). now exists mu_j.
  - destruct Hc' as (d_j & H1 & _ & H3 & _). now exists d_j.
Qed.

(** ** The regular case *)

Lemma lookup_map_seq {A} (h : nat -> A) (n k : nat) :
  (k < n)%nat -> map h (seq 0 n) !! k = Some (h k).
Proof.
  intros Hk. change (map h (seq 0 n)) with (h <$> seq 0 n).
  rewrite list_lookup_fmap, lookup_seq_lt by exact Hk. reflexivity.
Qed.

(** When no array has a NaN and no species raises an exception,
    [_make_picard_update] returns the damped profiles, stores them in [_r]
    and increments the counter. *)
Lemma update_success (alpha : fl) (s : LdftModel) :
  shapes_ok s ->
  (forall k u, temp_arrays s !! k = Some u ->
     any_isnan u = false /\ species_ok s k) ->
  Forall2 (fun t r_k : list fl => length t = length r_k)
    (temp_arrays s) (_r s) ->
  exists s' V r error,
    _make_picard_update alpha s = (Ok (Some (r, error)), s') /\
    volume (_size s) = Ok V /\
    _r s' = r /\ _it_counter s' = (_it_counter s + 1)%Z /\
    forall k u r_k, temp_arrays s !! k = Some u -> _r s !! k = Some r_k ->
      exists c, species_post V s s' k u c /\
        r !! k = Some (mix alpha c r_k) /\
        error !! k = Some (sq_error c r_k).
Proof.
  intros Hshape Hall Hr.
  destruct (volume_ok (_size s)) as [V HV]; [apply Hshape|].
  destruct (update_species_prefix V [] (temp_arrays s) 0 [] s Hall)
    as (s1 & cands & Hrun & Hlen & Hf & Ho & _ & _ & Hout & Hpost).
  rewrite app_nil_r in Hrun. simpl in Hrun.
  destruct Hf as (H1 & H2 & H3 & H4 & H5 & H6 & H7 & H8 & H9).
  pose proof (Forall2_length _ _ _ Hr) as Hlr.
  set (n := length cands) in *.
  (* the two list comprehensions *)
  set (h_err := fun i => sq_error (default [] (cands !! i))
                                  (default [] (_r s !! i))).
  set (h_r := fun i => mix alpha (default [] (cands !! i))
                                 (default [] (_r s !! i))).
  assert (Hentry : forall i, In i (seq 0 n) ->
            exists c u r_k, cands !! i = Some c /\
              temp_arrays s !! i = Some u /\ _r s !! i = Some r_k /\
              species_post V s s1 i u c /\ length c = length r_k).
  { intros i Hi. apply in_seq in Hi.
    destruct (lookup_lt_is_Some_2 (temp_arrays s) i ltac:(lia)) as [u Hu].
    destruct (lookup_lt_is_Some_2 (_r s) i ltac:(lia)) as [r_k Hrk].
    destruct (Hpost i u Hu) as (c & Hc & Hp). simpl in Hp.
    exists c, u, r_k. repeat split; try assumption.
    pose proof (Forall2_lookup_lr _ _ _ _ _ _ Hr Hu Hrk) as Hl.
    simpl in Hl. rewrite <- Hl. unfold species_post in Hp.
    destruct (_mu_fix s !! i) as [[|]|]; [| |contradiction].
    - destruct Hp as (? & _ & -> & _). unfold scale. apply length_map.
    - destruct Hp as (? & _ & -> & _). unfold scale. apply length_map. }
  exists (with_it_counter (_it_counter s1 + 1)%Z
            (with_r (map h_r (seq 0 n)) s1)),
    V, (map h_r (seq 0 n)), (map h_err (seq 0 n)).
  split; [|split; [exact HV|split; [reflexivity|split]]].
  - unfold _make_picard_update. unfold bind at 1. unfold get at 1.
    unfold bind at 1. rewrite (temp_ok s Hshape).
    unfold bind at 1. unfold lift at 1. rewrite HV.
    unfold bind at 1. rewrite Hrun. unfold ret at 1. cbv beta iota.
    unfold bind at 1. unfold get at 1. cbv beta iota. unfold bind at 1.
    fold n. rewrite (list_comp_ok _ h_err).
    2:{ intros i Hi. destruct (Hentry i Hi)
          as (c & u & r_k & Hc & Hu & Hrk & _ & Hl).
        unfold_monad. unfold py_index, ew2. rewrite Hc, H4, Hrk.
        simpl. apply Nat.eqb_eq in Hl. rewrite Hl.
        unfold h_err. rewrite Hc, Hrk. reflexivity. }
    unfold bind at 1.
    rewrite (list_comp_ok _ h_r).
    2:{ intros i Hi. destruct (Hentry i Hi)
          as (c & u & r_k & Hc & Hu & Hrk & _ & Hl).
        unfold_monad. unfold py_index, ew2. rewrite Hc, H4, Hrk.
        simpl. unfold scale. rewrite !length_map.
        apply Nat.eqb_eq in Hl. rewrite Hl.
        unfold h_r, mix. rewrite Hc, Hrk. reflexivity. }
    unfold_monad. reflexivity.
  - simpl. now rewrite H8.
  - intros k u r_k Hu Hrk.
    assert (Hk : (k < n)%nat).
    { rewrite Hlen. eapply lookup_lt_Some; eauto. }
    destruct (Hpost k u Hu) as (c & Hc & Hp). simpl in Hp.
    exists c. split; [|split].
    + unfold species_post in *. simpl. exact Hp.
    + rewrite lookup_map_seq by exact Hk. unfold h_r. now rewrite Hc, Hrk.
    + rewrite lookup_map_seq by exact Hk. unfold h_err. now rewrite Hc, Hrk.
Qed.

(** ** The mean of a canonical species after one update *)

Lemma mean_mix_canonical (a d : R) (ts rs : list R) (V : Z) :
  ts <> [] -> length ts = length rs -> Z.of_nat (length ts) = V ->
  let u := map Fin (map exp ts) in
  let z := fdiv (Fin d) (fdiv (np_sum u) (of_Z V)) in
  np_mean (mix (Fin a) (scale z u) (map Fin rs)) =
  Fin (a * d + (1 - a) * (Rsum rs / INR (length rs))).
Proof.
  intros Hne Hlen HV u z.
  pose proof (Rsum_exp_pos ts Hne) as Hpos.
  assert (HN : (0 < INR (length ts))%R).
  { apply lt_0_INR. destruct ts; [congruence|simpl; lia]. }
  assert (HVN : IZR V = INR (length ts)) by (now rewrite INR_IZR_INZ, HV).
  unfold z, u, np_sum, of_Z. rewrite fsum_fin.
  rewrite (fdiv_fin _ (IZR V)) by lra.
  rewrite fdiv_fin.
  2:{ rewrite HVN. apply Rgt_not_eq. apply Rdiv_lt_0_compat; lra. }
  unfold mix. rewrite !scale_fin. cbn [fsub fopp fadd].
  rewrite scale_fin, zip_fadd_fin.
  rewrite np_mean_fin.
  2:{ destruct ts, rs; simpl in *; congruence. }
  f_equal. rewrite length_zip_with, !length_map, <- Hlen, Nat.min_id.
  rewrite Rsum_zip_plus by (rewrite !length_map; exact Hlen).
  rewrite !Rsum_scale, HVN. field. split; lra.
Qed.

Lemma temp_fin (m v : list fl) :
  Forall is_fin m -> Forall is_fin v -> length m = length v ->
  exists ts, np_exp (zip_with fsub m v) = map Fin (map exp ts) /\
             length ts = length m.
Proof.
  intros Hm Hv Hlen.
  apply all_fin_inv in Hm as [ms ->]. apply all_fin_inv in Hv as [vs ->].
  rewrite zip_fsub_fin, np_exp_fin. eexists. split; [reflexivity|].
  rewrite length_zip_with, !length_map in *. lia.
Qed.

(** One update of a canonical species [i] in a state of finite numbers:
    the spatial mean of the new profile is the damped combination of the
    configured density and the mean of the old profile. *)
Lemma update_canonical_mean (a d : R) (s : LdftModel) (i : nat) (V : Z)
    (rs : list R) :
  shapes_ok s -> volume (_size s) = Ok V -> (0 < V)%Z ->
  Forall (fun m => Forall is_fin m /\ Z.of_nat (length m) = V)
    (cal_mu_ex s) ->
  Forall (Forall is_fin) (_v_ext s) ->
  Forall2 (fun m r_k : list fl => length m = length r_k)
    (cal_mu_ex s) (_r s) ->
  (forall k, (k < length (_mu_fix s))%nat -> species_ok s k) ->
  _mu_fix s !! i = Some false ->
  _dens s !! i = Some (Some (Fin d)) ->
  _r s !! i = Some (map Fin rs) ->
  exists s' res x,
    _make_picard_update (Fin a) s = (Ok (Some res), s') /\
    _r s' !! i = Some x /\
    _dens s' !! i = Some (Some (Fin d)) /\
    np_mean x = Fin (a * d + (1 - a) * (Rsum rs / INR (length rs))).
Proof.
  intros Hshape HV HVpos Hmu Hvext Hmr Hok Hfix Hd Hri.
  pose proof Hshape as (Hl1 & Hl2 & Hsh & _).
  (* every array of [temp] is finite and has the size of its profile *)
  assert (Htemp : forall k u, temp_arrays s !! k = Some u ->
            exists m ts, cal_mu_ex s !! k = Some m /\
              u = map Fin (map exp ts) /\ length ts = length m).
  { intros k u Hu. unfold temp_arrays in Hu.
    apply lookup_zip_with_Some in Hu as (m & v & -> & Hm & Hv).
    exists m.
    destruct (temp_fin m v) as (ts & Hts & Hlen).
    - eapply Forall_lookup_1 in Hmu; eauto. apply Hmu.
    - eapply Forall_lookup_1 in Hvext; eauto.
    - apply (Forall2_lookup_lr _ _ _ _ _ _ Hsh Hm Hv).
    - exists ts. auto. }
  destruct (update_success (Fin a) s Hshape) as (s' & V' & r & error & Hrun
    & HV' & Hr & _ & Hspec).
  { intros k u Hu. destruct (Htemp k u Hu) as (m & ts & _ & -> & _).
    split; [apply any_isnan_fin|]. apply Hok.
    apply lookup_lt_Some in Hu. unfold temp_arrays in Hu.
    rewrite length_zip_with in Hu. lia. }
  { apply Forall2_same_length_lookup_2.
    - unfold temp_arrays. rewrite length_zip_with.
      pose proof (Forall2_length _ _ _ Hmr). lia.
    - intros k u r_k Hu Hrk.
      destruct (Htemp k u Hu) as (m & ts & Hm & -> & Hlen).
      rewrite !length_map, Hlen.
      apply (Forall2_lookup_lr _ _ _ _ _ _ Hmr Hm Hrk). }
  rewrite HV in HV'. injection HV' as <-.
  destruct (lookup_lt_is_Some_2 (temp_arrays s) i) as [u Hu].
  { unfold temp_arrays. rewrite length_zip_with.
    apply lookup_lt_Some in Hfix. lia. }
  destruct (Htemp i u Hu) as (m & ts & Hm & -> & Hlen).
  destruct (Hspec i _ _ Hu Hri) as (c & Hpost & Hrk & _).
  unfold species_post in Hpost. rewrite Hfix in Hpost.
  destruct Hpost as (d' & Hd' & -> & _ & Hdens).
  rewrite Hd in Hd'. injection Hd' as <-.
  exists s', (r, error). eexists.
  split; [exact Hrun|]. split; [rewrite Hr; exact Hrk|].
  split; [now rewrite Hdens|].
  pose proof (Forall2_lookup_lr _ _ _ _ _ _ Hmr Hm Hri) as Hlmr.
  simpl in Hlmr. rewrite length_map in Hlmr.
  pose proof (Forall_lookup_1 _ _ _ _ Hmu Hm) as [_ HmV].
  apply mean_mix_canonical.
  - destruct ts; [simpl in *; lia|discriminate].
  - lia.
  - lia.
Qed.

(** C2 (amended): in a state of finite numbers on a lattice of [V > 0]
    sites, one call of [_make_picard_update] leaves a canonical species [i]
    with a profile whose spatial mean is
    [alpha * _dens[i] + (1 - alpha) * mean(old _r[i])]; it is [_dens[i]]
    for every [alpha] when the starting profile has the mean [_dens[i]]. *)
Theorem C2_canonical_mean (a d : R) (s : LdftModel) (i : nat) (V : Z)
    (rs : list R) :
  shapes_ok s -> volume (_size s) = Ok V -> (0 < V)%Z ->
  Forall (fun m => Forall is_fin m /\ Z.of_nat (length m) = V)
    (cal_mu_ex s) ->
  Forall (Forall is_fin) (_v_ext s) ->
  Forall2 (fun m r_k : list fl => length m = length r_k)
    (cal_mu_ex s) (_r s) ->
  (forall k, (k < length (_mu_fix s))%nat -> species_ok s k) ->
  _mu_fix s !! i = Some false ->
  _dens s !! i = Some (Some (Fin d)) ->
  _r s !! i = Some (map Fin rs) ->
  exists s' res x,
    _make_picard_update (Fin a) s = (Ok (Some res), s') /\
    _r s' !! i = Some x /\
    _dens s' !! i = Some (Some (Fin d)) /\
    np_mean x = Fin (a * d + (1 - a) * (Rsum rs / INR (length rs))) /\
    (np_mean (map Fin rs) = Fin d -> np_mean x = Fin d).
Proof.
  intros Hshape HV HVpos Hmu Hvext Hmr Hok Hfix Hd Hri.
  destruct (update_canonical_mean a d s i V rs Hshape HV HVpos Hmu Hvext
              Hmr Hok Hfix Hd Hri) as (s' & res & x & Hrun & Hx & Hd' & Hmean).
  exists s', res, x. repeat (split; [assumption|]).
  intros Hold. rewrite Hmean. f_equal.
  assert (Hne : rs <> []).
  { intros ->. unfold np_mean in Hold. simpl in Hold.
    destruct (Req_dec_T 0 0) as [_|Hc]; [|lra].
    unfold inf_signed in Hold.
    destruct (Req_dec_T 0 0) as [_|Hc]; [discriminate|lra]. }
  rewrite np_mean_fin in Hold by exact Hne. injection Hold as ->. lra.
Qed.

(** ** The semi-grand potential *)

Lemma semi_Om_loop_spec (s : LdftModel) (idxs : list nat) :
  (forall i, In i idxs -> (i < length (_mu_fix s))%nat) ->
  (forall i, _mu_fix s !! i = Some true ->
     exists m r_i, _mu s !! i = Some (Some m) /\ _r s !! i = Some r_i) ->
  forall acc,
    semi_Om_loop idxs acc s =
    (Ok (fsub acc (fsum (omap (gc_term s) idxs))), s).
Proof.
  intros Hidx Hgc. induction idxs as [|i rest IH]; intros acc.
  - simpl. unfold ret. f_equal. f_equal. unfold fsum. simpl.
    symmetry. apply fsub_0_r.
  - cbn [semi_Om_loop]. unfold bind at 1. unfold get at 1.
    unfold bind at 1. unfold lift at 1. unfold py_index.
    destruct (lookup_lt_is_Some_2 (_mu_fix s) i) as [b Hb].
    { apply Hidx. now left. }
    rewrite Hb. unfold bind at 1.
    cbn [omap list_omap]. unfold gc_term at 1. rewrite Hb.
    destruct b.
    + destruct (Hgc i Hb) as (m & r_i & Hm & Hr).
      unfold_monad. unfold py_index. rewrite Hm, Hr.
      rewrite IH by (intros j Hj; apply Hidx; now right).
      f_equal. f_equal. rewrite fsum_cons. apply fsub_fsub.
    + unfold ret at 1.
      rewrite IH by (intros j Hj; apply Hidx; now right).
      f_equal. f_equal. now rewrite fsub_0_r.
Qed.

(** C8: [cal_semi_Om] returns the free energy [cal_F] minus the sum, over
    exactly the species with [_mu_fix[i]] true, of [_mu[i]] times the
    lattice sum of [_r[i]]; a canonical species contributes nothing, and
    the state is not changed. *)
Theorem C8_semi_grand_potential (s : LdftModel) :
  (forall i, _mu_fix s !! i = Some true ->
     exists m r_i, _mu s !! i = Some (Some m) /\ _r s !! i = Some r_i) ->
  cal_semi_Om s = (Ok (semi_Om_spec s), s).
Proof.
  intros Hgc. unfold cal_semi_Om, semi_Om_spec.
  unfold bind at 1. unfold get at 1.
  apply semi_Om_loop_spec; [|exact Hgc].
  intros i Hi. apply in_seq in Hi. lia.
Qed.

(** ** The history invariant *)

Lemma sorted_snoc (h : list Z) (c : Z) :
  StronglySorted Z.lt h ->
  (forall l, last h = Some l -> (l < c)%Z) ->
  StronglySorted Z.lt (h ++ [c]).
Proof.
  intros Hs Hl. apply StronglySorted_app_2; [|exact Hs|repeat constructor].
  intros x1 x2 Hx1 Hx2. apply list_elem_of_singleton in Hx2. subst x2.
  destruct (last h) as [l|] eqn:El.
  - specialize (Hl l eq_refl). apply last_Some in El as [h' ->].
    apply elem_of_app in Hx1 as [Hx1|Hx1].
    + pose proof (StronglySorted_app_1_elem_of _ _ _ x1 l Hs Hx1
        ltac:(apply list_elem_of_singleton; reflexivity)).
      lia.
    + apply list_elem_of_singleton in Hx1. lia.
  - apply last_None in El. subst h. inversion Hx1.
Qed.

Lemma append_hist_inv (s : LdftModel) :
  StronglySorted Z.lt (_it_hist s) ->
  (forall l, last (_it_hist s) = Some l -> (l < _it_counter s)%Z) ->
  hist_inv (snd (_append_hist s)).
Proof.
  intros Hs Hl. unfold _append_hist. unfold_monad. simpl. split; simpl.
  - apply sorted_snoc; assumption.
  - intros l. rewrite last_snoc. intros [= <-]. lia.
Qed.

(** [set_r] establishes the invariant. *)
Lemma set_r_hist_inv (r : list array) (s : LdftModel) :
  hist_inv (snd (set_r r s)).
Proof.
  unfold set_r. unfold_monad. simpl. split; simpl.
  - repeat constructor.
  - intros l [= <-]. lia.
Qed.

(** One iteration of the driver's loop and all that follow keep the
    invariant, however the loop ends. *)
Lemma picard_loop_hist_inv (alpha : fl) (cm : checkp_method)
    (min_err : option fl) (n : nat) :
  forall checkp s, hist_inv s ->
    hist_inv (snd (picard_loop alpha cm min_err n checkp s)).
Proof.
  induction n as [|n IH]; intros checkp s Hinv; [exact Hinv|].
  destruct Hinv as [Hs Hl]. cbn [picard_loop]. unfold bind at 1.
  destruct (_make_picard_update alpha s) as [res s1] eqn:Eu.
  apply make_picard_update_frame in Eu as [(_ & _ & _ & _ & _ & Hh & _) Hc].
  destruct res as [[[r error]|]|e]; simpl.
  2:{ destruct Hc as [Hc _]. split; rewrite ?Hh, ?Hc; assumption. }
  2:{ destruct Hc as [Hc _]. split; rewrite ?Hh, ?Hc; assumption. }
  destruct Hc as [Hc _].
  unfold bind at 1. unfold modify at 1.
  unfold bind at 1. unfold get at 1.
  set (s2 := with_err_hist (_err_hist s1 ++ [error]) s1).
  assert (Hs2 : StronglySorted Z.lt (_it_hist s2)) by (simpl; now rewrite Hh).
  assert (Hl2 : forall l, last (_it_hist s2) = Some l ->
                  (l < _it_counter s2)%Z).
  { simpl. rewrite Hh, Hc. intros l Hlast. specialize (Hl l Hlast). lia. }
  clearbody s2. clear Hs Hl Hh Hc s s1.
  unfold bind at 1.
  destruct (_it_counter s2 - checkp =? 0)%Z.
  - unfold bind at 1. unfold lift at 1.
    destruct (py_last (_err_hist s2)) as [e|e]; simpl.
    2:{ split; [exact Hs2|]. intros l Hlast. specialize (Hl2 l Hlast). lia. }
    unfold bind at 1. unfold lift at 1.
    destruct (py_index e 0) as [e0|e0']; simpl.
    2:{ split; [exact Hs2|]. intros l Hlast. specialize (Hl2 l Hlast). lia. }
    unfold bind at 1. unfold print at 1. unfold modify at 1.
    unfold bind at 1.
    set (s3 := with_stdout _ s2).
    pose proof (append_hist_inv s3 Hs2 Hl2) as Hinv4.
    destruct (_append_hist s3) as [[[]|e4] s4] eqn:E4; simpl in Hinv4.
    2:{ unfold _append_hist in E4. unfold_monad. discriminate. }
    rewrite (pure_run (_set_new_checkp cm) s4) by apply pure_set_new_checkp.
    destruct (fst (_set_new_checkp cm s4)) as [c|e5]; simpl; [|exact Hinv4].
    destruct (below_min_err min_err error); [exact Hinv4|].
    apply IH. exact Hinv4.
  - unfold ret at 1.
    assert (Hinv2 : hist_inv s2).
    { split; [exact Hs2|]. intros l Hlast. specialize (Hl2 l Hlast). lia. }
    destruct (below_min_err min_err error); [exact Hinv2|].
    apply IH. exact Hinv2.
Qed.


(** A call that returns normally ends with the counter as the last entry
    of the history, whatever the history was. *)
Lemma make_picard_iteration_last (alpha : fl) (it_steps : nat)
    (cm : checkp_method) (min_err : option fl) (s s' : LdftModel) :
  make_picard_iteration alpha it_steps cm min_err s = (Ok tt, s') ->
  last (_it_hist s') = Some (_it_counter s').
Proof.
  unfold make_picard_iteration. unfold bind at 1.
  destruct (_set_new_checkp cm s) as [[checkp|e] s0]; [|discriminate].
  unfold bind at 1.
  destruct (picard_loop alpha cm min_err it_steps checkp s0)
    as [[[]|e] s1]; [|discriminate].
  unfold bind at 1. unfold get at 1.
  unfold bind at 1. unfold lift at 1. unfold py_last.
  destruct (last (_it_hist s1)) as [l|] eqn:El; [|discriminate].
  destruct (Z.eqb_spec (_it_counter s1) l) as [Heq|Hne]; simpl.
  - unfold ret. intros [= <-]. now rewrite El, Heq.
  - unfold _append_hist, modify. intros [= <-]. simpl. apply last_snoc.
Qed.

(** A call that starts with the history invariant and returns normally
    ends with it. *)
Lemma make_picard_iteration_hist_inv (alpha : fl) (it_steps : nat)
    (cm : checkp_method) (min_err : option fl) (s s' : LdftModel) :
  hist_inv s ->
  make_picard_iteration alpha it_steps cm min_err s = (Ok tt, s') ->
  last (_it_hist s') = Some (_it_counter s') /\
  StronglySorted Z.lt (_it_hist s') /\
  hist_inv s'.
Proof.
  intros Hinv. unfold make_picard_iteration.
  unfold bind at 1.
  rewrite (pure_run (_set_new_checkp cm) s) by apply pure_set_new_checkp.
  destruct (fst (_set_new_checkp cm s)) as [checkp|e]; [|discriminate].
  unfold bind at 1.
  pose proof (picard_loop_hist_inv alpha cm min_err it_steps checkp s Hinv)
    as Hinv1.
  destruct (picard_loop alpha cm min_err it_steps checkp s) as [[[]|e] s1];
    [|discriminate].
  simpl in Hinv1. destruct Hinv1 as [Hs1 Hl1].
  unfold bind at 1. unfold get at 1.
  unfold bind at 1. unfold lift at 1. unfold py_last.
  destruct (last (_it_hist s1)) as [l|] eqn:El; [|discriminate].
  specialize (Hl1 l eq_refl).
  destruct (Z.eqb_spec (_it_counter s1) l) as [Heq|Hne]; simpl.
  - unfold ret. intros [= <-]. rewrite El, Heq.
    repeat split; try assumption. rewrite El. intros l' [= <-]. lia.
  - intros Hrun.
    assert (Hinv' : hist_inv (snd (_append_hist s1))).
    { apply append_hist_inv; [exact Hs1|].
      rewrite El. intros l' [= <-]. lia. }
    rewrite Hrun in Hinv'. simpl in Hinv'.
    unfold _append_hist, modify in Hrun. injection Hrun as <-.
    simpl in *. rewrite last_snoc. split; [reflexivity|].
    split; [apply Hinv'|exact Hinv'].
Qed.



(** C1 (amended): when the functional yields a NaN for some species on the
    first update and the species before it update without an exception,
    the update prints 'divergent!!!' and returns [None], and
    [make_picard_iteration] ends in the [TypeError] of unpacking it; the
    profile [_r], the counter and the histories are what they were before
    the call. *)
Theorem C1_nan_aborts_iteration (alpha : fl) (n : nat) (cm : checkp_method)
    (min_err : option fl) (s : LdftModel) (i : nat) (m : list fl)
    (checkp : Z) :
  shapes_ok s ->
  cal_mu_ex s !! i = Some m -> NaN ∈ m ->
  (forall j t, (j < i)%nat -> temp_arrays s !! j = Some t ->
     any_isnan t = false /\ species_ok s j) ->
  fst (_set_new_checkp cm s) = Ok checkp ->
  exists s',
    make_picard_iteration alpha (S n) cm min_err s = (Raise TypeError, s') /\
    stdout s' = stdout s ++ [OutDivergent] /\
    _r s' = _r s /\ _it_counter s' = _it_counter s /\
    _it_hist s' = _it_hist s /\ _r_hist s' = _r_hist s /\
    _err_hist s' = _err_hist s.
Proof.
  intros Hshape Hm Hnan Hbefore Hcp.
  destruct (first_nan s i m Hshape Hm Hnan Hbefore)
    as (pre & t & post & Htemp & Htn & Hlen & Hpre).
  destruct (update_divergent alpha s pre t post Hshape Htemp Hpre Htn)
    as (s' & V & Hrun & HV & Hf & Hout & _).
  exists s'. destruct Hf as (_ & _ & _ & Hr & Hrh & Heh & Hh & Hc & _).
  split; [|repeat split; assumption].
  unfold make_picard_iteration. unfold bind at 1.
  rewrite (pure_run (_set_new_checkp cm) s) by apply pure_set_new_checkp.
  rewrite Hcp. unfold bind at 1. cbn [picard_loop]. unfold bind at 1.
  rewrite Hrun. reflexivity.
Qed.

End EngineFacts.

Lemma shapes_ok_ideal (r : list fl) :
  length r = 2%nat -> @shapes_ok ideal_gas (with_r [r] model0).
Proof.
  intros Hr. repeat split; try reflexivity; [|discriminate].
  simpl. constructor; [|constructor]. rewrite length_map. exact Hr.
Qed.

Lemma species_ok_model0 (r : list (list fl)) (k : nat) :
  (k < 1)%nat -> species_ok (with_r r model0) k.
Proof.
  intros Hk. destruct k as [|k]; [|lia].
  split; [now eexists | simpl; lia].
Qed.

(** C2, as stated, fails: with the density 1/2 configured, the starting
    profile (1/4, 1/4) and [alpha = 1/2], the profile after one update has
    the mean 3/8. *)
Lemma C2_counterexample :
  _mu_fix model0 !! 0%nat = Some false /\
  _dens model0 !! 0%nat = Some (Some (Fin (1/2))) /\
  exists s' res x,
    @_make_picard_update ideal_gas (Fin (1/2)) model0 = (Ok (Some res), s') /\
    _r s' !! 0%nat = Some x /\
    _dens s' !! 0%nat = Some (Some (Fin (1/2))) /\
    np_mean x = Fin (3/8) /\ np_mean x <> Fin (1/2).
Proof.
  split; [reflexivity|]. split; [reflexivity|].
  destruct (@update_canonical_mean ideal_gas (1/2) (1/2) model0 0 2
              [1/4; 1/4]%R) as (s' & res & x & Hrun & Hx & Hd & Hmean).
  - apply (shapes_ok_ideal [Fin (1/4); Fin (1/4)]). reflexivity.
  - reflexivity.
  - lia.
  - repeat constructor.
  - repeat constructor.
  - repeat constructor.
  - apply (species_ok_model0 (_r model0)).
  - reflexivity.
  - reflexivity.
  - reflexivity.
  - exists s', res, x. repeat (split; [assumption|]).
    assert (Hval : np_mean x = Fin (3/8)).
    { rewrite Hmean. f_equal. simpl. lra. }
    split; [exact Hval|]. rewrite Hval. intros [= H]. lra.
Qed.

Lemma C2_canonical_mean_witness :
  exists s' res x,
    @_make_picard_update ideal_gas (Fin (1/3)) model1 = (Ok (Some res), s') /\
    _r s' !! 0%nat = Some x /\
    _dens s' !! 0%nat = Some (Some (Fin (1/2))) /\
    np_mean x =
      Fin (1/3 * (1/2) +
           (1 - 1/3) * (Rsum [1/4; 3/4]%R / INR (length [1/4; 3/4]%R))) /\
    (np_mean (map Fin [1/4; 3/4]%R) = Fin (1/2) -> np_mean x = Fin (1/2)).
Proof.
  apply (@C2_canonical_mean ideal_gas (1/3) (1/2) model1 0 2 [1/4; 3/4]%R).
  - apply (shapes_ok_ideal [Fin (1/4); Fin (3/4)]). reflexivity.
  - reflexivity.
  - lia.
  - repeat constructor.
  - repeat constructor.
  - repeat constructor.
  - apply (species_ok_model0 (_r model1)).
  - reflexivity.
  - reflexivity.
  - reflexivity.
Defined.

(** The starting profile of that run has the configured mean, so the
    updated profile has it too. *)
Lemma model1_mean_is_dens :
  np_mean (map Fin [1/4; 3/4]%R) = Fin (1/2).
Proof. rewrite np_mean_fin by discriminate. f_equal. simpl. lra. Qed.

(** C1, as stated, fails: the exception is a [TypeError], not a
    [DivergenceError]. *)
Lemma C1_counterexample :
  fst (@make_picard_iteration nan_first (Fin (1/2)) 1 (CpInt 1) None model0)
    = Raise TypeError /\
  fst (@make_picard_iteration nan_first (Fin (1/2)) 1 (CpInt 1) None model0)
    <> Raise DivergenceError.
Proof. split; [vm_compute; reflexivity | vm_compute; discriminate]. Qed.

Lemma shapes_ok_model2 : @shapes_ok nan_second model2.
Proof.
  repeat split; try reflexivity; [repeat constructor | discriminate].
Qed.

Lemma before_ok_model2 (j : nat) (t : list fl) :
  (j < 1)%nat -> @temp_arrays nan_second model2 !! j = Some t ->
  any_isnan t = false /\ species_ok model2 j.
Proof.
  intros Hj. destruct j as [|j]; [|lia]. intros [= <-].
  split; [reflexivity|]. split; [now eexists | simpl; lia].
Qed.

Lemma C1_nan_aborts_iteration_witness :
  exists s',
    @make_picard_iteration nan_second (Fin (1/2)) 1 (CpInt 1) None model2
      = (Raise TypeError, s') /\
    stdout s' = stdout model2 ++ [OutDivergent] /\
    _r s' = _r model2 /\ _it_counter s' = _it_counter model2 /\
    _it_hist s' = _it_hist model2 /\ _r_hist s' = _r_hist model2 /\
    _err_hist s' = _err_hist model2.
Proof.
  apply (@C1_nan_aborts_iteration nan_second (Fin (1/2)) 0 (CpInt 1) None
           model2 1 [NaN; Fin 0] 1%Z).
  - exact shapes_ok_model2.
  - reflexivity.
  - apply list_elem_of_here.
  - exact before_ok_model2.
  - reflexivity.
Defined.

Lemma C10_abort_not_atomic_witness :
  exists s' V,
    @_make_picard_update nan_second (Fin (1/2)) model2 = (Ok None, s') /\
    volume (_size model2) = Ok V /\
    _r s' = _r model2 /\ _it_counter s' = _it_counter model2 /\
    forall j t, (j < 1)%nat -> @temp_arrays nan_second model2 !! j = Some t ->
      match _mu_fix model2 !! j with
      | Some true =>
          exists mu_j, _mu model2 !! j = Some (Some mu_j) /\
            _dens s' !! j = Some (Some (np_mean (scale (fexp mu_j) t)))
      | Some false =>
          exists d_j, _dens model2 !! j = Some (Some d_j) /\
            _mu s' !! j =
              Some (Some (flog (fdiv d_j (fdiv (np_sum t) (of_Z V)))))
      | None => False
      end.
Proof.
  apply (@C10_abort_not_atomic nan_second (Fin (1/2)) model2 1 [NaN; Fin 0]).
  - exact shapes_ok_model2.
  - reflexivity.
  - apply list_elem_of_here.
  - exact before_ok_model2.
Defined.

(** In that run the chemical potential of the first species, unset before
    the update, holds a number after the aborted update. *)
Lemma abort_overwrites_mu :
  _mu model2 !! 0%nat = Some None /\
  fst (@_make_picard_update nan_second (Fin (1/2)) model2) = Ok None /\
  exists x,
    _mu (snd (@_make_picard_update nan_second (Fin (1/2)) model2)) !! 0%nat
      = Some (Some x).
Proof.
  split; [reflexivity|]. split; [vm_compute; reflexivity|].
  eexists. vm_compute. reflexivity.
Qed.


(** ** The boundary roll *)

Lemma nth_map_seq {B} (F : nat -> B) (n i : nat) (d : B) :
  (i < n)%nat -> nth i (map F (seq 0 n)) d = F i.
Proof.
  intros Hi. rewrite (nth_indep _ d (F 0%nat))
    by (rewrite length_map, length_seq; exact Hi).
  rewrite map_nth, seq_nth by exact Hi. reflexivity.
Qed.

(** *** Positions *)

Lemma ix_upd_same (ax : axis3) (v : nat) (p : idx) : ix ax (upd ax v p) = v.
Proof. destruct p as [[i j] k], ax; reflexivity. Qed.

Lemma ix_upd_other (ax ax' : axis3) (v : nat) (p : idx) :
  ax <> ax' -> ix ax' (upd ax v p) = ix ax' p.
Proof. destruct p as [[i j] k], ax, ax'; congruence || reflexivity. Qed.

Lemma upd_ix (ax : axis3) (p : idx) : upd ax (ix ax p) p = p.
Proof. destruct p as [[i j] k], ax; reflexivity. Qed.

Lemma upd_upd (ax : axis3) (v w : nat) (p : idx) :
  upd ax v (upd ax w p) = upd ax v p.
Proof. destruct p as [[i j] k], ax; reflexivity. Qed.

Lemma upd_comm (ax ax' : axis3) (v w : nat) (p : idx) :
  ax <> ax' -> upd ax v (upd ax' w p) = upd ax' w (upd ax v p).
Proof. destruct p as [[i j] k], ax, ax'; congruence || reflexivity. Qed.

Lemma inrange_upd (ax : axis3) (v : nat) (sh p : idx) :
  inrange sh p -> (v < ix ax sh)%nat -> inrange sh (upd ax v p).
Proof.
  destruct p as [[i j] k], sh as [[l0 l1] l2], ax; unfold inrange; simpl;
    lia.
Qed.

Lemma inrange_upd_both (ax : axis3) (v n : nat) (sh p : idx) :
  inrange sh p -> (v < n)%nat -> inrange (upd ax n sh) (upd ax v p).
Proof.
  destruct p as [[i j] k], sh as [[l0 l1] l2], ax; unfold inrange; simpl;
    lia.
Qed.

Lemma inrange_ix (ax : axis3) (sh p : idx) :
  inrange sh p -> (ix ax p < ix ax sh)%nat.
Proof.
  destruct p as [[i j] k], sh as [[l0 l1] l2], ax; unfold inrange; simpl;
    lia.
Qed.

Lemma pos_shape_upd (ax : axis3) (n : nat) (sh : idx) :
  pos_shape sh -> (0 < n)%nat -> pos_shape (upd ax n sh).
Proof.
  destruct sh as [[l0 l1] l2], ax; unfold pos_shape; simpl; lia.
Qed.

(** *** Wrapped positions *)

Lemma wrap_lt (i : nat) (steps : Z) (n : nat) :
  (0 < n)%nat -> (wrap i steps n < n)%nat.
Proof.
  intros Hn. unfold wrap.
  pose proof (Z.mod_pos_bound (Z.of_nat i - steps) (Z.of_nat n) ltac:(lia)).
  lia.
Qed.

Lemma wrap_wrap (i : nat) (s t : Z) (n : nat) :
  (0 < n)%nat ->
  wrap (wrap i s n) t n = wrap i (s + t) n.
Proof.
  intros Hn. unfold wrap.
  pose proof (Z.mod_pos_bound (Z.of_nat i - s) (Z.of_nat n) ltac:(lia)).
  rewrite Z2Nat.id by lia. f_equal.
  rewrite Zminus_mod_idemp_l. f_equal. lia.
Qed.

Lemma wrap_multiple (i : nat) (s : Z) (n : nat) :
  (i < n)%nat -> (s mod Z.of_nat n = 0)%Z -> wrap i s n = i.
Proof.
  intros Hi Hs. unfold wrap.
  rewrite Zminus_mod, Hs, Z.sub_0_r, Z.mod_mod by lia.
  rewrite Z.mod_small by lia. apply Nat2Z.id.
Qed.

(** A roll by [steps] and a roll by [- steps] read the position they
    started from. *)
Lemma wrap_inverse (i : nat) (s : Z) (n : nat) :
  (i < n)%nat -> wrap (wrap i (- s) n) s n = i.
Proof.
  intros Hi. rewrite wrap_wrap by lia.
  apply wrap_multiple; [exact Hi|].
  replace (- s + s)%Z with 0%Z by lia. apply Z.mod_0_l. lia.
Qed.

(** Two rolls by half the extent read the position they started from. *)
Lemma wrap_half_twice (i : nat) (shift : Z) (m : nat) :
  (i < m)%nat -> (2 * shift = Z.of_nat m)%Z ->
  wrap (wrap i shift m) shift m = i.
Proof.
  intros Hi Hm. rewrite wrap_wrap by lia.
  apply wrap_multiple; [exact Hi|].
  replace (shift + shift)%Z with (1 * Z.of_nat m)%Z by lia.
  apply Z_mod_mult.
Qed.

Lemma mod_add_small (i s n : Z) :
  (0 <= i < n)%Z -> (0 <= s <= n)%Z ->
  ((i + s) mod n = if (i + s <? n)%Z then i + s else i + s - n)%Z.
Proof.
  intros Hi Hs. destruct (Z.ltb_spec (i + s) n) as [H|H].
  - apply Z.mod_small. lia.
  - transitivity ((i + s - n) mod n)%Z; [|apply Z.mod_small; lia].
    rewrite <- (Z_mod_plus_full (i + s - n) 1 n). f_equal. lia.
Qed.

Lemma mod_sub_small (i t n : Z) :
  (0 <= i < n)%Z -> (0 <= t <= n)%Z ->
  ((i - t) mod n = if (i - t <? 0)%Z then i - t + n else i - t)%Z.
Proof.
  intros Hi Ht. destruct (Z.ltb_spec (i - t) 0) as [H|H].
  - transitivity ((i - t + n) mod n)%Z; [|apply Z.mod_small; lia].
    rewrite <- (Z_mod_plus_full (i - t + n) (-1) n). f_equal. lia.
  - apply Z.mod_small. lia.
Qed.

(** The layers shifted before the roll by [steps] are, after that roll,
    the layers shifted before the roll by [- steps]. *)
Lemma in_tilt_inverse (n : nat) (s : Z) (i : nat) :
  (i < n)%nat -> in_tilt n (- s) (wrap i (- s) n) = in_tilt n s i.
Proof.
  intros Hi. unfold in_tilt, py_bound, wrap.
  replace (Z.of_nat i - - s)%Z with (Z.of_nat i + s)%Z by lia.
  replace (- - s)%Z with s by lia.
  pose proof (Z.mod_pos_bound (Z.of_nat i + s) (Z.of_nat n) ltac:(lia)) as Hm.
  destruct (Z.gtb_spec s 0) as [Hs|Hs].
  - (* s > 0 *)
    destruct (Z.gtb_spec (- s) 0) as [Hs'|_]; [lia|].
    destruct (Z.ltb_spec (- s) 0) as [_|Hs']; [|lia].
    destruct (Z.ltb_spec 0 0) as [H0|_]; [lia|].
    destruct (Z.ltb_spec s 0) as [Hs'|_]; [lia|].
    destruct (Z.ltb_spec (Z.of_nat n) 0) as [Hn'|_]; [lia|].
    destruct (Z_lt_dec s (Z.of_nat n)) as [Hsn|Hsn].
    + rewrite mod_add_small in * by lia.
      destruct (Z.ltb_spec (Z.of_nat i + s) (Z.of_nat n));
        apply eq_true_iff_eq;
        rewrite !andb_true_iff, !Nat.leb_le, !Nat.ltb_lt; lia.
    + apply eq_true_iff_eq.
      rewrite !andb_true_iff, !Nat.leb_le, !Nat.ltb_lt. lia.
  - (* s <= 0 *)
    destruct (Z.ltb_spec 0 0) as [H0|_]; [lia|].
    destruct (Z.ltb_spec (Z.of_nat n) 0) as [Hn'|_]; [lia|].
    destruct (Z.ltb_spec (- s) 0) as [Hs'|_]; [lia|].
    destruct (Z.gtb_spec (- s) 0) as [Hs'|Hs'].
    + destruct (Z.ltb_spec s 0) as [_|Hs'']; [|lia].
      replace (Z.of_nat i + s)%Z with (Z.of_nat i - (- s))%Z in * by lia.
      destruct (Z_lt_dec (- s) (Z.of_nat n)) as [Hsn|Hsn].
      * rewrite mod_sub_small in * by lia.
        destruct (Z.ltb_spec (Z.of_nat i - - s) 0);
          apply eq_true_iff_eq;
          rewrite !andb_true_iff, !Nat.leb_le, !Nat.ltb_lt; lia.
      * apply eq_true_iff_eq.
        rewrite !andb_true_iff, !Nat.leb_le, !Nat.ltb_lt. lia.
    + assert (s = 0%Z) by lia. subst s. simpl.
      destruct (Z.ltb_spec 0 0) as [H0|_]; [lia|].
      apply eq_true_iff_eq.
      rewrite !andb_true_iff, !Nat.leb_le, !Nat.ltb_lt. lia.
Qed.

Section RollFacts.
Context {A : Type} (dflt : A).

Local Abbreviation tilt3 := (tilt3 dflt).
Local Abbreviation tilted_roll3 := (tilted_roll3 dflt).

Lemma get3_tab3 (sh : idx) (f : idx -> A) (p : idx) :
  inrange sh p -> get3 dflt (tab3 sh f) p = f p.
Proof.
  destruct sh as [[l0 l1] l2], p as [[i j] k].
  intros (H0 & H1 & H2). simpl in *.
  rewrite nth_map_seq by exact H0.
  rewrite nth_map_seq by exact H1.
  rewrite nth_map_seq by exact H2. reflexivity.
Qed.

Lemma wf3_tab3 (sh : idx) (f : idx -> A) : wf3 sh (tab3 sh f).
Proof.
  destruct sh as [[l0 l1] l2]. simpl. split.
  - now rewrite length_map, length_seq.
  - apply Forall_forall. intros row Hrow.
    apply list_elem_of_In, in_map_iff in Hrow as (i & <- & _). split.
    + now rewrite length_map, length_seq.
    + apply Forall_forall. intros c Hc.
      apply list_elem_of_In, in_map_iff in Hc as (j & <- & _).
      now rewrite length_map, length_seq.
Qed.

Lemma shape3_wf (sh : idx) (a : arr3 A) :
  wf3 sh a -> pos_shape sh -> shape3 a = sh.
Proof.
  destruct sh as [[l0 l1] l2]. intros [Hl Hall] (H0 & H1 & _).
  simpl in *. unfold shape3.
  destruct a as [|row a]; [simpl in Hl; lia|].
  apply Forall_cons in Hall as [[Hrow Hcs] _]. simpl.
  destruct row as [|c row]; [simpl in Hrow; lia|].
  apply Forall_cons in Hcs as [Hc _]. simpl in *. congruence.
Qed.

Lemma shape3_tab3 (sh : idx) (f : idx -> A) :
  pos_shape sh -> shape3 (tab3 sh f) = sh.
Proof. intros Hpos. apply shape3_wf; [apply wf3_tab3|exact Hpos]. Qed.

(** Two arrays of one shape with the same elements are equal. *)
Lemma arr3_ext (sh : idx) (a b : arr3 A) :
  wf3 sh a -> wf3 sh b ->
  (forall p, inrange sh p -> get3 dflt a p = get3 dflt b p) ->
  a = b.
Proof.
  destruct sh as [[l0 l1] l2]. intros [Hla Ha] [Hlb Hb] Hget.
  apply (nth_ext _ _ [] []); [congruence|]. intros i Hi.
  pose proof (proj1 (Forall_nth _ [] a) Ha i Hi) as [Hra Hca].
  pose proof (proj1 (Forall_nth _ [] b) Hb i ltac:(lia)) as [Hrb Hcb].
  apply (nth_ext _ _ [] []); [congruence|]. intros j Hj.
  pose proof (proj1 (Forall_nth _ [] _) Hca j Hj) as Hc1.
  pose proof (proj1 (Forall_nth _ [] _) Hcb j ltac:(lia)) as Hc2.
  apply (nth_ext _ _ dflt dflt); [congruence|]. intros k Hk.
  simpl in Hc1, Hc2. apply (Hget (i, j, k)). unfold inrange. simpl. lia.
Qed.


Lemma roll3_wf (sh : idx) (a : arr3 A) (steps : Z) (ax : axis3) :
  wf3 sh a -> pos_shape sh -> wf3 sh (roll3 dflt a steps ax).
Proof.
  intros Hwf Hpos. unfold roll3. rewrite (shape3_wf sh a Hwf Hpos).
  apply wf3_tab3.
Qed.

Lemma roll3_get (sh : idx) (a : arr3 A) (steps : Z) (ax : axis3) (p : idx) :
  wf3 sh a -> pos_shape sh -> inrange sh p ->
  get3 dflt (roll3 dflt a steps ax) p =
  get3 dflt a (upd ax (wrap (ix ax p) steps (ix ax sh)) p).
Proof.
  intros Hwf Hpos Hp. unfold roll3. rewrite (shape3_wf sh a Hwf Hpos).
  now rewrite get3_tab3.
Qed.

(** A roll and the roll back give the array. *)
Lemma roll3_inverse (sh : idx) (a : arr3 A) (steps : Z) (ax : axis3) :
  wf3 sh a -> pos_shape sh ->
  roll3 dflt (roll3 dflt a steps ax) (- steps) ax = a.
Proof.
  intros Hwf Hpos. apply (arr3_ext sh); [|exact Hwf|].
  - apply roll3_wf; [apply roll3_wf|]; assumption.
  - intros p Hp.
    assert (Hn : (0 < ix ax sh)%nat).
    { destruct sh as [[l0 l1] l2], Hpos as (? & ? & ?), ax; simpl in *; lia. }
    rewrite (roll3_get sh) by (try apply roll3_wf; assumption).
    rewrite (roll3_get sh); [|assumption|assumption|].
    2:{ apply inrange_upd; [exact Hp|]. apply wrap_lt. exact Hn. }
    rewrite ix_upd_same, upd_upd, wrap_inverse by (now apply inrange_ix).
    now rewrite upd_ix.
Qed.

Lemma py_bound_le (n : nat) (b : Z) : (py_bound n b <= n)%nat.
Proof. unfold py_bound. destruct (Z.ltb_spec b 0); lia. Qed.

Lemma tilt3_wf (sh : idx) (a : arr3 A) ax start stop shift sax :
  wf3 sh a -> pos_shape sh -> wf3 sh (tilt3 a ax start stop shift sax).
Proof.
  intros Hwf Hpos. unfold tilt3, assign3.
  rewrite (shape3_wf sh a Hwf Hpos). apply wf3_tab3.
Qed.

Lemma tilt3_get (sh : idx) (a : arr3 A) ax start stop shift sax (p : idx) :
  wf3 sh a -> pos_shape sh -> ax <> sax -> inrange sh p ->
  get3 dflt (tilt3 a ax start stop shift sax) p =
  if (py_bound (ix ax sh) start <=? ix ax p)%nat &&
     (ix ax p <? py_bound (ix ax sh) stop)%nat
  then get3 dflt a (upd sax (wrap (ix sax p) shift (ix sax sh)) p)
  else get3 dflt a p.
Proof.
  intros Hwf Hpos Hax Hp. unfold tilt3, assign3.
  rewrite (shape3_wf sh a Hwf Hpos). rewrite get3_tab3 by exact Hp.
  set (lo := py_bound (ix ax sh) start).
  set (hi := py_bound (ix ax sh) stop).
  destruct (Nat.leb_spec lo (ix ax p)) as [Hlo|Hlo]; [|reflexivity].
  destruct (Nat.ltb_spec (ix ax p) hi) as [Hhi|Hhi]; [|reflexivity].
  simpl.
  assert (Hsax : (0 < ix sax sh)%nat).
  { destruct sh as [[l0 l1] l2], Hpos as (? & ? & ?), sax; simpl in *; lia. }
  set (sh' := upd ax (hi - lo) sh).
  assert (Hpos' : pos_shape sh') by (apply pos_shape_upd; [exact Hpos|lia]).
  assert (Hwf' : wf3 sh' (slice3 dflt a ax lo hi)).
  { unfold slice3. rewrite (shape3_wf sh a Hwf Hpos). apply wf3_tab3. }
  assert (Hq : inrange sh' (upd ax (ix ax p - lo) p)).
  { apply inrange_upd_both; [exact Hp|lia]. }
  rewrite (roll3_get sh') by assumption.
  rewrite (ix_upd_other ax sax) by exact Hax.
  unfold sh' at 1. rewrite (ix_upd_other ax sax) by exact Hax.
  unfold slice3. rewrite (shape3_wf sh a Hwf Hpos). fold sh'.
  rewrite get3_tab3.
  2:{ apply inrange_upd; [exact Hq|]. unfold sh'.
      rewrite (ix_upd_other ax sax) by exact Hax. apply wrap_lt, Hsax. }
  f_equal.
  rewrite (ix_upd_other sax ax) by congruence.
  rewrite ix_upd_same.
  rewrite (upd_comm ax sax) by exact Hax. rewrite upd_upd.
  rewrite (upd_comm sax ax) by congruence.
  replace (ix ax p - lo + lo)%nat with (ix ax p) by lia.
  rewrite (upd_comm ax sax) by exact Hax. now rewrite upd_ix.
Qed.

Lemma tilted_roll3_wf (sh : idx) (a : arr3 A) steps ra shift sax :
  wf3 sh a -> pos_shape sh -> wf3 sh (tilted_roll3 a steps ra shift sax).
Proof.
  intros Hwf Hpos. unfold tilted_roll3.
  apply roll3_wf; [|exact Hpos].
  destruct (steps >? 0)%Z; apply tilt3_wf; assumption.
Qed.

Lemma tilted_roll3_get (sh : idx) (a : arr3 A) steps ra shift sax (p : idx) :
  wf3 sh a -> pos_shape sh -> ra <> sax -> inrange sh p ->
  get3 dflt (tilted_roll3 a steps ra shift sax) p =
  let i := wrap (ix ra p) steps (ix ra sh) in
  if in_tilt (ix ra sh) steps i
  then get3 dflt a (upd sax (wrap (ix sax p) shift (ix sax sh)) (upd ra i p))
  else get3 dflt a (upd ra i p).
Proof.
  intros Hwf Hpos Hax Hp. unfold tilted_roll3.
  rewrite (shape3_wf sh a Hwf Hpos).
  assert (Hn : (0 < ix ra sh)%nat).
  { destruct sh as [[l0 l1] l2], Hpos as (? & ? & ?), ra; simpl in *; lia. }
  set (i := wrap (ix ra p) steps (ix ra sh)).
  assert (Hq : inrange sh (upd ra i p)).
  { apply inrange_upd; [exact Hp|]. apply wrap_lt, Hn. }
  rewrite (roll3_get sh); [|destruct (steps >? 0)%Z; now apply tilt3_wf
                           |exact Hpos|exact Hp].
  fold i. cbv zeta. unfold in_tilt.
  destruct (steps >? 0)%Z;
    rewrite (tilt3_get sh) by assumption;
    rewrite ix_upd_same, (ix_upd_other ra sax) by exact Hax; reflexivity.
Qed.

(** The tilted roll by [steps] and the one by [- steps] give the array:
    the layers that wrap around are shifted twice by half the extent of
    the shift axis. *)
Lemma tilted_roll3_inverse (sh : idx) (a : arr3 A) steps ra shift sax :
  wf3 sh a -> pos_shape sh -> ra <> sax ->
  (2 * shift = Z.of_nat (ix sax sh))%Z ->
  tilted_roll3 (tilted_roll3 a steps ra shift sax) (- steps) ra shift sax
  = a.
Proof.
  intros Hwf Hpos Hax Hshift. apply (arr3_ext sh); [|exact Hwf|].
  - apply tilted_roll3_wf; [apply tilted_roll3_wf|]; assumption.
  - intros p Hp.
    assert (Hn : (0 < ix ra sh)%nat).
    { destruct sh as [[l0 l1] l2], Hpos as (? & ? & ?), ra; simpl in *; lia. }
    assert (Hm : (0 < ix sax sh)%nat).
    { destruct sh as [[l0 l1] l2], Hpos as (? & ? & ?), sax; simpl in *; lia. }
    pose proof (inrange_ix ra sh p Hp) as Hi.
    pose proof (inrange_ix sax sh p Hp) as Hk.
    rewrite (tilted_roll3_get sh); [|now apply tilted_roll3_wf|assumption..].
    cbv zeta. rewrite in_tilt_inverse by exact Hi.
    set (i' := wrap (ix ra p) (- steps) (ix ra sh)).
    set (w := wrap (ix sax p) shift (ix sax sh)).
    assert (Hq : inrange sh (upd ra i' p)).
    { apply inrange_upd; [exact Hp|]. apply wrap_lt, Hn. }
    assert (Hq' : inrange sh (upd sax w (upd ra i' p))).
    { apply inrange_upd; [exact Hq|]. apply wrap_lt, Hm. }
    destruct (in_tilt (ix ra sh) steps (ix ra p)) eqn:Htilt.
    + rewrite (tilted_roll3_get sh) by assumption. cbv zeta.
      rewrite (ix_upd_other sax ra) by congruence.
      rewrite ix_upd_same. unfold i'. rewrite wrap_inverse by exact Hi.
      rewrite Htilt, ix_upd_same. fold i'.
      unfold w at 1. rewrite wrap_half_twice by assumption.
      f_equal. clearbody w i'. clear -Hax.
      destruct p as [[x y] z], ra, sax; simpl; congruence.
    + rewrite (tilted_roll3_get sh) by assumption. cbv zeta.
      rewrite ix_upd_same. unfold i'. rewrite wrap_inverse by exact Hi.
      rewrite Htilt, upd_upd. now rewrite upd_ix.
Qed.

End RollFacts.

(** *** The heap: what a roll leaves alone *)

Section RollHeap.
Context {A : Type} (dflt : A).

Local Abbreviation keeps := (keeps (A:=A)).

Lemma keeps_weaken {X} n0 (m : M (list (@ndarray A)) X) (Q Q' : X -> Prop) :
  keeps n0 m Q -> (forall x, Q x -> Q' x) -> keeps n0 m Q'.
Proof.
  intros Hm HQ h Hh. destruct (Hm h Hh) as (H1 & H2 & H3).
  repeat split; try assumption. destruct (fst (m h)); auto.
Qed.

Lemma keeps_ret {X} n0 (x : X) (Q : X -> Prop) :
  Q x -> keeps n0 (ret x) Q.
Proof. intros HQ h Hh. simpl. auto. Qed.

Lemma keeps_raise {X} n0 (e : exn) (Q : X -> Prop) :
  keeps n0 (raise e) Q.
Proof. intros h Hh. simpl. auto. Qed.

Lemma keeps_lift {X} n0 (r : result X) :
  keeps n0 (lift r) (fun _ => True).
Proof. intros h Hh. simpl. destruct r; auto. Qed.

Lemma keeps_bind {X Y} n0 (m : M (list (@ndarray A)) X) (k : X -> M (list (@ndarray A)) Y)
    (Q : X -> Prop) (Q' : Y -> Prop) :
  keeps n0 m Q -> (forall x, Q x -> keeps n0 (k x) Q') ->
  keeps n0 (bind m k) Q'.
Proof.
  intros Hm Hk h Hh. destruct (Hm h Hh) as (H1 & H2 & H3).
  unfold bind. destruct (m h) as [[x|e] h1]; simpl in *.
  - destruct (Hk x H3 h1 H1) as (H4 & H5 & H6).
    repeat split; try assumption. congruence.
  - auto.
Qed.

Lemma keeps_read n0 (r : ref) : keeps n0 (read r) (fun _ => True).
Proof.
  intros h Hh. unfold read.
  destruct (_ !! _); simpl; repeat split; auto.
Qed.

Lemma keeps_alloc n0 (a : ndarray) :
  keeps n0 (alloc a) (fun r => (n0 <= r)%nat).
Proof.
  intros h Hh. unfold alloc. simpl. rewrite length_app.
  split; [lia|]. split; [|exact Hh]. now apply take_app_le.
Qed.

Lemma keeps_write n0 (r : ref) (a : ndarray) :
  (n0 <= r)%nat -> keeps n0 (write r a) (fun _ => True).
Proof.
  intros Hr h Hh. unfold write. simpl. rewrite length_insert.
  split; [exact Hh|]. split; [|exact I]. now apply take_insert_ge.
Qed.

Lemma keeps_np_copy n0 (r : ref) :
  keeps n0 (np_copy r) (fun r' => (n0 <= r')%nat).
Proof.
  unfold np_copy. eapply keeps_bind; [apply keeps_read|].
  intros a _. apply keeps_alloc.
Qed.

Lemma keeps_np_roll n0 (r : ref) (steps axis : Z) :
  keeps n0 (np_roll dflt r steps axis) (fun r' => (n0 <= r')%nat).
Proof.
  unfold np_roll. eapply keeps_bind; [apply keeps_read|].
  intros [a2|a3] _; (eapply keeps_bind; [apply keeps_lift|]);
    intros ax _; apply keeps_alloc.
Qed.

Lemma keeps_roll_slice n0 (array : ref) ax start stop shift shift_axis :
  (n0 <= array)%nat ->
  keeps n0 (roll_slice dflt array ax start stop shift shift_axis)
        (fun _ => True).
Proof.
  intros Hr. unfold roll_slice. eapply keeps_bind; [apply keeps_read|].
  intros [a2|a3] _; [apply keeps_raise|].
  eapply keeps_bind; [apply keeps_lift|]. intros sax _.
  eapply keeps_bind; [apply keeps_alloc|]. intros tmp _.
  now apply keeps_write.
Qed.

Lemma keeps_tilted_roll_3d n0 (array : ref) steps roll_axis shift shift_axis :
  keeps n0 (_tilted_roll_3d dflt array steps roll_axis shift shift_axis)
        (fun r' => (n0 <= r')%nat).
Proof.
  unfold _tilted_roll_3d. eapply keeps_bind; [apply keeps_np_copy|].
  intros array' Harr. simpl in Harr.
  eapply keeps_bind with (Q := fun _ => True).
  { unfold shape_of. eapply keeps_bind; [apply keeps_read|].
    intros [a2|a3] _; [apply keeps_raise|now apply keeps_ret]. }
  intros [[l0 l1] l2] _.
  repeat (eapply keeps_bind with (Q := fun _ => True);
    [ repeat match goal with
             | |- keeps _ (if ?b then _ else _) _ => destruct b
             end;
      (now apply keeps_roll_slice) || (now apply keeps_ret)
    | intros _ _ ]).
  apply keeps_np_roll.
Qed.

Lemma keeps_tilted_roll n0 (array : ref) steps roll_axis shift shift_axis :
  keeps n0 (_tilted_roll dflt array steps roll_axis shift shift_axis)
        (fun r' => (n0 <= r')%nat).
Proof.
  unfold _tilted_roll. eapply keeps_bind; [apply keeps_read|].
  intros [a2|a3] _; [|apply keeps_tilted_roll_3d].
  eapply keeps_bind; [apply keeps_alloc|]. intros array' _.
  eapply keeps_bind; [apply keeps_tilted_roll_3d|]. intros array'' _.
  eapply keeps_bind; [apply keeps_read|].
  intros [a2'|[|layer rest]] _;
    try apply keeps_raise. apply keeps_alloc.
Qed.

Lemma keeps_boundary_roll n0 (self : LdftModel) (r : ref) (steps axis : Z) :
  keeps n0 (_boundary_roll dflt self r steps axis)
        (fun o => forall r', o = Some r' -> (n0 <= r')%nat).
Proof.
  assert (Hplain : keeps n0 (x <- np_roll dflt r steps axis ;; ret (Some x))
            (fun o => forall r', o = Some r' -> (n0 <= r')%nat)).
  { eapply keeps_bind; [apply keeps_np_roll|]. intros x Hx.
    apply keeps_ret. now intros r' [= <-]. }
  assert (Htilt : forall shift shift_axis,
            keeps n0 (x <- _tilted_roll dflt r steps axis shift shift_axis ;;
                      ret (Some x))
              (fun o => forall r', o = Some r' -> (n0 <= r')%nat)).
  { intros shift shift_axis.
    eapply keeps_bind; [apply keeps_tilted_roll|]. intros x Hx.
    apply keeps_ret. now intros r' [= <-]. }
  unfold _boundary_roll.
  destruct (String.eqb _ "periodic"); [exact Hplain|].
  destruct (String.eqb _ "111_if" || String.eqb _ "11_if").
  - eapply keeps_bind; [apply keeps_lift|]. intros mx _.
    eapply keeps_bind; [apply keeps_lift|]. intros shift_axis _.
    destruct (shift_axis =? axis)%Z; [exact Hplain|apply Htilt].
  - destruct (String.eqb _ "110_if").
    + eapply keeps_bind; [apply keeps_lift|]. intros mx _.
      eapply keeps_bind; [apply keeps_lift|]. intros shift_axis _.
      destruct (shift_axis =? axis)%Z; [exact Hplain|].
      destruct ((shift_axis + 1) mod 3 =? axis)%Z;
        [exact Hplain|apply Htilt].
    + apply keeps_ret. intros r' H. discriminate.
Qed.

(** C9: [_boundary_roll] does not mutate an array that exists when it is
    called, its argument among them: for every boundary condition, array,
    number of steps and axis, the heap of the arrays that existed before
    the call is the same after it, and the array returned is a new one. *)
Theorem C9_boundary_roll_pure (self : LdftModel) (r : ref) (steps axis : Z)
    (h : list (@ndarray A)) :
  take (length h) (snd (_boundary_roll dflt self r steps axis h)) = h /\
  (forall a, h !! r = Some a ->
     snd (_boundary_roll dflt self r steps axis h) !! r = Some a) /\
  forall r', fst (_boundary_roll dflt self r steps axis h) = Ok (Some r') ->
    (length h <= r')%nat.
Proof.
  destruct (keeps_boundary_roll (length h) self r steps axis h (le_n _))
    as (Hlen & Htake & Hres).
  rewrite firstn_all in Htake. split; [exact Htake|]. split.
  - intros a Ha. pose proof (lookup_lt_Some _ _ _ Ha) as Hr.
    rewrite <- Htake in Ha. now rewrite lookup_take_lt in Ha.
  - intros r' Hr'. rewrite Hr' in Hres. now apply Hres.
Qed.

End RollHeap.

(** *** The heap: what a roll returns *)

Lemma read_ok {A} (h : list (@ndarray A)) (r : ref) (a : ndarray) :
  h !! r = Some a -> read r h = (Ok a, h).
Proof. intros Hr. unfold read. now rewrite Hr. Qed.

Lemma lookup_new {A} (h : list (@ndarray A)) (a : ndarray) :
  (h ++ [a]) !! length h = Some a.
Proof. now apply list_lookup_middle. Qed.

Section RollRun.
Context {A : Type} (dflt : A).

Lemma np_roll_run3 (h : list (@ndarray A)) r a steps axis ax :
  h !! r = Some (Arr3 a) -> norm_axis 3 axis = Ok ax ->
  np_roll dflt r steps axis h =
  (Ok (length h), h ++ [Arr3 (roll3 dflt a steps ax)]).
Proof.
  intros Hr Hax. unfold np_roll. unfold bind at 1.
  rewrite (read_ok _ _ _ Hr). unfold bind, lift. now rewrite Hax.
Qed.

Lemma np_roll_run2 (h : list (@ndarray A)) r a steps axis ax :
  h !! r = Some (Arr2 a) -> norm_axis 2 axis = Ok ax ->
  np_roll dflt r steps axis h =
  (Ok (length h), h ++ [Arr2 (roll2 dflt a steps ax)]).
Proof.
  intros Hr Hax. unfold np_roll. unfold bind at 1.
  rewrite (read_ok _ _ _ Hr). unfold bind, lift. now rewrite Hax.
Qed.

Lemma roll_slice_run (h : list (@ndarray A)) array a ax start stop shift
    shift_axis sax :
  h !! array = Some (Arr3 a) -> norm_axis 3 shift_axis = Ok sax ->
  exists tmp,
    roll_slice dflt array ax start stop shift shift_axis h =
    (Ok tt, <[array:=Arr3 (tilt3 dflt a ax start stop shift sax)]>
              (h ++ [tmp])).
Proof.
  intros Hr Hax. eexists. unfold roll_slice. unfold bind at 1.
  rewrite (read_ok _ _ _ Hr). unfold bind, lift, alloc, write.
  rewrite Hax. reflexivity.
Qed.

Lemma norm_axis3_Z (ax : axis3) : norm_axis 3 (axis_Z ax) = Ok ax.
Proof. destruct ax; reflexivity. Qed.

Lemma tilted_roll_3d_run (h : list (@ndarray A)) r a steps ra shift
    shift_axis sax :
  h !! r = Some (Arr3 a) -> norm_axis 3 shift_axis = Ok sax ->
  exists h',
    _tilted_roll_3d dflt r steps (axis_Z ra) shift shift_axis h =
    (Ok (length h'),
     h' ++ [Arr3 (tilted_roll3 dflt a steps ra shift sax)]).
Proof.
  intros Hr Hax. unfold _tilted_roll_3d.
  unfold bind at 1. unfold np_copy. unfold bind at 1.
  rewrite (read_ok _ _ _ Hr). unfold alloc at 1.
  set (h1 := h ++ [Arr3 a]).
  assert (H1 : h1 !! length h = Some (Arr3 a)) by apply lookup_new.
  unfold bind at 1. unfold shape_of. unfold bind at 1.
  rewrite (read_ok _ _ _ H1). unfold ret at 1.
  destruct (shape3 a) as [[l0 l1] l2] eqn:Hsh.
  assert (Hslice : forall ax start stop, exists h2,
            roll_slice dflt (length h) ax start stop shift shift_axis h1 =
              (Ok tt, h2) /\
            h2 !! length h =
              Some (Arr3 (tilt3 dflt a ax start stop shift sax))).
  { intros ax start stop.
    destruct (roll_slice_run h1 (length h) a ax start stop shift shift_axis
                sax H1 Hax) as [tmp Hrun].
    eexists. split; [exact Hrun|].
    apply list_lookup_insert_eq. unfold h1. rewrite !length_app. simpl. lia. }
  unfold tilted_roll3. rewrite Hsh.
  destruct ra; simpl axis_Z; simpl Z.eqb; cbv iota; simpl ix.
  - destruct (steps >? 0)%Z.
    + destruct (Hslice X0 (- steps)%Z (Z.of_nat l0)) as (h2 & Hrun & Hl).
      unfold bind at 1. rewrite Hrun. unfold bind at 1. unfold ret at 1.
      unfold bind at 1. unfold ret at 1.
      exists h2. apply (np_roll_run3 h2 _ _ steps 0%Z X0 Hl). reflexivity.
    + destruct (Hslice X0 0%Z (- steps)%Z) as (h2 & Hrun & Hl).
      unfold bind at 1. rewrite Hrun. unfold bind at 1. unfold ret at 1.
      unfold bind at 1. unfold ret at 1.
      exists h2. apply (np_roll_run3 h2 _ _ steps 0%Z X0 Hl). reflexivity.
  - destruct (steps >? 0)%Z.
    + destruct (Hslice X1 (- steps)%Z (Z.of_nat l1)) as (h2 & Hrun & Hl).
      unfold bind at 1. unfold ret at 1.
      unfold bind at 1. rewrite Hrun. unfold bind at 1. unfold ret at 1.
      exists h2. apply (np_roll_run3 h2 _ _ steps 1%Z X1 Hl). reflexivity.
    + destruct (Hslice X1 0%Z (- steps)%Z) as (h2 & Hrun & Hl).
      unfold bind at 1. unfold ret at 1.
      unfold bind at 1. rewrite Hrun. unfold bind at 1. unfold ret at 1.
      exists h2. apply (np_roll_run3 h2 _ _ steps 1%Z X1 Hl). reflexivity.
  - destruct (steps >? 0)%Z.
    + destruct (Hslice X2 (- steps)%Z (Z.of_nat l2)) as (h2 & Hrun & Hl).
      unfold bind at 1. unfold ret at 1.
      unfold bind at 1. unfold ret at 1.
      unfold bind at 1. rewrite Hrun.
      exists h2. apply (np_roll_run3 h2 _ _ steps 2%Z X2 Hl). reflexivity.
    + destruct (Hslice X2 0%Z (- steps)%Z) as (h2 & Hrun & Hl).
      unfold bind at 1. unfold ret at 1.
      unfold bind at 1. unfold ret at 1.
      unfold bind at 1. rewrite Hrun.
      exists h2. apply (np_roll_run3 h2 _ _ steps 2%Z X2 Hl). reflexivity.
Qed.

End RollRun.

(** *** The two ways [_boundary_roll] rolls an array *)

Section RollPath.
Context {A : Type} (dflt : A).

Local Abbreviation path_val := (path_val dflt).

Lemma length_tab3 (sh : idx) (f : idx -> A) :
  length (tab3 sh f) = ix X0 sh.
Proof.
  destruct sh as [[l0 l1] l2]. simpl. now rewrite length_map, length_seq.
Qed.

Lemma length_roll3 (a : arr3 A) steps ax :
  length (roll3 dflt a steps ax) = length a.
Proof. unfold roll3. now rewrite length_tab3. Qed.

Lemma length_tilted_roll3 (a : arr3 A) steps ra shift sax :
  length (tilted_roll3 dflt a steps ra shift sax) = length a.
Proof.
  unfold tilted_roll3. rewrite length_roll3.
  destruct (steps >? 0)%Z; unfold tilt3, assign3; now rewrite length_tab3.
Qed.

Lemma singleton_hd {B} (l : list (list B)) :
  length l = 1%nat -> [hd [] l] = l.
Proof. destruct l as [|x [|y l]]; simpl; intros; try discriminate; auto. Qed.

Lemma path_val_fits (size : list Z) (sh : idx) (pth : path) a steps :
  fits size sh a -> pos_shape sh -> fits size sh (path_val pth a steps).
Proof.
  destruct sh as [[l0 l1] l2]. intros Hfit Hpos.
  destruct a as [a2|a3], pth as [ax|ra sax shift];
    cbn [fits path_val path_ok] in *.
  - destruct Hfit as (Hs & -> & Hwf).
    split; [exact Hs|]. split; [reflexivity|].
    unfold roll2. rewrite singleton_hd by apply length_roll3.
    now apply roll3_wf.
  - destruct Hfit as (Hs & -> & Hwf).
    split; [exact Hs|]. split; [reflexivity|].
    rewrite singleton_hd by apply length_tilted_roll3.
    now apply tilted_roll3_wf.
  - destruct Hfit as (Hs & Hwf). split; [assumption|]. now apply roll3_wf.
  - destruct Hfit as (Hs & Hwf). split; [assumption|].
    now apply tilted_roll3_wf.
Qed.

(** On either path the roll by [steps] and the roll by [- steps] give the
    array. *)
Lemma path_val_inverse (size : list Z) (sh : idx) (pth : path) a steps :
  fits size sh a -> pos_shape sh -> path_ok sh pth ->
  path_val pth (path_val pth a steps) (- steps) = a.
Proof.
  destruct sh as [[l0 l1] l2]. intros Hfit Hpos Hok.
  destruct a as [a2|a3], pth as [ax|ra sax shift];
    cbn [fits path_val path_ok] in *.
  - destruct Hfit as (Hs & -> & Hwf). f_equal. unfold roll2.
    rewrite singleton_hd by apply length_roll3.
    now rewrite (roll3_inverse dflt (1%nat, l1, l2)).
  - destruct Hfit as (Hs & -> & Hwf). destruct Hok as [Hne Hsh]. f_equal.
    rewrite singleton_hd by apply length_tilted_roll3.
    now rewrite (tilted_roll3_inverse dflt (1%nat, l1, l2)).
  - destruct Hfit as (Hs & Hwf). f_equal.
    now apply (roll3_inverse dflt (l0, l1, l2)).
  - destruct Hfit as (Hs & Hwf). destruct Hok as [Hne Hsh]. f_equal.
    now apply (tilted_roll3_inverse dflt (l0, l1, l2)).
Qed.

Lemma plain_run (h : list (@ndarray A)) r a steps axis ax :
  h !! r = Some a -> norm_axis (ndim a) axis = Ok ax ->
  exists r' h',
    (x <- np_roll dflt r steps axis ;; ret (Some x)) h =
      (Ok (Some r'), h') /\
    h' !! r' = Some (path_val (Plain ax) a steps).
Proof.
  intros Hr Hax. destruct a as [a2|a3]; simpl in Hax.
  - exists (length h), (h ++ [Arr2 (roll2 dflt a2 steps ax)]). split.
    + unfold bind at 1.
      now rewrite (np_roll_run2 dflt h r a2 steps axis ax Hr Hax).
    + apply lookup_new.
  - exists (length h), (h ++ [Arr3 (roll3 dflt a3 steps ax)]). split.
    + unfold bind at 1.
      now rewrite (np_roll_run3 dflt h r a3 steps axis ax Hr Hax).
    + apply lookup_new.
Qed.

Lemma tilted_run (h : list (@ndarray A)) r a steps ra shift shift_axis sax :
  h !! r = Some a ->
  norm_axis 3 (shift_axis + (3 - ndim a)) = Ok sax ->
  exists r' h',
    (x <- _tilted_roll dflt r steps (axis_Z ra - (3 - ndim a))%Z shift
            shift_axis ;;
     ret (Some x)) h = (Ok (Some r'), h') /\
    h' !! r' = Some (path_val (Tilted ra sax shift) a steps).
Proof.
  intros Hr Hax. unfold bind at 1. unfold _tilted_roll. unfold bind at 1.
  rewrite (read_ok _ _ _ Hr). destruct a as [a2|a3]; simpl ndim in *.
  - unfold bind at 1. unfold alloc at 1.
    replace (axis_Z ra - (3 - 2) + 1)%Z with (axis_Z ra) by lia.
    replace (shift_axis + (3 - 2))%Z with (shift_axis + 1)%Z in Hax by lia.
    destruct (tilted_roll_3d_run dflt (h ++ [Arr3 [a2]]) (length h) [a2]
                steps ra shift (shift_axis + 1)%Z sax (lookup_new _ _) Hax)
      as (h' & Hrun).
    unfold bind at 1. rewrite Hrun.
    unfold bind at 1. rewrite (read_ok _ _ _ (lookup_new _ _)).
    pose proof (length_tilted_roll3 [a2] steps ra shift sax) as Hlen.
    cbn [path_val].
    destruct (tilted_roll3 dflt [a2] steps ra shift sax) as [|layer rest];
      [discriminate|].
    unfold alloc, ret. eexists _, _. split; [reflexivity|].
    simpl. apply lookup_new.
  - replace (axis_Z ra - (3 - 3))%Z with (axis_Z ra) by lia.
    replace (shift_axis + (3 - 3))%Z with shift_axis in Hax by lia.
    destruct (tilted_roll_3d_run dflt h r a3 steps ra shift shift_axis sax
                Hr Hax) as (h' & Hrun).
    rewrite Hrun. unfold ret. eexists _, _. split; [reflexivity|].
    apply lookup_new.
Qed.

End RollPath.

(** *** The path that [_boundary_roll] takes *)

Section RollDispatch.
Context {A : Type} (dflt : A).

Lemma norm_axis_ax_of (nd axis : Z) :
  (nd = 2 \/ nd = 3)%Z -> (0 <= axis < nd)%Z ->
  norm_axis nd axis = Ok (ax_of nd axis).
Proof.
  intros Hnd Hax. unfold norm_axis, ax_of.
  assert (H : ((- nd <=? axis) && (axis <? nd))%Z = true).
  { apply andb_true_iff. split; [apply Z.leb_le|apply Z.ltb_lt]; lia. }
  rewrite H, Z.mod_small by lia.
  destruct Hnd; subst nd;
    (assert (Hc : (axis = 0 \/ axis = 1 \/ axis = 2)%Z) by lia;
     destruct Hc as [-> | [-> | ->]]; try lia; reflexivity).
Qed.

Lemma axis_Z_ax_of (nd axis : Z) :
  (nd = 2 \/ nd = 3)%Z -> (0 <= axis < nd)%Z ->
  axis_Z (ax_of nd axis) = (axis + (3 - nd))%Z.
Proof.
  intros Hnd Hax. unfold ax_of.
  destruct Hnd; subst nd;
    (assert (Hc : (axis = 0 \/ axis = 1 \/ axis = 2)%Z) by lia;
     destruct Hc as [-> | [-> | ->]]; try lia; reflexivity).
Qed.

Lemma norm_axis3_shift (nd k : Z) :
  (nd = 2 \/ nd = 3)%Z -> (0 <= k < nd)%Z ->
  norm_axis 3 (k + (3 - nd)) = Ok (ax_of nd k).
Proof.
  intros Hnd Hk.
  destruct Hnd; subst nd;
    (assert (Hc : (k = 0 \/ k = 1 \/ k = 2)%Z) by lia;
     destruct Hc as [-> | [-> | ->]]; try lia; reflexivity).
Qed.

Lemma ax_of_inj (nd k axis : Z) :
  (nd = 2 \/ nd = 3)%Z -> (0 <= k < nd)%Z -> (0 <= axis < nd)%Z ->
  ax_of nd axis = ax_of nd k -> k = axis.
Proof.
  intros Hnd Hk Hax Heq.
  apply (f_equal axis_Z) in Heq. rewrite !axis_Z_ax_of in Heq by assumption.
  lia.
Qed.

Lemma ndim_cases (a : @ndarray A) : (ndim a = 2 \/ ndim a = 3)%Z.
Proof. destruct a; simpl; auto. Qed.

(** [_boundary_roll] under a tilted boundary condition, once the largest
    extent and its axis are known. *)
Lemma boundary_roll_tilted_mode (self : LdftModel) (r : ref) steps axis
    (mx k : Z) (h : list (@ndarray A)) :
  tilted_mode (_bound_cond self) ->
  py_max (_size self) = Ok mx -> py_index_of mx (_size self) = Ok k ->
  _boundary_roll dflt self r steps axis h =
  if (k =? axis)%Z then
    (x <- np_roll dflt r steps axis ;; ret (Some x)) h
  else if String.eqb (_bound_cond self) "110_if" &&
          ((k + 1) mod 3 =? axis)%Z
  then (x <- np_roll dflt r steps axis ;; ret (Some x)) h
  else (x <- _tilted_roll dflt r steps axis (mx / 2) k ;; ret (Some x)) h.
Proof.
  intros Hbc Hmx Hk. unfold _boundary_roll.
  destruct Hbc as [Hbc|[Hbc|Hbc]]; rewrite Hbc;
    repeat match goal with
           | |- context [String.eqb ?x ?y] =>
               let v := eval vm_compute in (String.eqb x y) in
               change (String.eqb x y) with v
           end;
    cbn [orb andb]; cbv iota beta;
    unfold bind at 1; unfold lift at 1; rewrite Hmx;
    unfold bind at 1; unfold lift at 1; rewrite Hk;
    destruct (k =? axis)%Z; try reflexivity;
    destruct ((k + 1) mod 3 =? axis)%Z; reflexivity.
Qed.

Lemma boundary_roll_run (self : LdftModel) (r : ref) steps axis (mx k : Z)
    (h : list (@ndarray A)) (a : ndarray) :
  tilted_mode (_bound_cond self) ->
  py_max (_size self) = Ok mx -> py_index_of mx (_size self) = Ok k ->
  (0 <= axis < ndim a)%Z -> (0 <= k < ndim a)%Z ->
  h !! r = Some a ->
  exists r' h',
    _boundary_roll dflt self r steps axis h = (Ok (Some r'), h') /\
    h' !! r' =
      Some (path_val dflt
              (choose_path (_bound_cond self) (ndim a) k axis mx) a steps).
Proof.
  intros Hbc Hmx Hk Hax Hkr Hr.
  rewrite (boundary_roll_tilted_mode self r steps axis mx k h Hbc Hmx Hk).
  unfold choose_path. pose proof (ndim_cases a) as Hnd.
  destruct (k =? axis)%Z.
  { apply plain_run; [exact Hr|]. now apply norm_axis_ax_of. }
  destruct (String.eqb (_bound_cond self) "110_if" &&
            ((k + 1) mod 3 =? axis)%Z).
  { apply plain_run; [exact Hr|]. now apply norm_axis_ax_of. }
  pose proof (tilted_run dflt h r a steps (ax_of (ndim a) axis) (mx / 2) k
                (ax_of (ndim a) k) Hr) as Hrun.
  rewrite axis_Z_ax_of in Hrun by assumption.
  replace (axis + (3 - ndim a) - (3 - ndim a))%Z with axis in Hrun by lia.
  apply Hrun. now apply norm_axis3_shift.
Qed.

(** The largest extent of a lattice with one long axis, and its axis. *)
Lemma even_half (x y : Z) : x = (2 * y)%Z -> (2 * (x / 2) = x)%Z.
Proof.
  intros ->. replace (2 * y)%Z with (y * 2)%Z by lia.
  rewrite Z.div_mul by lia. lia.
Qed.

Lemma long_axis (size : list Z) (sh : idx) (a : @ndarray A) :
  fits size sh a -> pos_shape sh -> twice_long size ->
  exists mx k,
    py_max size = Ok mx /\ py_index_of mx size = Ok k /\
    (0 <= k < ndim a)%Z /\
    (2 * (mx / 2) = Z.of_nat (ix (ax_of (ndim a) k) sh))%Z.
Proof.
  destruct sh as [[l0 l1] l2]. intros Hfit (H0 & H1 & H2) (k & x & Hx & Hk).
  simpl in H0, H1, H2.
  destruct a as [a2|a3]; cbn [fits] in Hfit.
  - destruct Hfit as (-> & -> & _).
    destruct k as [|[|k]]; simpl in Hx; [| |discriminate];
      injection Hx as <-.
    + pose proof (Hk 1%nat _ ltac:(lia) eq_refl) as E.
      exists (Z.of_nat l1), 0%Z. simpl.
      rewrite Z.max_l, Z.eqb_refl by lia.
      repeat split; try lia. apply (even_half _ _ E).
    + pose proof (Hk 0%nat _ ltac:(lia) eq_refl) as E.
      exists (Z.of_nat l2), 1%Z. simpl.
      rewrite Z.max_r by lia.
      destruct (Z.eqb_spec (Z.of_nat l1) (Z.of_nat l2)); [lia|].
      rewrite Z.eqb_refl. repeat split; try lia.
      apply (even_half _ _ E).
  - destruct Hfit as (-> & _).
    destruct k as [|[|[|k]]]; simpl in Hx; [| | |discriminate];
      injection Hx as <-.
    + pose proof (Hk 1%nat _ ltac:(lia) eq_refl) as E1.
      pose proof (Hk 2%nat _ ltac:(lia) eq_refl) as E2.
      exists (Z.of_nat l0), 0%Z. simpl.
      replace (Z.max (Z.max (Z.of_nat l0) (Z.of_nat l1)) (Z.of_nat l2))
        with (Z.of_nat l0) by lia.
      rewrite Z.eqb_refl. repeat split; try lia.
      apply (even_half _ _ E1).
    + pose proof (Hk 0%nat _ ltac:(lia) eq_refl) as E1.
      pose proof (Hk 2%nat _ ltac:(lia) eq_refl) as E2.
      exists (Z.of_nat l1), 1%Z. simpl.
      replace (Z.max (Z.max (Z.of_nat l0) (Z.of_nat l1)) (Z.of_nat l2))
        with (Z.of_nat l1) by lia.
      destruct (Z.eqb_spec (Z.of_nat l0) (Z.of_nat l1)); [lia|].
      rewrite Z.eqb_refl. repeat split; try lia.
      apply (even_half _ _ E1).
    + pose proof (Hk 0%nat _ ltac:(lia) eq_refl) as E1.
      pose proof (Hk 1%nat _ ltac:(lia) eq_refl) as E2.
      exists (Z.of_nat l2), 2%Z. simpl.
      replace (Z.max (Z.max (Z.of_nat l0) (Z.of_nat l1)) (Z.of_nat l2))
        with (Z.of_nat l2) by lia.
      destruct (Z.eqb_spec (Z.of_nat l0) (Z.of_nat l2)); [lia|].
      destruct (Z.eqb_spec (Z.of_nat l1) (Z.of_nat l2)); [lia|].
      rewrite Z.eqb_refl. repeat split; try lia.
      apply (even_half _ _ E1).
Qed.

(** C3: under each tilted boundary condition ('11_if', '110_if',
    '111_if'), on a lattice of positive extents one of which is twice each
    of the others, rolling an array of that shape by [steps] along an axis
    and rolling the result by [- steps] along the same axis returns an
    array equal to the first one, for every array, number of steps and
    axis. *)
Theorem C3_tilted_roll_round_trip (self : LdftModel) (sh : idx)
    (a : @ndarray A) (r : ref) (steps axis : Z) (h : list (@ndarray A)) :
  tilted_mode (_bound_cond self) ->
  fits (_size self) sh a -> pos_shape sh -> twice_long (_size self) ->
  (0 <= axis < ndim a)%Z ->
  h !! r = Some a ->
  exists r1 h1 r2 h2,
    _boundary_roll dflt self r steps axis h = (Ok (Some r1), h1) /\
    _boundary_roll dflt self r1 (- steps) axis h1 = (Ok (Some r2), h2) /\
    h2 !! r2 = Some a.
Proof.
  intros Hbc Hfit Hpos Htwice Hax Hr.
  destruct (long_axis (_size self) sh a Hfit Hpos Htwice)
    as (mx & k & Hmx & Hk & Hkr & Hhalf).
  set (pth := choose_path (_bound_cond self) (ndim a) k axis mx).
  assert (Hok : path_ok sh pth).
  { unfold pth, choose_path. destruct (Z.eqb_spec k axis); [exact I|].
    destruct (_ && _); [exact I|]. split; [|exact Hhalf].
    intros Heq. apply ax_of_inj in Heq; try assumption; [lia|].
    apply ndim_cases. }
  destruct (boundary_roll_run self r steps axis mx k h a Hbc Hmx Hk Hax Hkr
              Hr) as (r1 & h1 & Hrun1 & Hl1).
  fold pth in Hl1.
  assert (Hnd : ndim (path_val dflt pth a steps) = ndim a).
  { destruct pth, a; reflexivity. }
  destruct (boundary_roll_run self r1 (- steps) axis mx k h1
              (path_val dflt pth a steps) Hbc Hmx Hk
              ltac:(rewrite Hnd; exact Hax) ltac:(rewrite Hnd; exact Hkr) Hl1)
    as (r2 & h2 & Hrun2 & Hl2).
  exists r1, h1, r2, h2. split; [exact Hrun1|]. split; [exact Hrun2|].
  rewrite Hl2, Hnd. fold pth. f_equal.
  now apply (path_val_inverse dflt (_size self) sh).
Qed.

End RollDispatch.

(** ** The search for a phase transition *)

Lemma flt_fin (a b : R) :
  flt (Fin a) (Fin b) = if Rlt_dec a b then true else false.
Proof. reflexivity. Qed.

Lemma no_transition_fin (a b : R) :
  flt (fabs (fsub (Fin a) (Fin b))) (Fin (/ 1000)) =
  if Rlt_dec (Rabs (a - b)) (/ 1000) then true else false.
Proof. reflexivity. Qed.

Section SearchFacts.
Variable Sys : Type.
Variable size : list Z.
Variable create_save_path : bool -> string.
Variable create_sys : R -> init Sys -> result Sys.
Variable make_picard_iteration : Sys -> result Sys.
Variable cal_semi_Om : Sys -> result fl.
Variable acuracy : R.

Local Abbreviation run :=
  (search_trans Sys size create_save_path create_sys make_picard_iteration
     cal_semi_Om acuracy).
Local Abbreviation probe_round :=
  (probe create_sys make_picard_iteration cal_semi_Om).
Local Abbreviation round_save := (round_save Sys).
Local Abbreviation round_events := (round_events Sys create_save_path).
Local Abbreviation after_round :=
  (after_round Sys size create_save_path create_sys make_picard_iteration
     cal_semi_Om acuracy).
Local Abbreviation is_save := (is_save Sys).
Local Abbreviation is_round := (is_round Sys).
Local Abbreviation rounds := (rounds Sys).
Local Abbreviation ends_well := (ends_well Sys acuracy).
Local Abbreviation within_rounds :=
  (within_rounds Sys size create_save_path create_sys make_picard_iteration
     cal_semi_Om acuracy).

Lemma search_round (fuel : nat) (lo hi : R) (initLeft initRight : init Sys)
    (specLeft specRight : string) (log : list (event Sys)) (short : bool)
    (l r : Sys) (leftF rightF : fl) :
  folds_to_first size = Ok short ->
  (hi - lo > acuracy)%R ->
  probe_round ((hi + lo) / 2)%R initLeft initRight
    = Ok (l, r, leftF, rightF) ->
  run (S fuel) (lo, hi) initLeft initRight specLeft specRight log =
  after_round fuel lo hi initLeft initRight l r leftF rightF
    specLeft specRight
    (log ++ round_events short ((hi + lo) / 2)%R l r leftF rightF
              specLeft specRight).
Proof.
  intros Hshort Hwide Hprobe. cbn [search_trans].
  unfold bind at 1. unfold lift at 1. rewrite Hshort.
  destruct (Rgt_dec (hi - lo) acuracy) as [_|Hn]; [|contradiction].
  unfold after_round, round_events, round_save, no_transition.
  destruct short; unfold emit; unfold_monad; rewrite Hprobe;
    destruct (flt (fabs (fsub leftF rightF)) (Fin (/ 1000)));
    [| destruct (flt leftF rightF) | | destruct (flt leftF rightF)];
    repeat rewrite <- app_assoc; reflexivity.
Qed.

Lemma search_finish (fuel : nat) (lo hi : R) (initLeft initRight : init Sys)
    (specLeft specRight : string) (log : list (event Sys)) (short : bool) :
  folds_to_first size = Ok short ->
  ~ (hi - lo > acuracy)%R ->
  run (S fuel) (lo, hi) initLeft initRight specLeft specRight log =
  (Ok (Some tt),
   log ++ (if short then [PrintModel] else []) ++ [PrintFinish lo hi]).
Proof.
  intros Hshort Hnarrow. cbn [search_trans].
  unfold bind at 1. unfold lift at 1. rewrite Hshort.
  destruct (Rgt_dec (hi - lo) acuracy) as [Hw|_]; [contradiction|].
  destruct short; unfold emit; unfold_monad;
    repeat rewrite <- app_assoc; reflexivity.
Qed.

Lemma search_probe_raises (fuel : nat) (lo hi : R)
    (initLeft initRight : init Sys) (specLeft specRight : string)
    (log : list (event Sys)) (short : bool) (e : exn) :
  folds_to_first size = Ok short ->
  (hi - lo > acuracy)%R ->
  probe_round ((hi + lo) / 2)%R initLeft initRight = Raise e ->
  run (S fuel) (lo, hi) initLeft initRight specLeft specRight log =
  (Raise e,
   log ++ (if short then [PrintModel] else []) ++
     [PrintDensity ((hi + lo) / 2)%R]).
Proof.
  intros Hshort Hwide Hprobe. cbn [search_trans].
  unfold bind at 1. unfold lift at 1. rewrite Hshort.
  destruct (Rgt_dec (hi - lo) acuracy) as [_|Hn]; [|contradiction].
  destruct short; unfold emit; unfold_monad; rewrite Hprobe;
    repeat rewrite <- app_assoc; reflexivity.
Qed.

(** C5: what a round of [search_trans] saves.  It probes two systems and
    saves exactly one of them, before the recursive call: the system seeded
    from the low-density phase when no transition is found or when its
    potential is the lower one, the system seeded from the high-density
    phase otherwise.  The other system is not saved, against the docstring
    of [search_trans] ('All systems which are created in this process are
    saved'). *)
Theorem C5_round_saves_one (fuel : nat) (lo hi : R)
    (initLeft initRight : init Sys) (specLeft specRight : string)
    (log : list (event Sys)) (short : bool) (l r : Sys) (leftF rightF : fl) :
  folds_to_first size = Ok short ->
  (hi - lo > acuracy)%R ->
  probe_round ((hi + lo) / 2)%R initLeft initRight
    = Ok (l, r, leftF, rightF) ->
  let dens := ((hi + lo) / 2)%R in
  let evs := round_events short dens l r leftF rightF specLeft specRight in
  run (S fuel) (lo, hi) initLeft initRight specLeft specRight log =
    after_round fuel lo hi initLeft initRight l r leftF rightF
      specLeft specRight (log ++ evs) /\
  filter (fun e => is_save e = true) evs =
    [round_save (create_save_path short) dens l r leftF rightF
       specLeft specRight] /\
  exists spec,
    round_save (create_save_path short) dens l r leftF rightF
      specLeft specRight =
    Save (create_save_path short)
      (if no_transition leftF rightF || flt leftF rightF then l else r)
      dens spec.
Proof.
  intros Hshort Hwide Hprobe dens evs. split; [|split].
  - now apply search_round.
  - unfold evs, round_events, round_save.
    destruct short, (no_transition leftF rightF), (flt leftF rightF);
      reflexivity.
  - unfold round_save.
    destruct (no_transition leftF rightF), (flt leftF rightF);
      eexists; reflexivity.
Qed.


Lemma rounds_app (l1 l2 : list (event Sys)) :
  rounds (l1 ++ l2) = (rounds l1 + rounds l2)%nat.
Proof. unfold rounds. now rewrite filter_app, length_app. Qed.

Lemma rounds_round_events short dens l r leftF rightF specLeft specRight :
  rounds (round_events short dens l r leftF rightF specLeft specRight)
  = 1%nat.
Proof.
  unfold round_events, round_save.
  destruct short, (no_transition leftF rightF), (flt leftF rightF);
    reflexivity.
Qed.

Lemma last_round_events short dens l r leftF rightF specLeft specRight :
  last (round_events short dens l r leftF rightF specLeft specRight) =
  Some (round_save (create_save_path short) dens l r leftF rightF
          specLeft specRight).
Proof. unfold round_events. destruct short; reflexivity. Qed.

Lemma search_within_rounds (short : bool) (n : nat) :
  folds_to_first size = Ok short ->
  forall lo hi initLeft initRight specLeft specRight log,
    (hi - lo <= acuracy * 2 ^ n)%R ->
    within_rounds n lo hi initLeft initRight specLeft specRight log.
Proof.
  intros Hshort. induction n as [|n IH];
    intros lo hi initLeft initRight specLeft specRight log Hw;
    unfold within_rounds; cbv zeta.
  - rewrite (search_finish 0 lo hi _ _ _ _ log short Hshort)
      by (simpl in Hw; lra).
    eexists. split; [reflexivity|]. simpl fst.
    split; [destruct short; unfold rounds; simpl; lia|].
    left. exists lo, hi.
    split; [destruct short; reflexivity|]. split; [simpl in Hw; lra|].
    destruct short; unfold rounds; simpl; lra.
  - destruct (Rgt_dec (hi - lo) acuracy) as [Hwide|Hnarrow].
    2:{ rewrite (search_finish (S n) lo hi _ _ _ _ log short Hshort Hnarrow).
        eexists. split; [reflexivity|]. simpl fst.
        split; [destruct short; unfold rounds; simpl; lia|].
        left. exists lo, hi.
        split; [destruct short; reflexivity|]. split; [lra|].
        destruct short; unfold rounds; simpl; lra. }
    destruct (probe_round ((hi + lo) / 2)%R initLeft initRight)
      as [[[[l r] leftF] rightF]|e] eqn:Hprobe.
    2:{ rewrite (search_probe_raises (S n) lo hi _ _ _ _ log short e
                   Hshort Hwide Hprobe).
        eexists. split; [reflexivity|]. simpl fst.
        split; [destruct short; unfold rounds; simpl; lia|exact I]. }
    rewrite (search_round (S n) lo hi _ _ specLeft specRight log short
               l r leftF rightF Hshort Hwide Hprobe).
    set (revs := round_events short ((hi + lo) / 2)%R l r leftF rightF
                   specLeft specRight).
    pose proof (rounds_round_events short ((hi + lo) / 2)%R l r leftF rightF
                  specLeft specRight) as Hr1. fold revs in Hr1.
    pose proof (last_round_events short ((hi + lo) / 2)%R l r leftF rightF
                  specLeft specRight) as Hlast. fold revs in Hlast.
    unfold after_round. unfold round_save in Hlast.
    simpl pow in Hw.
    destruct (no_transition leftF rightF).
    + exists revs. split; [reflexivity|]. split; [lia|]. simpl fst.
      right. eauto.
    + assert (Hcont : forall lo2 hi2 iL iR,
                (hi2 - lo2 = (hi - lo) / 2)%R ->
                let out := run (S n) (lo2, hi2) iL iR specLeft specRight
                             (log ++ revs) in
                exists evs, snd out = log ++ evs /\ (rounds evs <= S n)%nat /\
                  match fst out with
                  | Ok None => False
                  | Ok (Some _) => ends_well lo hi evs
                  | Raise _ => True
                  end).
      { intros lo2 hi2 iL iR Hhalf out.
        destruct (IH lo2 hi2 iL iR specLeft specRight (log ++ revs)
                    ltac:(lra)) as (evs' & Hsnd & Hrounds & Hres).
        fold out in Hsnd, Hres. exists (revs ++ evs').
        split; [now rewrite Hsnd, app_assoc|].
        split; [rewrite rounds_app; lia|].
        destruct (fst out) as [[[]|]|e']; try exact Hres.
        destruct Hres as [(lo' & hi' & Hl & Hn & Hwd)|(path & s' & d & Hl)].
        - left. exists lo', hi'. rewrite last_app, Hl.
          split; [reflexivity|]. split; [exact Hn|].
          rewrite rounds_app, Hr1, Hhalf in *. simpl pow. lra.
        - right. exists path, s', d. now rewrite last_app, Hl. }
      destruct (flt leftF rightF); apply Hcont; lra.
Qed.

Lemma enough_rounds (w acc : R) :
  (0 < acc)%R -> exists n, (w <= acc * 2 ^ n)%R.
Proof.
  intros Hacc.
  destruct (Pow_x_infinity 2 ltac:(rewrite Rabs_right; lra) (w / acc))
    as [N HN].
  exists N. specialize (HN N (le_n _)).
  rewrite Rabs_right in HN by (apply Rle_ge, pow_le; lra).
  apply Rge_le in HN.
  apply (Rmult_le_compat_l acc) in HN; [|lra].
  replace (acc * (w / acc))%R with w in HN by (field; lra). exact HN.
Qed.


End SearchFacts.

(** *** A toy model for the search

    A system is the phase it was seeded for and its density; the potential
    of the low-density phase grows with the density and that of the
    high-density phase falls, so that the phases exchange stability at the
    density 1/2. *)

Lemma toy_short : folds_to_first [64%Z; 64%Z] = Ok true.
Proof.
  unfold folds_to_first. simpl.
  destruct (Req_dec_T ((64 + 64) / 2) 64) as [_|H]; [reflexivity|].
  exfalso. apply H. lra.
Qed.

(** C5 at a concrete input: in the round at density 11/20 the system
    seeded from the low-density phase is probed, the other one has the
    lower potential and is saved, and the search recurses and finishes; no
    event of the log saves the system seeded from the low-density phase. *)
Lemma C5_counterexample :
  let dens := ((9/10 + 2/10) / 2)%R in
  let out := toy_search (4/10) 2 (2/10, 9/10)%R (InitShape "hom")
               (InitShape "sl") "left" "right" [] in
  probe toy_create toy_iterate toy_semi_Om dens (InitShape "hom")
    (InitShape "sl") =
    Ok ((true, dens), (false, dens), Fin dens, Fin (1 - dens)) /\
  out = (Ok (Some tt),
         [PrintModel; PrintDensity dens; PrintF (Fin dens) (Fin (1 - dens));
          PrintRightLower; Save "data/64" (false, dens) dens "right";
          PrintModel; PrintFinish (2/10) dens]) /\
  ~ exists path d spec, In (Save path (true, dens) d spec) (snd out).
Proof.
  intros dens out.
  assert (Hprobe : probe toy_create toy_iterate toy_semi_Om dens
            (InitShape "hom") (InitShape "sl") =
            Ok ((true, dens), (false, dens), Fin dens, Fin (1 - dens)))
    by reflexivity.
  assert (Hout : out = (Ok (Some tt),
            [PrintModel; PrintDensity dens; PrintF (Fin dens) (Fin (1 - dens));
             PrintRightLower; Save "data/64" (false, dens) dens "right";
             PrintModel; PrintFinish (2/10) dens])).
  { unfold out, toy_search.
    rewrite (search_round toy_sys [64%Z; 64%Z] toy_path toy_create
               toy_iterate toy_semi_Om (4/10) 1 (2/10) (9/10) _ _ _ _ []
               true _ _ _ _ toy_short ltac:(lra) Hprobe).
    unfold after_round, round_events, round_save, no_transition.
    fold dens. rewrite no_transition_fin, flt_fin.
    destruct (Rlt_dec (Rabs (dens - (1 - dens))) (/ 1000)) as [Hc|_].
    { exfalso. unfold dens, Rabs in Hc.
      destruct (Rcase_abs _) in Hc; lra. }
    destruct (Rlt_dec dens (1 - dens)) as [Hc|_];
      [exfalso; unfold dens in Hc; lra|].
    rewrite (search_finish toy_sys [64%Z; 64%Z] toy_path toy_create
               toy_iterate toy_semi_Om (4/10) 0 (2/10) dens _ _ _ _ _
               true toy_short) by (unfold dens; lra).
    reflexivity. }
  split; [exact Hprobe|]. split; [exact Hout|].
  rewrite Hout. simpl. intros (path & d & spec & Hin).
  repeat destruct Hin as [Hin|Hin]; try discriminate; contradiction.
Qed.

Lemma C5_round_saves_one_witness :
  let dens := ((9/10 + 2/10) / 2)%R in
  let evs := round_events toy_sys toy_path true dens (true, dens)
               (false, dens) (Fin dens) (Fin (1 - dens)) "left" "right" in
  toy_search (4/10) 2 (2/10, 9/10)%R (InitShape "hom") (InitShape "sl")
    "left" "right" [] =
    after_round toy_sys [64%Z; 64%Z] toy_path toy_create toy_iterate
      toy_semi_Om (4/10) 1 (2/10) (9/10) (InitShape "hom") (InitShape "sl")
      (true, dens) (false, dens) (Fin dens) (Fin (1 - dens))
      "left" "right" ([] ++ evs) /\
  filter (fun e => is_save toy_sys e = true) evs =
    [round_save toy_sys (toy_path true) dens (true, dens) (false, dens)
       (Fin dens) (Fin (1 - dens)) "left" "right"] /\
  exists spec,
    round_save toy_sys (toy_path true) dens (true, dens) (false, dens)
      (Fin dens) (Fin (1 - dens)) "left" "right" =
    Save (toy_path true)
      (if no_transition (Fin dens) (Fin (1 - dens))
          || flt (Fin dens) (Fin (1 - dens))
       then (true, dens) else (false, dens))
      dens spec.
Proof.
  intros dens evs.
  apply (C5_round_saves_one toy_sys [64%Z; 64%Z] toy_path toy_create
           toy_iterate toy_semi_Om (4/10) 1 (2/10) (9/10) (InitShape "hom")
           (InitShape "sl") "left" "right" [] true (true, dens) (false, dens)
           (Fin dens) (Fin (1 - dens))).
  - exact toy_short.
  - lra.
  - reflexivity.
Defined.



(** Seven halvings make the interval from 1/10 to 9/10 no wider than
    1/100, and six do not. *)
Lemma seven_rounds :
  (9/10 - 1/10 <= 1/100 * 2 ^ 7)%R /\ ~ (9/10 - 1/10 <= 1/100 * 2 ^ 6)%R.
Proof. simpl. lra. Qed.

(** *** Concrete runs *)

(** The roll by one step along axis 0 shifts the row that wraps around by
    two sites along axis 1; the heap holds the argument, untouched, and
    the arrays made on the way. *)
Lemma boundary_roll_2x4 :
  _boundary_roll 0%nat lattice_11 0 1 0 [field_2x4] =
  (Ok (Some 5%nat),
   [field_2x4;
    Arr3 [[[1; 2; 3; 4]; [5; 6; 7; 8]]];
    Arr3 [[[1; 2; 3; 4]; [7; 8; 5; 6]]];
    Arr3 [[[7; 8; 5; 6]]];
    Arr3 [[[7; 8; 5; 6]; [1; 2; 3; 4]]];
    Arr2 [[7; 8; 5; 6]; [1; 2; 3; 4]]]%nat).
Proof. vm_compute. reflexivity. Qed.

Lemma C9_boundary_roll_pure_witness :
  take (length [field_2x4])
    (snd (_boundary_roll 0%nat lattice_11 0 1 0 [field_2x4])) = [field_2x4] /\
  (forall a, [field_2x4] !! 0%nat = Some a ->
     snd (_boundary_roll 0%nat lattice_11 0 1 0 [field_2x4]) !! 0%nat
       = Some a) /\
  forall r', fst (_boundary_roll 0%nat lattice_11 0 1 0 [field_2x4])
               = Ok (Some r') ->
    (length [field_2x4] <= r')%nat.
Proof. apply (C9_boundary_roll_pure 0%nat lattice_11 0 1 0 [field_2x4]). Defined.

Lemma C3_tilted_roll_round_trip_witness :
  exists r1 h1 r2 h2,
    _boundary_roll 0%nat lattice_11 0 1 0 [field_2x4] = (Ok (Some r1), h1) /\
    _boundary_roll 0%nat lattice_11 r1 (- 1) 0 h1 = (Ok (Some r2), h2) /\
    h2 !! r2 = Some field_2x4.
Proof.
  apply (C3_tilted_roll_round_trip 0%nat lattice_11 (1, 2, 4)%nat field_2x4
           0%nat 1 0 [field_2x4]).
  - left. reflexivity.
  - split; [reflexivity|]. split; [reflexivity|].
    simpl. split; [reflexivity|]. repeat constructor.
  - unfold pos_shape. simpl. lia.
  - exists 1%nat, 4%Z. split; [reflexivity|].
    intros [|[|j]] y Hj Hy.
    + injection Hy as <-. reflexivity.
    + exfalso. apply Hj. reflexivity.
    + discriminate Hy.
  - simpl. lia.
  - reflexivity.
Defined.

Lemma C8_semi_grand_potential_witness :
  @cal_semi_Om ideal_gas model_gc =
  (Ok (@semi_Om_spec ideal_gas model_gc), model_gc).
Proof.
  apply (@C8_semi_grand_potential ideal_gas model_gc).
  intros [|[|i]] Hi; simpl in Hi; try discriminate.
  eexists _, _. split; reflexivity.
Defined.

(** In that state the semi-grand potential is the free energy 0 minus
    [2 * (1/4 + 1/4)] for the grand-canonical species 0; the canonical
    species 1 does not enter. *)
Lemma semi_Om_model_gc : @semi_Om_spec ideal_gas model_gc = Fin (- 1).
Proof. unfold semi_Om_spec. simpl. f_equal. lra. Qed.

(** * Further properties *)

(** ** The driver, step by step *)

Section DriverFacts.
Context `{Functional : LdftFunctional}.

(** One round of the loop of [make_picard_iteration]. *)
Lemma picard_loop_step (alpha : fl) (cm : checkp_method)
    (min_err : option fl) (n : nat) (checkp : Z) (s : LdftModel) :
  exists res s1,
    _make_picard_update alpha s = (res, s1) /\
    match res with
    | Raise e => picard_loop alpha cm min_err (S n) checkp s = (Raise e, s1)
    | Ok None =>
        picard_loop alpha cm min_err (S n) checkp s = (Raise TypeError, s1)
    | Ok (Some (r, error)) =>
        let s2 := with_err_hist (_err_hist s1 ++ [error]) s1 in
        if (_it_counter s2 - checkp =? 0)%Z then
          match py_index error 0 with
          | Raise e0 =>
              picard_loop alpha cm min_err (S n) checkp s = (Raise e0, s2)
          | Ok e0 =>
              let s3 :=
                with_stdout (stdout s2 ++ [OutCheckpoint (_it_counter s2) e0])
                  s2 in
              let s4 :=
                with_hist (_r_hist s3 ++ [_r s3])
                  (_it_hist s3 ++ [_it_counter s3]) s3 in
              match fst (_set_new_checkp cm s4) with
              | Raise e5 =>
                  picard_loop alpha cm min_err (S n) checkp s = (Raise e5, s4)
              | Ok c =>
                  picard_loop alpha cm min_err (S n) checkp s =
                  if below_min_err min_err error then (Ok tt, s4)
                  else picard_loop alpha cm min_err n c s4
              end
          end
        else
          picard_loop alpha cm min_err (S n) checkp s =
          if below_min_err min_err error then (Ok tt, s2)
          else picard_loop alpha cm min_err n checkp s2
    end.
Proof.
  destruct (_make_picard_update alpha s) as [res s1] eqn:Eu.
  exists res, s1. split; [reflexivity|].
  assert (Hhead : forall k,
            picard_loop alpha cm min_err (S n) checkp s =
            match res with
            | Ok (Some (r, error)) => k r error
            | Ok None => (Raise TypeError, s1)
            | Raise e => (Raise e, s1)
            end ->
            match res with
            | Ok (Some (r, error)) =>
                picard_loop alpha cm min_err (S n) checkp s = k r error
            | _ => True
            end).
  { intros k Hk. destruct res as [[[r error]|]|e]; [exact Hk|exact I..]. }
  destruct res as [[[r error]|]|e];
    [|cbn [picard_loop]; unfold bind at 1; rewrite Eu; reflexivity..].
  clear Hhead. cbv zeta.
  set (s2 := with_err_hist (_err_hist s1 ++ [error]) s1).
  assert (Hlast : py_last (_err_hist s2) = Ok error).
  { unfold py_last. subst s2. simpl. now rewrite last_snoc. }
  destruct (_it_counter s2 - checkp =? 0)%Z eqn:Ecp.
  - destruct (py_index error 0) as [e0|e0] eqn:E0.
    + set (s3 := with_stdout _ s2).
      set (s4 := with_hist _ _ s3).
      pose proof (pure_run (_set_new_checkp cm) s4 (pure_set_new_checkp cm))
        as Hcp.
      destruct (fst (_set_new_checkp cm s4)) as [c|e5] eqn:E5.
      * cbn [picard_loop]. unfold bind at 1. rewrite Eu.
        unfold bind at 1. unfold modify at 1.
        unfold bind at 1. unfold get at 1. fold s2.
        unfold bind at 1. rewrite Ecp.
        unfold bind at 1. unfold lift at 1. rewrite Hlast.
        unfold bind at 1. unfold lift at 1. rewrite E0.
        unfold bind at 1. unfold print at 1. unfold modify at 1.
        unfold bind at 1. unfold _append_hist at 1. unfold modify at 1.
        fold s3. fold s4. rewrite Hcp.
        destruct (below_min_err min_err error); reflexivity.
      * cbn [picard_loop]. unfold bind at 1. rewrite Eu.
        unfold bind at 1. unfold modify at 1.
        unfold bind at 1. unfold get at 1. fold s2.
        unfold bind at 1. rewrite Ecp.
        unfold bind at 1. unfold lift at 1. rewrite Hlast.
        unfold bind at 1. unfold lift at 1. rewrite E0.
        unfold bind at 1. unfold print at 1. unfold modify at 1.
        unfold bind at 1. unfold _append_hist at 1. unfold modify at 1.
        fold s3. fold s4. rewrite Hcp. reflexivity.
    + cbn [picard_loop]. unfold bind at 1. rewrite Eu.
      unfold bind at 1. unfold modify at 1.
      unfold bind at 1. unfold get at 1. fold s2.
      unfold bind at 1. rewrite Ecp.
      unfold bind at 1. unfold lift at 1. rewrite Hlast.
      unfold bind at 1. unfold lift at 1. rewrite E0. reflexivity.
  - cbn [picard_loop]. unfold bind at 1. rewrite Eu.
    unfold bind at 1. unfold modify at 1.
    unfold bind at 1. unfold get at 1. fold s2.
    unfold bind at 1. rewrite Ecp. unfold ret at 1.
    destruct (below_min_err min_err error); reflexivity.
Qed.

(** The driver around its loop. *)
Lemma make_picard_iteration_unfold (alpha : fl) (it_steps : nat)
    (cm : checkp_method) (min_err : option fl) (s : LdftModel) :
  make_picard_iteration alpha it_steps cm min_err s =
  match fst (_set_new_checkp cm s) with
  | Raise e => (Raise e, s)
  | Ok checkp =>
      match picard_loop alpha cm min_err it_steps checkp s with
      | (Raise e, s1) => (Raise e, s1)
      | (Ok _, s1) =>
          match last (_it_hist s1) with
          | None => (Raise IndexError, s1)
          | Some l =>
              if (_it_counter s1 =? l)%Z then (Ok tt, s1)
              else (Ok tt, with_hist (_r_hist s1 ++ [_r s1])
                             (_it_hist s1 ++ [_it_counter s1]) s1)
          end
      end
  end.
Proof.
  pose proof (pure_run (_set_new_checkp cm) s (pure_set_new_checkp cm))
    as Hcp.
  destruct (fst (_set_new_checkp cm s)) as [checkp|e];
    unfold make_picard_iteration; unfold bind at 1; rewrite Hcp;
    [|reflexivity].
  unfold bind at 1.
  destruct (picard_loop alpha cm min_err it_steps checkp s) as [[[]|e] s1];
    [|reflexivity].
  unfold bind at 1. unfold get at 1.
  unfold bind at 1. unfold lift at 1. unfold py_last.
  destruct (last (_it_hist s1)) as [l|]; [|reflexivity].
  destruct (_it_counter s1 =? l)%Z; reflexivity.
Qed.

End DriverFacts.

(** ** What a call of the driver does to the histories *)

Section HistoryFacts.
Context `{Functional : LdftFunctional}.

Lemma advanced_refl (s : LdftModel) : advanced 0 s s.
Proof.
  exists [], [], []. rewrite !app_nil_r. simpl.
  repeat split; lia.
Qed.

Lemma advanced_trans (j k : nat) (a b c : LdftModel) :
  advanced j a b -> advanced k b c -> advanced (j + k) a c.
Proof.
  intros (rs & its & es & H1 & H2 & H3 & H4 & H5 & H6)
         (rs' & its' & es' & H1' & H2' & H3' & H4' & H5' & H6').
  exists (rs ++ rs'), (its ++ its'), (es ++ es').
  rewrite H1', H2', H3', H1, H2, H3, H6', H6, !app_assoc, !length_app.
  repeat split; lia.
Qed.

(** An update that returns a profile, with the entry that the loop adds
    to the error history. *)
Lemma advanced_update (alpha : fl) (s s1 : LdftModel) (r : list array)
    (error : list fl) :
  _make_picard_update alpha s = (Ok (Some (r, error)), s1) ->
  advanced 1 s (with_err_hist (_err_hist s1 ++ [error]) s1).
Proof.
  intros Hu. apply make_picard_update_frame in Hu
    as [(_ & _ & _ & Hrh & Heh & Hih & _) [Hc _]].
  exists [], [], [error]. simpl. rewrite !app_nil_r, Hrh, Heh, Hih, Hc.
  repeat split.
Qed.

(** An update that returns nothing or raises. *)
Lemma advanced_no_update (alpha : fl) (s s1 : LdftModel)
    (res : result (option (list array * list fl))) :
  _make_picard_update alpha s = (res, s1) ->
  match res with Ok (Some _) => False | _ => True end ->
  advanced 0 s s1.
Proof.
  intros Hu Hres. apply make_picard_update_frame in Hu
    as [(_ & _ & _ & Hrh & Heh & Hih & _) Hc].
  exists [], [], []. rewrite !app_nil_r, Hrh, Heh, Hih. simpl.
  destruct res as [[[r e]|]|e]; [contradiction| |];
    destruct Hc as [-> _]; repeat split; lia.
Qed.

Lemma advanced_checkpoint (o : list output) (s : LdftModel) :
  advanced 0 s
    (with_hist (_r_hist (with_stdout o s) ++ [_r (with_stdout o s)])
       (_it_hist (with_stdout o s) ++ [_it_counter (with_stdout o s)])
       (with_stdout o s)).
Proof.
  exists [_r s], [_it_counter s], []. simpl. rewrite app_nil_r.
  repeat split; lia.
Qed.

Lemma advanced_append (s : LdftModel) :
  advanced 0 s
    (with_hist (_r_hist s ++ [_r s]) (_it_hist s ++ [_it_counter s]) s).
Proof.
  exists [_r s], [_it_counter s], []. simpl. rewrite app_nil_r.
  repeat split; lia.
Qed.

(** The loop of the driver makes at most as many updates as it has
    rounds, and all of them when it ends normally and no minimal error is
    given. *)
Lemma picard_loop_advanced (alpha : fl) (cm : checkp_method)
    (min_err : option fl) (n : nat) :
  forall checkp s,
    exists k, (k <= n)%nat /\
      advanced k s (snd (picard_loop alpha cm min_err n checkp s)) /\
      (min_err = None ->
       fst (picard_loop alpha cm min_err n checkp s) = Ok tt -> k = n).
Proof.
  induction n as [|n IH]; intros checkp s.
  - exists 0%nat. split; [lia|]. split; [apply advanced_refl|reflexivity].
  - destruct (picard_loop_step alpha cm min_err n checkp s)
      as (res & s1 & Hu & Hstep).
    destruct res as [[[r error]|]|e].
    + pose proof (advanced_update alpha s s1 r error Hu) as H1.
      cbv zeta in Hstep.
      set (s2 := with_err_hist (_err_hist s1 ++ [error]) s1) in *.
      assert (Hgo : forall c s4, advanced 0 s2 s4 ->
                exists k, (k <= S n)%nat /\
                  advanced k s
                    (snd (if below_min_err min_err error then (Ok tt, s4)
                          else picard_loop alpha cm min_err n c s4)) /\
                  (min_err = None ->
                   fst (if below_min_err min_err error then (Ok tt, s4)
                        else picard_loop alpha cm min_err n c s4) = Ok tt ->
                   k = S n)).
      { intros c s4 H4.
        pose proof (advanced_trans _ _ _ _ _ H1 H4) as H14.
        destruct (below_min_err min_err error) eqn:Eb.
        - exists 1%nat. split; [lia|]. split; [exact H14|].
          intros ->. discriminate.
        - destruct (IH c s4) as (k & Hk & Hadv & Hall).
          exists (1 + 0 + k)%nat. split; [lia|].
          split; [exact (advanced_trans _ _ _ _ _ H14 Hadv)|].
          intros Hm Hok. rewrite (Hall Hm Hok). lia. }
      destruct (_it_counter s2 - checkp =? 0)%Z.
      * destruct (py_index error 0) as [e0|e0].
        -- destruct (fst (_set_new_checkp cm _)) as [c|e5].
           ++ rewrite Hstep. apply Hgo. apply advanced_checkpoint.
           ++ rewrite Hstep. exists (1 + 0)%nat. split; [lia|].
              split; [|discriminate].
              exact (advanced_trans _ _ _ _ _ H1 (advanced_checkpoint _ s2)).
        -- rewrite Hstep. exists 1%nat. split; [lia|].
           split; [exact H1|discriminate].
      * rewrite Hstep. apply Hgo. apply advanced_refl.
    + rewrite Hstep. exists 0%nat. split; [lia|].
      split; [exact (advanced_no_update _ _ _ _ Hu I)|discriminate].
    + rewrite Hstep. exists 0%nat. split; [lia|].
      split; [exact (advanced_no_update _ _ _ _ Hu I)|discriminate].
Qed.

(** The same for the driver. *)
Lemma make_picard_iteration_advanced (alpha : fl) (it_steps : nat)
    (cm : checkp_method) (min_err : option fl) (s : LdftModel) :
  exists k, (k <= it_steps)%nat /\
    advanced k s (snd (make_picard_iteration alpha it_steps cm min_err s)) /\
    (min_err = None ->
     fst (make_picard_iteration alpha it_steps cm min_err s) = Ok tt ->
     k = it_steps).
Proof.
  rewrite make_picard_iteration_unfold.
  destruct (fst (_set_new_checkp cm s)) as [checkp|e].
  2:{ exists 0%nat. split; [lia|]. split; [apply advanced_refl|discriminate]. }
  destruct (picard_loop_advanced alpha cm min_err it_steps checkp s)
    as (k & Hk & Hadv & Hall).
  destruct (picard_loop alpha cm min_err it_steps checkp s) as [[[]|e] s1];
    simpl in Hadv, Hall.
  2:{ exists k. split; [exact Hk|]. split; [exact Hadv|discriminate]. }
  exists k. split; [exact Hk|].
  destruct (last (_it_hist s1)) as [l|].
  2:{ split; [exact Hadv|discriminate]. }
  destruct (_it_counter s1 =? l)%Z; simpl.
  - split; [exact Hadv|]. intros Hm _. now apply Hall.
  - split.
    + replace k with (k + 0)%nat by lia.
      exact (advanced_trans _ _ _ _ _ Hadv (advanced_append s1)).
    + intros Hm _. now apply Hall.
Qed.

(** X1: however a call of [make_picard_iteration] ends, the
    three histories of the state after it are those before it with
    entries added at the end, and [_r_hist] and [_it_hist] have grown by
    the same number of entries: no entry of a history is ever rewritten
    or removed, and a profile of the history keeps its iteration index. *)
Theorem histories_append_only (alpha : fl) (it_steps : nat)
    (cm : checkp_method) (min_err : option fl) (s : LdftModel) :
  let s' := snd (make_picard_iteration alpha it_steps cm min_err s) in
  exists rs its es,
    _r_hist s' = _r_hist s ++ rs /\ _it_hist s' = _it_hist s ++ its /\
    _err_hist s' = _err_hist s ++ es /\ length rs = length its.
Proof.
  intros s'.
  destruct (make_picard_iteration_advanced alpha it_steps cm min_err s)
    as (k & _ & (rs & its & es & H1 & H2 & H3 & H4 & _) & _).
  exists rs, its, es. repeat split; assumption.
Qed.

(** X2: however a call of [make_picard_iteration] ends, it has
    made some number [k <= it_steps] of updates: the counter has grown by
    [k] and the error history by [k] entries, so a counter that counts the
    entries of the error history (as after [set_r]) still does; and
    [k = it_steps] when the call returns normally and no [min_err] is
    given. *)
Theorem counter_counts_updates (alpha : fl) (it_steps : nat)
    (cm : checkp_method) (min_err : option fl) (s : LdftModel) :
  let out := make_picard_iteration alpha it_steps cm min_err s in
  exists k, (k <= it_steps)%nat /\
    _it_counter (snd out) = (_it_counter s + Z.of_nat k)%Z /\
    length (_err_hist (snd out)) = (length (_err_hist s) + k)%nat /\
    (counts_inv s -> counts_inv (snd out)) /\
    (min_err = None -> fst out = Ok tt -> k = it_steps).
Proof.
  intros out.
  destruct (make_picard_iteration_advanced alpha it_steps cm min_err s)
    as (k & Hk & (rs & its & es & _ & _ & H3 & _ & H5 & H6) & Hall).
  fold out in H3, H6, Hall.
  exists k. split; [exact Hk|]. split; [exact H6|].
  split; [rewrite H3, length_app; lia|].
  split; [|exact Hall].
  unfold counts_inv. intros Hc. rewrite H6, H3, length_app, Hc. lia.
Qed.

End HistoryFacts.

(** [set_r] makes the counter count the entries of the error history. *)
Lemma set_r_counts_inv (r : list array) (s : LdftModel) :
  counts_inv (snd (set_r r s)).
Proof. reflexivity. Qed.

(** ** The last profile is in the history *)

Section SnapshotFacts.
Context `{Functional : LdftFunctional}.

Lemma picard_loop_snapshot (alpha : fl) (cm : checkp_method)
    (min_err : option fl) (n : nat) :
  forall checkp s, hist_inv s -> snapshot_inv s ->
    hist_inv (snd (picard_loop alpha cm min_err n checkp s)) /\
    snapshot_inv (snd (picard_loop alpha cm min_err n checkp s)).
Proof.
  induction n as [|n IH]; intros checkp s Hinv Hsnap; [now split|].
  destruct (picard_loop_step alpha cm min_err n checkp s)
    as (res & s1 & Hu & Hstep).
  pose proof (make_picard_update_frame alpha s res s1 Hu)
    as [(_ & _ & _ & Hrh & _ & Hih & _) Hc].
  destruct Hinv as [Hsorted Hle].
  destruct res as [[[r error]|]|e].
  - destruct Hc as [Hc Hr]. cbv zeta in Hstep.
    set (s2 := with_err_hist (_err_hist s1 ++ [error]) s1) in *.
    assert (Hs2 : StronglySorted Z.lt (_it_hist s2)) by (simpl; now rewrite Hih).
    assert (Hl2 : forall l, last (_it_hist s2) = Some l ->
                    (l < _it_counter s2)%Z).
    { simpl. rewrite Hih, Hc. intros l Hl. specialize (Hle l Hl). lia. }
    assert (Hinv2 : hist_inv s2).
    { split; [exact Hs2|]. intros l Hl. specialize (Hl2 l Hl). lia. }
    assert (Hsnap2 : snapshot_inv s2).
    { intros Hl. specialize (Hl2 _ Hl). lia. }
    assert (Hgo : forall c s4, hist_inv s4 -> snapshot_inv s4 ->
              hist_inv (snd (if below_min_err min_err error then (Ok tt, s4)
                             else picard_loop alpha cm min_err n c s4)) /\
              snapshot_inv
                (snd (if below_min_err min_err error then (Ok tt, s4)
                      else picard_loop alpha cm min_err n c s4))).
    { intros c s4 H4 H4'. destruct (below_min_err min_err error);
        [now split|now apply IH]. }
    destruct (_it_counter s2 - checkp =? 0)%Z.
    + destruct (py_index error 0) as [e0|e0].
      * set (s3 := with_stdout _ s2) in *.
        set (s4 := with_hist _ _ s3) in *.
        assert (Hinv4 : hist_inv s4) by exact (append_hist_inv s3 Hs2 Hl2).
        assert (Hsnap4 : snapshot_inv s4).
        { intros _. subst s4. simpl. apply last_snoc. }
        destruct (fst (_set_new_checkp cm s4)) as [c|e5]; rewrite Hstep.
        -- now apply Hgo.
        -- now split.
      * rewrite Hstep. now split.
    + rewrite Hstep. now apply Hgo.
  - destruct Hc as [Hc Hr]. rewrite Hstep. simpl. split.
    + split; [now rewrite Hih|]. rewrite Hih, Hc. exact Hle.
    + unfold snapshot_inv. rewrite Hih, Hc, Hrh, Hr. exact Hsnap.
  - destruct Hc as [Hc Hr]. rewrite Hstep. simpl. split.
    + split; [now rewrite Hih|]. rewrite Hih, Hc. exact Hle.
    + unfold snapshot_inv. rewrite Hih, Hc, Hrh, Hr. exact Hsnap.
Qed.

(** X3: a call of [make_picard_iteration] that returns normally
    leaves the current profile [_r] as the last entry of [_r_hist] (with
    the counter as the last entry of [_it_hist]), when it starts from a
    state with the history invariant whose history, if it ends with the
    counter, ends with the profile; [set_r] gives such a state and the
    call another one. *)
Theorem last_snapshot_is_profile (alpha : fl) (it_steps : nat)
    (cm : checkp_method) (min_err : option fl) (s s' : LdftModel) :
  hist_inv s -> snapshot_inv s ->
  make_picard_iteration alpha it_steps cm min_err s = (Ok tt, s') ->
  last (_r_hist s') = Some (_r s') /\
  last (_it_hist s') = Some (_it_counter s') /\
  hist_inv s' /\ snapshot_inv s'.
Proof.
  intros Hinv Hsnap. rewrite make_picard_iteration_unfold.
  destruct (fst (_set_new_checkp cm s)) as [checkp|e]; [|discriminate].
  destruct (picard_loop_snapshot alpha cm min_err it_steps checkp s Hinv Hsnap)
    as [[Hs1 Hl1] Hsnap1].
  destruct (picard_loop alpha cm min_err it_steps checkp s) as [[[]|e] s1];
    [|discriminate].
  simpl in Hs1, Hl1, Hsnap1.
  destruct (last (_it_hist s1)) as [l|] eqn:El; [|discriminate].
  destruct (Z.eqb_spec (_it_counter s1) l) as [Heq|Hne]; intros [= <-].
  - subst l. split; [exact (Hsnap1 El)|]. split; [exact El|].
    split; [|exact Hsnap1]. split; [exact Hs1|]. rewrite El. exact Hl1.
  - simpl. rewrite !last_snoc. split; [reflexivity|]. split; [reflexivity|].
    assert (Hinv' : hist_inv (snd (_append_hist s1))).
    { apply append_hist_inv; [exact Hs1|]. intros l' Hl'.
      rewrite El in Hl'. specialize (Hl1 l' Hl'). injection Hl' as <-. lia. }
    split; [exact Hinv'|]. intros _. simpl. apply last_snoc.
Qed.

(** [set_r] gives a state whose history ends with the profile. *)
Lemma set_r_snapshot_inv (r : list array) (s : LdftModel) :
  snapshot_inv (snd (set_r r s)).
Proof. intros _. reflexivity. Qed.

End SnapshotFacts.

Lemma last_snapshot_is_profile_witness :
  let run := @make_picard_iteration ideal_gas (Fin (1/2)) 3 (CpInt 2) None
               model0 in
  fst run = Ok tt /\
  last (_r_hist (snd run)) = Some (_r (snd run)) /\
  last (_it_hist (snd run)) = Some (_it_counter (snd run)) /\
  hist_inv (snd run) /\ snapshot_inv (snd run).
Proof.
  intros run.
  assert (H0 : hist_inv model0).
  { split; [repeat constructor|]. intros l [= <-]. simpl. lia. }
  assert (H0' : snapshot_inv model0) by (intros _; reflexivity).
  assert (H1 : fst run = Ok tt) by (vm_compute; reflexivity).
  split; [exact H1|].
  apply (@last_snapshot_is_profile ideal_gas (Fin (1/2)) 3 (CpInt 2) None
           model0 (snd run) H0 H0').
  rewrite <- H1. apply surjective_pairing.
Defined.

(** ** [set_hist] and the counter *)

Section SetHistFacts.
Context `{Functional : LdftFunctional}.

Lemma set_hist_run (r_hist : list (list array)) (it_hist : list Z)
    (err_hist : list (list fl)) (s : LdftModel) (r : list array) :
  last r_hist = Some r ->
  set_hist r_hist it_hist err_hist s =
  (Ok tt, with_r r (with_err_hist err_hist (with_hist r_hist it_hist s))).
Proof.
  intros Hr. unfold set_hist, py_last. unfold_monad. simpl.
  rewrite Hr. reflexivity.
Qed.

(** X4: [set_hist] with a history that is not empty takes the
    last profile of the history as [_r] and leaves [_it_counter] as it
    was.  When the last index [l] of the history it is given lies more
    than [n] beyond the counter, every call of [make_picard_iteration]
    with [n] steps that follows and returns normally ends with an
    [_it_hist] that does not increase strictly: the index it appends lies
    below [l]. *)
Theorem set_hist_keeps_counter (r_hist : list (list array))
    (it_hist : list Z) (err_hist : list (list fl)) (s : LdftModel)
    (l : Z) (n : nat) :
  r_hist <> [] -> last it_hist = Some l ->
  (_it_counter s + Z.of_nat n < l)%Z ->
  exists s1,
    set_hist r_hist it_hist err_hist s = (Ok tt, s1) /\
    last r_hist = Some (_r s1) /\ _it_hist s1 = it_hist /\
    _it_counter s1 = _it_counter s /\
    forall alpha cm min_err s',
      make_picard_iteration alpha n cm min_err s1 = (Ok tt, s') ->
      ~ StronglySorted Z.lt (_it_hist s').
Proof.
  intros Hne Hl Hlt.
  destruct (last r_hist) as [r|] eqn:Er.
  2:{ apply last_None in Er. contradiction. }
  exists (with_r r (with_err_hist err_hist (with_hist r_hist it_hist s))).
  split; [now apply set_hist_run|].
  split; [reflexivity|]. split; [reflexivity|]. split; [reflexivity|].
  intros alpha cm min_err s' Hrun Hsorted.
  set (s1 := with_r r _) in *.
  pose proof (make_picard_iteration_last _ _ _ _ _ _ Hrun) as Hlast.
  destruct (make_picard_iteration_advanced alpha n cm min_err s1)
    as (k & Hk & (rs & its & es & _ & H2 & _ & _ & _ & H6) & _).
  rewrite Hrun in H2, H6. simpl in H2, H6.
  apply last_Some in Hl as [h ->].
  rewrite H2 in Hlast, Hsorted.
  destruct its as [|x its _] using rev_ind.
  - rewrite app_nil_r, last_snoc in Hlast. injection Hlast as Hlast. lia.
  - rewrite !app_assoc, last_snoc in Hlast. injection Hlast as ->.
    pose proof (StronglySorted_app_1_elem_of _ _ _ l (_it_counter s')
                  Hsorted) as Hlt'.
    assert (l < _it_counter s')%Z; [|lia].
    apply Hlt'; [apply elem_of_app; right; apply list_elem_of_here|].
    apply elem_of_app. right. apply list_elem_of_here.
Qed.

End SetHistFacts.

Lemma set_hist_keeps_counter_witness :
  exists s1,
    set_hist two_snapshots [0; 100]%Z [] model0 = (Ok tt, s1) /\
    last two_snapshots = Some (_r s1) /\ _it_hist s1 = [0; 100]%Z /\
    _it_counter s1 = _it_counter model0 /\
    forall alpha cm min_err s',
      @make_picard_iteration ideal_gas alpha 3 cm min_err s1 = (Ok tt, s') ->
      ~ StronglySorted Z.lt (_it_hist s').
Proof.
  apply (@set_hist_keeps_counter ideal_gas two_snapshots [0; 100]%Z []
           model0 100%Z 3).
  - discriminate.
  - reflexivity.
  - simpl. lia.
Defined.

(** ** The grand potential *)

Section OmFacts.
Context `{Functional : LdftFunctional}.

(** The loop of [cal_Om] over species whose chemical potential is set. *)
Lemma Om_loop_prefix (s : LdftModel) (pre rest : list nat) :
  (forall i, In i pre ->
     exists m r_i, _mu s !! i = Some (Some m) /\ _r s !! i = Some r_i) ->
  forall acc,
    Om_loop (pre ++ rest) acc s =
    Om_loop rest (fsub acc (fsum (omap (om_term s) pre))) s.
Proof.
  induction pre as [|i pre IH]; intros Hset acc.
  - simpl. unfold fsum. simpl. now rewrite fsub_0_r.
  - destruct (Hset i (or_introl eq_refl)) as (m & r_i & Hm & Hr).
    cbn [app Om_loop]. unfold_monad. unfold py_index. rewrite Hm, Hr.
    rewrite IH by (intros j Hj; apply Hset; now right).
    cbn [omap list_omap]. unfold om_term at 2. rewrite Hm, Hr.
    now rewrite fsum_cons, fsub_fsub.
Qed.

(** X5: when the chemical potential of every species is set,
    [cal_Om] returns the free energy [cal_F] minus the sum over all
    species of [_mu[i]] times the lattice sum of [_r[i]], whatever
    [_mu_fix] says, and does not change the state. *)
Theorem cal_Om_value (s : LdftModel) :
  (forall i, (i < length (_mu_fix s))%nat ->
     exists m r_i, _mu s !! i = Some (Some m) /\ _r s !! i = Some r_i) ->
  cal_Om s = (Ok (Om_spec s), s).
Proof.
  intros Hset. unfold cal_Om, Om_spec.
  unfold bind at 1. unfold get at 1.
  rewrite <- (app_nil_r (seq 0 (length (_mu_fix s)))) at 1.
  rewrite Om_loop_prefix; [reflexivity|].
  intros i Hi. apply Hset. apply in_seq in Hi. lia.
Qed.

(** X6: [cal_Om] raises [TypeError] when it meets a species whose
    chemical potential is [None], as that of a canonical species is before
    its first update, the species before it having theirs set. *)
Theorem cal_Om_unset_mu (s : LdftModel) (i : nat) (r_i : array) :
  (i < length (_mu_fix s))%nat ->
  _mu s !! i = Some None -> _r s !! i = Some r_i ->
  (forall j, (j < i)%nat ->
     exists m r_j, _mu s !! j = Some (Some m) /\ _r s !! j = Some r_j) ->
  cal_Om s = (Raise TypeError, s).
Proof.
  intros Hi Hm Hr Hset. unfold cal_Om.
  unfold bind at 1. unfold get at 1.
  replace (seq 0 (length (_mu_fix s)))
    with (seq 0 i ++ i :: seq (S i) (length (_mu_fix s) - S i)).
  2:{ change (i :: seq (S i) (length (_mu_fix s) - S i))
        with (seq i (S (length (_mu_fix s) - S i))).
      rewrite <- seq_app. f_equal. lia. }
  rewrite Om_loop_prefix.
  2:{ intros j Hj. apply Hset. apply in_seq in Hj. lia. }
  cbn [Om_loop]. unfold_monad. unfold py_index. rewrite Hm, Hr.
  reflexivity.
Qed.

Lemma Om_loop_semi (s : LdftModel) (idxs : list nat) :
  (forall i, In i idxs -> _mu_fix s !! i = Some true) ->
  forall acc, Om_loop idxs acc s = semi_Om_loop idxs acc s.
Proof.
  induction idxs as [|i idxs IH]; intros Hgc acc; [reflexivity|].
  cbn [Om_loop semi_Om_loop]. unfold_monad. unfold py_index.
  rewrite (Hgc i (or_introl eq_refl)).
  destruct (_mu s !! i) as [[m|]|]; try reflexivity;
    destruct (_r s !! i) as [r_i|]; try reflexivity.
  simpl. apply IH. intros j Hj. apply Hgc. now right.
Qed.

(** X7: on a state all of whose species are grand-canonical,
    [cal_Om] and [cal_semi_Om] do the same: they return the same value or
    raise the same exception. *)
Theorem cal_Om_all_grand_canonical (s : LdftModel) :
  Forall (fun b => b = true) (_mu_fix s) ->
  cal_Om s = cal_semi_Om s.
Proof.
  intros Hall. unfold cal_Om, cal_semi_Om.
  unfold bind, get.
  apply Om_loop_semi. intros i Hi. apply in_seq in Hi.
  destruct (lookup_lt_is_Some_2 (_mu_fix s) i ltac:(lia)) as [b Hb].
  rewrite Hb. f_equal. exact (Forall_lookup_1 _ _ _ _ Hall Hb).
Qed.

End OmFacts.

Lemma cal_Om_value_witness :
  @cal_Om ideal_gas model_one_gc =
    (Ok (@Om_spec ideal_gas model_one_gc), model_one_gc).
Proof.
  apply (@cal_Om_value ideal_gas model_one_gc).
  intros [|i] Hi; simpl in Hi; [|lia].
  eexists _, _. split; reflexivity.
Defined.

Lemma cal_Om_unset_mu_witness :
  @cal_Om ideal_gas model_gc = (Raise TypeError, model_gc).
Proof.
  apply (@cal_Om_unset_mu ideal_gas model_gc 1 [Fin (1/2); Fin (1/2)]).
  - simpl. lia.
  - reflexivity.
  - reflexivity.
  - intros [|j] Hj; [|lia]. eexists _, _. split; reflexivity.
Defined.

Lemma cal_Om_all_grand_canonical_witness :
  @cal_Om ideal_gas model_one_gc = @cal_semi_Om ideal_gas model_one_gc.
Proof.
  apply (@cal_Om_all_grand_canonical ideal_gas model_one_gc).
  repeat constructor.
Defined.

(** ** The checkpoint schedule *)



Section ScheduleFacts.
Context `{Functional : LdftFunctional}.

Lemma int_checkpoints_none (l k c : Z) :
  (0 < k)%Z -> (l <= c < l + k)%Z -> int_checkpoints l k c = [].
Proof.
  intros Hk Hc. unfold int_checkpoints.
  rewrite Z.div_small by lia. reflexivity.
Qed.

Lemma int_checkpoints_cons (l k : Z) (n : nat) :
  (0 < k)%Z ->
  int_checkpoints l k (l + k + Z.of_nat n) =
  (l + k)%Z :: int_checkpoints (l + k) k (l + k + Z.of_nat n).
Proof.
  intros Hk. unfold int_checkpoints.
  replace (l + k + Z.of_nat n - l)%Z with (1 * k + Z.of_nat n)%Z by lia.
  replace (l + k + Z.of_nat n - (l + k))%Z with (Z.of_nat n) by lia.
  rewrite Z.div_add_l by lia.
  assert (H0 : (0 <= Z.of_nat n / k)%Z) by (apply Z.div_pos; lia).
  rewrite Z2Nat.inj_add by lia. change (Z.to_nat 1) with 1%nat.
  cbn [Nat.add seq map]. f_equal; [lia|].
  rewrite <- seq_shift, map_map. apply map_ext. intros j. lia.
Qed.

Lemma last_int_checkpoints (h : list Z) (l k c : Z) :
  (0 < k)%Z -> (l <= c)%Z -> last h = Some l ->
  last (h ++ int_checkpoints l k c) = Some (l + (c - l) / k * k)%Z.
Proof.
  intros Hk Hc Hl. unfold int_checkpoints.
  assert (H0 : (0 <= (c - l) / k)%Z) by (apply Z.div_pos; lia).
  destruct (Z.to_nat ((c - l) / k)) as [|m] eqn:Em.
  - simpl. rewrite app_nil_r, Hl. f_equal.
    assert ((c - l) / k = 0)%Z by lia. lia.
  - replace (S m) with (m + 1)%nat by lia.
    rewrite seq_app, map_app, app_assoc. simpl. rewrite last_snoc.
    f_equal. lia.
Qed.

(** The loop of the driver under an integer policy: with the pending
    checkpoint [l + k] it records the multiples of [k] beyond [l]. *)
Lemma picard_loop_int_schedule (alpha : fl) (k : Z) (n : nat) :
  (0 < k)%Z ->
  forall s l s',
    last (_it_hist s) = Some l ->
    (l <= _it_counter s < l + k)%Z ->
    picard_loop alpha (CpInt k) None n (l + k) s = (Ok tt, s') ->
    _it_hist s' =
      _it_hist s ++ int_checkpoints l k (_it_counter s + Z.of_nat n) /\
    _it_counter s' = (_it_counter s + Z.of_nat n)%Z.
Proof.
  intros Hk. induction n as [|n IH]; intros s l s' Hl Hc Hrun.
  - injection Hrun as <-. rewrite Z.add_0_r.
    rewrite int_checkpoints_none by assumption.
    now rewrite app_nil_r.
  - destruct (picard_loop_step alpha (CpInt k) None n (l + k) s)
      as (res & s1 & Hu & Hstep).
    pose proof (make_picard_update_frame alpha s res s1 Hu)
      as [(_ & _ & _ & _ & _ & Hih & _) Hc1].
    destruct res as [[[r error]|]|e];
      [|rewrite Hstep in Hrun; discriminate..].
    destruct Hc1 as [Hc1 _]. cbv zeta in Hstep.
    set (s2 := with_err_hist (_err_hist s1 ++ [error]) s1) in *.
    change (below_min_err None error) with false in Hstep.
    destruct (Z.eqb_spec (_it_counter s2 - (l + k)) 0) as [Heq|Hne].
    + destruct (py_index error 0) as [e0|e0];
        [|rewrite Hstep in Hrun; discriminate].
      set (s3 := with_stdout _ s2) in *.
      set (s4 := with_hist _ _ s3) in *.
      assert (Hl4 : last (_it_hist s4) = Some (l + k)%Z).
      { subst s4. simpl. rewrite last_snoc. f_equal. simpl in Heq. lia. }
      rewrite (set_new_checkp_int s4 _ k Hl4) in Hstep. cbn [fst] in Hstep.
      rewrite Hstep in Hrun.
      assert (Hc4 : _it_counter s4 = (l + k)%Z) by (simpl in *; lia).
      destruct (IH s4 (l + k)%Z s' Hl4 ltac:(lia) Hrun) as [Hh Hcnt].
      rewrite Hh, Hcnt, Hc4. split; [|simpl in *; lia].
      replace (_it_counter s + Z.of_nat (S n))%Z
        with (l + k + Z.of_nat n)%Z by (simpl in *; lia).
      rewrite int_checkpoints_cons by exact Hk.
      subst s4. simpl. rewrite Hih, <- app_assoc. simpl.
      repeat f_equal. simpl in Heq. lia.
    + rewrite Hstep in Hrun.
      assert (Hl2 : last (_it_hist s2) = Some l) by (simpl; now rewrite Hih).
      destruct (IH s2 l s' Hl2 ltac:(simpl in *; lia) Hrun) as [Hh Hcnt].
      rewrite Hh, Hcnt. simpl. rewrite Hih, Hc1.
      split; [do 2 f_equal|]; lia.
Qed.

(** X9: under an integer policy [k > 0] and without [min_err],
    a call of [make_picard_iteration] with [n] steps that returns
    normally, started with a history whose last index [l] is less than
    [k] behind the counter [c], appends to [_it_hist] the indices
    [l + k], [l + 2 k], ... up to [c + n], and then [c + n] itself unless
    it is the last of them. *)
Theorem int_policy_schedule (alpha : fl) (k : Z) (n : nat)
    (s s' : LdftModel) (l : Z) :
  (0 < k)%Z -> last (_it_hist s) = Some l ->
  (l <= _it_counter s < l + k)%Z ->
  make_picard_iteration alpha n (CpInt k) None s = (Ok tt, s') ->
  let c' := (_it_counter s + Z.of_nat n)%Z in
  _it_counter s' = c' /\
  _it_hist s' =
    _it_hist s ++ int_checkpoints l k c' ++
    (if ((c' - l) mod k =? 0)%Z then [] else [c']).
Proof.
  intros Hk Hl Hc. rewrite make_picard_iteration_unfold.
  rewrite (set_new_checkp_int s l k Hl). simpl.
  destruct (picard_loop alpha (CpInt k) None n (l + k) s) as [[[]|e] s1]
    eqn:Eloop; [|discriminate].
  destruct (picard_loop_int_schedule alpha k n Hk s l s1 Hl Hc Eloop)
    as [Hh Hcnt].
  pose proof (last_int_checkpoints (_it_hist s) l k
                (_it_counter s + Z.of_nat n) Hk ltac:(lia) Hl) as Hlast.
  rewrite <- Hh in Hlast. rewrite Hlast.
  pose proof (Z.div_mod (_it_counter s + Z.of_nat n - l) k ltac:(lia)) as Hdm.
  intros Hrun. cbv zeta.
  destruct (Z.eqb_spec (_it_counter s1)
              (l + (_it_counter s + Z.of_nat n - l) / k * k)) as [He|Hn];
    injection Hrun as <-.
  - split; [exact Hcnt|].
    destruct (Z.eqb_spec ((_it_counter s + Z.of_nat n - l) mod k) 0);
      [|lia].
    now rewrite app_nil_r.
  - simpl. split; [exact Hcnt|].
    destruct (Z.eqb_spec ((_it_counter s + Z.of_nat n - l) mod k) 0);
      [lia|].
    now rewrite Hh, Hcnt, app_assoc.
Qed.

End ScheduleFacts.

Lemma int_policy_schedule_witness :
  let run := @make_picard_iteration ideal_gas (Fin (1/2)) 7 (CpInt 3) None
               model0 in
  fst run = Ok tt /\
  _it_counter (snd run) = 7%Z /\ _it_hist (snd run) = [0; 3; 6; 7]%Z.
Proof.
  intros run.
  assert (H1 : fst run = Ok tt) by (vm_compute; reflexivity).
  split; [exact H1|].
  apply (@int_policy_schedule ideal_gas (Fin (1/2)) 3 7 model0 (snd run) 0).
  - lia.
  - reflexivity.
  - simpl. lia.
  - rewrite <- H1. apply surjective_pairing.
Defined.

(** ** The lattice gas of [lg_2d_highl.py] *)




Section HighlanderFacts.
Context `{Functional : LdftFunctional}.

(** X12: for the three species of [LG2dAOHighl] with canonical
    colloids ([_mu_fix] is [False, True, True]) and the chemical
    potentials of the polymer clusters set, [cal_F_lg] returns what
    [cal_semi_Om] returns, as its docstring says, and neither changes the
    state. *)
Theorem cal_F_lg_is_semi_Om (s : LdftModel) (m1 m2 : fl)
    (r1 r2 : array) :
  _mu_fix s = [false; true; true] ->
  _mu s !! 1%nat = Some (Some m1) -> _mu s !! 2%nat = Some (Some m2) ->
  _r s !! 1%nat = Some r1 -> _r s !! 2%nat = Some r2 ->
  cal_F_lg s = cal_semi_Om s /\
  cal_F_lg s =
    (Ok (fsub (cal_F s) (fadd (fmul m1 (np_sum r1)) (fmul m2 (np_sum r2)))),
     s).
Proof.
  intros Hfix Hm1 Hm2 Hr1 Hr2.
  assert (HF : cal_F_lg s =
            (Ok (fsub (cal_F s)
                   (fadd (fmul m1 (np_sum r1)) (fmul m2 (np_sum r2)))), s)).
  { unfold cal_F_lg. unfold_monad. unfold py_index.
    rewrite Hm1, Hm2, Hr1, Hr2. reflexivity. }
  split; [|exact HF]. rewrite HF.
  unfold cal_semi_Om. unfold bind at 1. unfold get at 1.
  rewrite semi_Om_loop_spec.
  - do 3 f_equal. rewrite Hfix. cbn [length seq omap list_omap].
    unfold gc_term. rewrite Hfix, Hm1, Hm2, Hr1, Hr2. simpl.
    rewrite !fsum_cons. unfold fsum at 1. simpl. now rewrite fadd_0_r.
  - intros i Hi. apply in_seq in Hi. lia.
  - intros i Hi. rewrite Hfix in Hi.
    destruct i as [|[|[|i]]]; simpl in Hi; try discriminate; eauto.
Qed.

End HighlanderFacts.

Lemma cal_F_lg_is_semi_Om_witness :
  @cal_F_lg ideal_gas model_ao = @cal_semi_Om ideal_gas model_ao /\
  @cal_F_lg ideal_gas model_ao =
    (Ok (fsub (@cal_F ideal_gas model_ao)
           (fadd (fmul (Fin 1) (np_sum [Fin (1/4); Fin (1/4)]))
                 (fmul (Fin 1) (np_sum [Fin (1/8); Fin (1/8)])))),
     model_ao).
Proof.
  apply (@cal_F_lg_is_semi_Om ideal_gas model_ao); reflexivity.
Defined.

(** ** Functions of the packing fraction and of the bulk density *)

Section Analysis.
Local Open Scope R_scope.

(** A derivative depends on the function near the point only. *)
Lemma derivable_pt_lim_local (f g : R -> R) (x l d : R) :
  (0 < d)%R -> (forall y, (Rabs (y - x) < d)%R -> f y = g y) ->
  derivable_pt_lim g x l -> derivable_pt_lim f x l.
Proof.
  intros Hd Heq Hg eps Heps. destruct (Hg eps Heps) as [delta Hdelta].
  exists (mkposreal (Rmin d delta) (Rmin_pos d delta Hd (cond_pos delta))).
  intros h Hh Habs. simpl in Habs.
  rewrite (Heq (x + h)%R), (Heq x).
  - apply Hdelta; [exact Hh|].
    eapply Rlt_le_trans; [exact Habs|apply Rmin_r].
  - replace (x - x)%R with 0%R by lra. now rewrite Rabs_R0.
  - replace (x + h - x)%R with h by lra.
    eapply Rlt_le_trans; [exact Habs|apply Rmin_l].
Qed.

Lemma derivable_pt_lim_value (f : R -> R) (x l l' : R) :
  derivable_pt_lim f x l -> l = l' -> derivable_pt_lim f x l'.
Proof. now intros H <-. Qed.

Lemma dlim_one_minus (x : R) :
  derivable_pt_lim (fct_cte 1 - id)%F x (0 - 1).
Proof.
  apply derivable_pt_lim_minus;
    [apply derivable_pt_lim_const|apply derivable_pt_lim_id].
Qed.

Lemma dlim_ln_one_minus (x : R) :
  (x < 1)%R ->
  derivable_pt_lim (comp ln (fct_cte 1 - id)%F) x (/ (1 - x) * (0 - 1)).
Proof.
  intros Hx. apply derivable_pt_lim_comp; [apply dlim_one_minus|].
  apply (derivable_pt_lim_ln (1 - x)). lra.
Qed.

(** The derivative of [y + (1 - y) ln (1 - y)]. *)
Lemma dlim_phi0 (x : R) :
  (x < 1)%R ->
  derivable_pt_lim (fun y => y + (1 - y) * ln (1 - y))%R x (- ln (1 - x)).
Proof.
  intros Hx.
  apply (derivable_pt_lim_value
           (id + (fct_cte 1 - id) * comp ln (fct_cte 1 - id))%F x
           (1 + ((0 - 1) * comp ln (fct_cte 1 - id)%F x +
                 (fct_cte 1 - id)%F x * (/ (1 - x) * (0 - 1))))).
  - apply derivable_pt_lim_plus; [apply derivable_pt_lim_id|].
    apply derivable_pt_lim_mult;
      [apply dlim_one_minus|now apply dlim_ln_one_minus].
  - unfold comp, minus_fct, fct_cte, id. field. lra.
Qed.

(** The derivative of [- ln (1 - y)]. *)
Lemma dlim_dphi0 (x : R) :
  (x < 1)%R ->
  derivable_pt_lim (fun y => - ln (1 - y))%R x (1 / (1 - x)).
Proof.
  intros Hx.
  apply (derivable_pt_lim_value (- comp ln (fct_cte 1 - id))%F x
           (- (/ (1 - x) * (0 - 1)))).
  - apply derivable_pt_lim_opp. now apply dlim_ln_one_minus.
  - field. lra.
Qed.

(** The derivative of [y (ln y - 1)]. *)
Lemma dlim_xlnx (x : R) :
  (0 < x)%R ->
  derivable_pt_lim (fun y => y * (ln y - 1))%R x (ln x).
Proof.
  intros Hx.
  apply (derivable_pt_lim_value (id * (ln - fct_cte 1))%F x
           (1 * (ln - fct_cte 1)%F x + id x * (/ x - 0))).
  - apply derivable_pt_lim_mult; [apply derivable_pt_lim_id|].
    apply derivable_pt_lim_minus;
      [now apply derivable_pt_lim_ln|apply derivable_pt_lim_const].
  - unfold minus_fct, fct_cte, id. field. lra.
Qed.

(** The derivative of [c (y y)]. *)
Lemma dlim_square (c x : R) :
  derivable_pt_lim (fun y => c * (y * y))%R x (c * (2 * x)).
Proof.
  apply (derivable_pt_lim_value (mult_real_fct c (id * id)%F) x
           (c * (1 * id x + id x * 1))).
  - apply derivable_pt_lim_scal.
    apply derivable_pt_lim_mult; apply derivable_pt_lim_id.
  - unfold id. ring.
Qed.

Lemma Phi_0_value (x : R) :
  (x < 1)%R ->
  _cal_Phi_0 (Fin x) = Fin (x + (1 - x) * ln (1 - x)) /\
  _cal_dPhi_0 (Fin x) = Fin (- ln (1 - x)) /\
  _cal_d2Phi_0 (Fin x) = Fin (1 / (1 - x)).
Proof.
  intros Hx. unfold _cal_Phi_0, _cal_dPhi_0, _cal_d2Phi_0. simpl.
  destruct (Rlt_dec 0 (1 + - x)) as [_|H]; [|lra].
  destruct (Req_dec_T (1 + - x) 0) as [H|_]; [lra|].
  repeat split.
Qed.

(** X13: below the packing fraction 1 the three functions are
    finite, [_cal_dPhi_0] is the derivative of [_cal_Phi_0] and
    [_cal_d2Phi_0] that of [_cal_dPhi_0], as their docstrings say. *)
Theorem Phi_0_derivatives (x : R) :
  (x < 1)%R ->
  derivable_pt_lim (fun y => real_of (_cal_Phi_0 (Fin y))) x
    (real_of (_cal_dPhi_0 (Fin x))) /\
  derivable_pt_lim (fun y => real_of (_cal_dPhi_0 (Fin y))) x
    (real_of (_cal_d2Phi_0 (Fin x))) /\
  is_fin (_cal_Phi_0 (Fin x)) /\ is_fin (_cal_dPhi_0 (Fin x)) /\
  is_fin (_cal_d2Phi_0 (Fin x)).
Proof.
  intros Hx. destruct (Phi_0_value x Hx) as (H0 & H1 & H2).
  rewrite H0, H1, H2. cbn [real_of is_fin].
  assert (Hnear : forall y, (Rabs (y - x) < 1 - x)%R -> (y < 1)%R).
  { intros y Hy. apply Rabs_def2 in Hy. lra. }
  split; [|split; [|repeat split]].
  - apply (derivable_pt_lim_local _
             (fun y => y + (1 - y) * ln (1 - y))%R x _ (1 - x));
      [lra| |now apply dlim_phi0].
    intros y Hy. destruct (Phi_0_value y (Hnear y Hy)) as (-> & _).
    reflexivity.
  - apply (derivable_pt_lim_local _ (fun y => - ln (1 - y))%R x _ (1 - x));
      [lra| |now apply dlim_dphi0].
    intros y Hy. destruct (Phi_0_value y (Hnear y Hy)) as (_ & -> & _).
    reflexivity.
Qed.

Lemma Phi_0_derivatives_witness :
  derivable_pt_lim (fun y => real_of (_cal_Phi_0 (Fin y))) (1/2)
    (real_of (_cal_dPhi_0 (Fin (1/2)))) /\
  derivable_pt_lim (fun y => real_of (_cal_dPhi_0 (Fin y))) (1/2)
    (real_of (_cal_d2Phi_0 (Fin (1/2)))) /\
  is_fin (_cal_Phi_0 (Fin (1/2))) /\ is_fin (_cal_dPhi_0 (Fin (1/2))) /\
  is_fin (_cal_d2Phi_0 (Fin (1/2))).
Proof. apply (Phi_0_derivatives (1/2)). lra. Defined.

(** X14: at the packing fraction 1 [_cal_Phi_0] is NaN (from
    [0 * log 0]) and not its limit 1, and the two derivatives are plus
    infinity; beyond 1 [_cal_Phi_0] and [_cal_dPhi_0] are NaN and
    [_cal_d2Phi_0] is finite and negative. *)
Theorem Phi_0_beyond_full_packing (x : R) :
  (1 <= x)%R ->
  _cal_Phi_0 (Fin x) = NaN /\
  _cal_dPhi_0 (Fin x) = (if Req_dec_T x 1 then PInf else NaN) /\
  _cal_d2Phi_0 (Fin x) =
    (if Req_dec_T x 1 then PInf else Fin (1 / (1 - x))).
Proof.
  intros Hx. unfold _cal_Phi_0, _cal_dPhi_0, _cal_d2Phi_0. simpl.
  destruct (Rlt_dec 0 (1 + - x)) as [H|_]; [lra|].
  destruct (Req_dec_T x 1) as [->|Hne].
  - destruct (Req_dec_T (1 + - (1)) 0) as [_|H]; [|lra]. simpl.
    unfold inf_signed.
    destruct (Req_dec_T (1 + - (1)) 0) as [_|H]; [|lra].
    destruct (Req_dec_T 1 0) as [H|_]; [lra|].
    destruct (Rlt_dec 0 1) as [_|H]; [|lra]. repeat split.
  - destruct (Req_dec_T (1 + - x) 0) as [H|_]; [lra|]. repeat split.
Qed.

Lemma Phi_0_beyond_full_packing_witness :
  _cal_Phi_0 (Fin 1) = NaN /\
  _cal_dPhi_0 (Fin 1) = (if Req_dec_T 1 1 then PInf else NaN) /\
  _cal_d2Phi_0 (Fin 1) = (if Req_dec_T 1 1 then PInf else Fin (1 / (1 - 1))).
Proof. apply (Phi_0_beyond_full_packing 1). lra. Defined.

Lemma bulk_values (rho e : R) :
  (0 < rho < 1)%R ->
  cal_bulk_f (BFloat (Fin rho)) (Fin e) =
    Ok (Fin (rho * (ln rho - 1) + (rho + (1 - rho) * ln (1 - rho)) +
             - 3 * e * (rho * rho))) /\
  cal_bulk_mu (BFloat (Fin rho)) (Fin e) =
    Ok (Fin (ln (rho / (1 - rho)) - e * 6 * rho)).
Proof.
  intros Hr. unfold cal_bulk_f, cal_bulk_mu. simpl.
  destruct (Rlt_dec 0 rho) as [_|H]; [|lra].
  destruct (Rlt_dec 0 (1 + - rho)) as [_|H]; [|lra].
  destruct (Req_dec_T (1 + - rho) 0) as [H|_]; [lra|]. simpl.
  assert (0 < rho / (1 + - rho))%R by (apply Rdiv_lt_0_compat; lra).
  destruct (Rlt_dec 0 (rho / (1 + - rho))) as [_|H']; [|contradiction].
  split; reflexivity.
Qed.

(** X15: for a bulk density between 0 and 1 the chemical potential
    [cal_bulk_mu] is the derivative of the free energy density
    [cal_bulk_f] with respect to the density. *)
Theorem bulk_mu_is_derivative_of_f (rho e : R) :
  (0 < rho < 1)%R ->
  derivable_pt_lim
    (fun y => real_of_result (cal_bulk_f (BFloat (Fin y)) (Fin e))) rho
    (real_of_result (cal_bulk_mu (BFloat (Fin rho)) (Fin e))).
Proof.
  intros Hr. destruct (bulk_values rho e Hr) as [_ ->].
  cbn [real_of_result real_of].
  set (d := Rmin rho (1 - rho)).
  assert (Hd : (0 < d)%R) by (apply Rmin_pos; lra).
  assert (Hnear : forall y, (Rabs (y - rho) < d)%R -> (0 < y < 1)%R).
  { intros y Hy. apply Rabs_def2 in Hy.
    pose proof (Rmin_l rho (1 - rho)). pose proof (Rmin_r rho (1 - rho)).
    fold d in H, H0. lra. }
  apply (derivable_pt_lim_local _
           (fun y => y * (ln y - 1) + (y + (1 - y) * ln (1 - y)) +
                     - 3 * e * (y * y))%R rho _ d Hd).
  { intros y Hy. destruct (bulk_values y e (Hnear y Hy)) as [-> _].
    reflexivity. }
  apply (derivable_pt_lim_value
           ((fun y => y * (ln y - 1))%R + (fun y => y + (1 - y) * ln (1 - y))%R
            + (fun y => - 3 * e * (y * y))%R)%F rho
           (ln rho + - ln (1 - rho) + - 3 * e * (2 * rho))).
  - apply derivable_pt_lim_plus; [apply derivable_pt_lim_plus|].
    + apply dlim_xlnx. lra.
    + apply dlim_phi0. lra.
    + apply dlim_square.
  - unfold Rdiv. rewrite ln_mult, ln_Rinv; try lra.
    apply Rinv_0_lt_compat. lra.
Qed.

Lemma bulk_mu_is_derivative_of_f_witness :
  derivable_pt_lim
    (fun y => real_of_result (cal_bulk_f (BFloat (Fin y)) (Fin 1))) (1/4)
    (real_of_result (cal_bulk_mu (BFloat (Fin (1/4))) (Fin 1))).
Proof. apply (bulk_mu_is_derivative_of_f (1/4) 1). lra. Defined.

(** X16: the bulk chemical potential of the densities [rho] and
    [1 - rho] add up to [- 6 epsi]: the mean-field lattice gas is
    symmetric under the exchange of particles and holes, and
    [cal_bulk_mu] is [- 3 epsi] at half filling. *)
Theorem bulk_mu_particle_hole (rho e : R) :
  (0 < rho < 1)%R ->
  exists m m',
    cal_bulk_mu (BFloat (Fin rho)) (Fin e) = Ok (Fin m) /\
    cal_bulk_mu (BFloat (Fin (1 - rho))) (Fin e) = Ok (Fin m') /\
    (m + m' = - 6 * e)%R.
Proof.
  intros Hr.
  destruct (bulk_values rho e Hr) as [_ H1].
  destruct (bulk_values (1 - rho) e ltac:(lra)) as [_ H2].
  eexists _, _. split; [exact H1|]. split; [exact H2|].
  replace (1 - (1 - rho))%R with rho by lra.
  unfold Rdiv. rewrite !ln_mult, !ln_Rinv; try lra;
    apply Rinv_0_lt_compat; lra.
Qed.

Lemma bulk_mu_particle_hole_witness :
  exists m m',
    cal_bulk_mu (BFloat (Fin (1/4))) (Fin 1) = Ok (Fin m) /\
    cal_bulk_mu (BFloat (Fin (1 - 1/4))) (Fin 1) = Ok (Fin m') /\
    (m + m' = - 6 * 1)%R.
Proof. apply (bulk_mu_particle_hole (1/4) 1). lra. Defined.

End Analysis.

(** ** Fixed points of the update *)

Lemma mix_same (a : R) (r : list fl) :
  Forall is_fin r -> mix (Fin a) r r = r.
Proof.
  unfold mix, scale. induction 1 as [|x r Hx _ IH]; [reflexivity|].
  cbn [map zip_with]. rewrite IH. f_equal.
  destruct x; try contradiction. simpl. f_equal. ring.
Qed.

Lemma sq_error_same (r : list fl) :
  Forall is_fin r -> sq_error r r = Fin 0.
Proof.
  unfold sq_error, np_sum, square.
  induction 1 as [|x r Hx _ IH]; [reflexivity|].
  cbn [map zip_with]. rewrite fsum_cons, IH.
  destruct x; try contradiction. simpl. f_equal. ring.
Qed.

Lemma list_comp_length {S A} (f : nat -> M S A) (idxs : list nat) :
  forall s xs s', list_comp f idxs s = (Ok xs, s') ->
    length xs = length idxs.
Proof.
  induction idxs as [|i idxs IH]; intros s xs s'; simpl.
  - intros [= <- _]. reflexivity.
  - unfold bind at 1. destruct (f i s) as [[x|e] s1]; [|discriminate].
    unfold bind at 1.
    destruct (list_comp f idxs s1) as [[ys|e] s2] eqn:E; [|discriminate].
    intros [= <- _]. simpl. f_equal. exact (IH _ _ _ E).
Qed.

Section FixedPoint.
Context `{Functional : LdftFunctional}.

Lemma update_species_length (V : Z) (temp : list array) :
  forall i r_new s c s',
    update_species V i temp r_new s = (Ok (Some c), s') ->
    length c = (length r_new + length temp)%nat.
Proof.
  induction temp as [|t temp IH]; intros i r_new s c s'; simpl.
  - intros [= <- _]. lia.
  - destruct (any_isnan t).
    { unfold print. unfold_monad. discriminate. }
    unfold bind at 1. unfold get at 1.
    unfold bind at 1. unfold lift at 1.
    destruct (py_index (_mu_fix s) i) as [[|]|e]; [| |discriminate].
    + unfold bind at 1. unfold lift at 1.
      destruct (py_index (_mu s) i) as [mu_i|e]; [|discriminate].
      unfold bind at 1.
      destruct mu_i as [m|]; [|discriminate]. unfold as_float, ret at 1.
      unfold bind at 1. unfold lift at 1.
      destruct (py_setitem _ _ _) as [dens|e]; [|discriminate].
      unfold bind at 1. unfold modify at 1.
      intros H. apply IH in H. rewrite length_app in H. simpl in *. lia.
    + unfold bind at 1. unfold lift at 1.
      destruct (py_index (_dens s) i) as [dens_i|e]; [|discriminate].
      unfold bind at 1.
      destruct dens_i as [d|]; [|discriminate]. unfold as_float, ret at 1.
      unfold bind at 1. unfold lift at 1.
      destruct (py_setitem _ _ _) as [mu|e]; [|discriminate].
      unfold bind at 1. unfold modify at 1.
      intros H. apply IH in H. rewrite length_app in H. simpl in *. lia.
Qed.

(** An update that returns profiles returns one profile and one error for
    each species. *)
Lemma update_lengths (alpha : fl) (s s' : LdftModel) (r : list array)
    (error : list fl) :
  _make_picard_update alpha s = (Ok (Some (r, error)), s') ->
  length r = length (_mu_fix s) /\ length error = length (_mu_fix s).
Proof.
  unfold _make_picard_update. unfold bind at 1. unfold get at 1.
  unfold bind at 1.
  match goal with |- context [list_comp ?f ?l s] =>
    destruct (list_comp f l s) as [[temp|e] s0] eqn:Et end; [|discriminate].
  apply list_comp_length in Et. rewrite length_seq in Et.
  unfold bind at 1. unfold lift at 1.
  destruct (volume (_size s)) as [V|e]; [|discriminate].
  unfold bind at 1.
  destruct (update_species V 0 temp [] s0) as [[[r_new|]|e] s1] eqn:Eu;
    [|discriminate..].
  apply update_species_length in Eu. simpl in Eu.
  unfold bind at 1. unfold get at 1. unfold bind at 1.
  match goal with |- context [list_comp ?f ?l s1] =>
    destruct (list_comp f l s1) as [[err|e] s2] eqn:Ee end; [|discriminate].
  apply list_comp_length in Ee. rewrite length_seq in Ee.
  unfold bind at 1.
  match goal with |- context [list_comp ?f ?l s2] =>
    destruct (list_comp f l s2) as [[rr|e] s3] eqn:Er end; [|discriminate].
  apply list_comp_length in Er. rewrite length_seq in Er.
  unfold_monad. intros [= <- <- _]. lia.
Qed.

(** X17: when the candidate profile that the update computes
    for each species is the current profile of the species and the
    profiles are finite, [_make_picard_update] returns the current
    profiles for every finite [alpha], leaves [_r] as it is, reports the
    error 0 for every species and increments the counter. *)
Theorem update_fixed_point (a : R) (s : LdftModel) (V : Z) :
  shapes_ok s -> volume (_size s) = Ok V ->
  (forall k u, temp_arrays s !! k = Some u ->
     any_isnan u = false /\ species_ok s k) ->
  length (_r s) = length (_mu_fix s) ->
  Forall (Forall is_fin) (_r s) ->
  (forall k u, temp_arrays s !! k = Some u ->
     exists r_k, _r s !! k = Some r_k /\ candidate V s k u = Some r_k) ->
  exists s' error,
    _make_picard_update (Fin a) s = (Ok (Some (_r s, error)), s') /\
    _r s' = _r s /\ _it_counter s' = (_it_counter s + 1)%Z /\
    length error = length (_mu_fix s) /\
    Forall (fun e => e = Fin 0) error.
Proof.
  intros Hshape HV Hall Hlen Hfin Hcand.
  assert (Hlt : length (temp_arrays s) = length (_mu_fix s)).
  { destruct Hshape as (H1 & H2 & _). unfold temp_arrays.
    rewrite length_zip_with. lia. }
  assert (Hcl : forall k u r_k c s',
            temp_arrays s !! k = Some u -> _r s !! k = Some r_k ->
            species_post V s s' k u c -> c = r_k).
  { intros k u r_k c s' Hu Hrk Hp.
    destruct (Hcand k u Hu) as (r_k' & Hrk' & Hc).
    rewrite Hrk in Hrk'. injection Hrk' as <-.
    unfold species_post in Hp. unfold candidate in Hc.
    destruct (_mu_fix s !! k) as [[|]|]; [| |contradiction].
    - destruct Hp as (m & Hm & -> & _). rewrite Hm in Hc. congruence.
    - destruct Hp as (d & Hd & -> & _). rewrite Hd in Hc. congruence. }
  assert (Hr2 : Forall2 (fun t r_k : list fl => length t = length r_k)
                  (temp_arrays s) (_r s)).
  { apply Forall2_same_length_lookup_2; [lia|].
    intros k u r_k Hu Hrk.
    destruct (Hcand k u Hu) as (r_k' & Hrk' & Hc).
    rewrite Hrk in Hrk'. injection Hrk' as <-.
    unfold candidate in Hc.
    destruct (_mu_fix s !! k) as [[|]|]; [| |discriminate].
    - destruct (_mu s !! k) as [[m|]|]; try discriminate.
      injection Hc as <-. unfold scale. now rewrite length_map.
    - destruct (_dens s !! k) as [[d|]|]; try discriminate.
      injection Hc as <-. unfold scale. now rewrite length_map. }
  destruct (update_success (Fin a) s Hshape Hall Hr2)
    as (s' & V' & r & error & Hrun & HV' & Hr & Hc & Hk).
  rewrite HV in HV'. injection HV' as <-.
  destruct (update_lengths _ _ _ _ _ Hrun) as [Hlr Hle].
  assert (Heq : r = _r s).
  { apply list_eq. intros k.
    destruct (_r s !! k) as [r_k|] eqn:Hrk.
    - destruct (lookup_lt_is_Some_2 (temp_arrays s) k) as [u Hu].
      { apply lookup_lt_Some in Hrk. lia. }
      destruct (Hk k u r_k Hu Hrk) as (c & Hp & Hrr & _).
      rewrite Hrr, (Hcl _ _ _ _ _ Hu Hrk Hp). f_equal.
      apply mix_same. exact (Forall_lookup_1 _ _ _ _ Hfin Hrk).
    - apply lookup_ge_None. apply lookup_ge_None in Hrk. lia. }
  exists s', error. rewrite <- Heq.
  split; [exact Hrun|]. split; [exact Hr|]. split; [exact Hc|].
  split; [exact Hle|].
  apply Forall_lookup_2. intros k e He.
  destruct (lookup_lt_is_Some_2 (temp_arrays s) k) as [u Hu].
  { apply lookup_lt_Some in He. lia. }
  destruct (lookup_lt_is_Some_2 (_r s) k) as [r_k Hrk].
  { apply lookup_lt_Some in He. lia. }
  destruct (Hk k u r_k Hu Hrk) as (c & Hp & _ & Hee).
  rewrite He in Hee. injection Hee as ->.
  rewrite (Hcl _ _ _ _ _ Hu Hrk Hp).
  apply sq_error_same. exact (Forall_lookup_1 _ _ _ _ Hfin Hrk).
Qed.

End FixedPoint.

Lemma update_fixed_point_witness :
  exists s' error,
    @_make_picard_update ideal_gas (Fin (1/3)) model_fixed =
      (Ok (Some (_r model_fixed, error)), s') /\
    _r s' = _r model_fixed /\
    _it_counter s' = (_it_counter model_fixed + 1)%Z /\
    length error = length (_mu_fix model_fixed) /\
    Forall (fun e => e = Fin 0) error.
Proof.
  apply (@update_fixed_point ideal_gas (1/3) model_fixed 2).
  - repeat split; try reflexivity; [repeat constructor|discriminate].
  - reflexivity.
  - intros [|k] u Hu; [|discriminate]. injection Hu as <-.
    split; [reflexivity|]. split; [now eexists|simpl; lia].
  - reflexivity.
  - repeat constructor.
  - intros [|k] u Hu; [|discriminate]. injection Hu as <-.
    eexists. split; reflexivity.
Defined.

(** ** More on the boundary roll *)

Lemma norm_axis_total (nd axis : Z) :
  (- nd <= axis < nd)%Z -> exists ax, norm_axis nd axis = Ok ax.
Proof.
  intros Hax. unfold norm_axis.
  destruct (Z.leb_spec (- nd) axis); [|lia].
  destruct (Z.ltb_spec axis nd); [|lia]. simpl.
  destruct (axis mod nd + (3 - nd))%Z as [|[p|p|]|p]; eexists; reflexivity.
Qed.

Lemma py_max_in (size : list Z) (mx : Z) :
  py_max size = Ok mx -> In mx size.
Proof.
  destruct size as [|x xs]; simpl; [discriminate|]. intros [= <-].
  revert x. induction xs as [|y xs IH]; intros x; [now left|].
  cbn [fold_left].
  destruct (IH (Z.max x y)) as [H|H]; [|now right; right].
  rewrite <- H.
  destruct (Z.max_spec x y) as [[_ E]|[_ E]]; rewrite E;
    [right; left|left]; reflexivity.
Qed.

Lemma py_index_of_in (x : Z) (l : list Z) :
  In x l ->
  exists k, py_index_of x l = Ok k /\ (0 <= k < Z.of_nat (length l))%Z.
Proof.
  induction l as [|y l IH]; intros Hin; [contradiction|].
  cbn [py_index_of]. destruct (Z.eqb_spec y x) as [->|Hne].
  - exists 0%Z. split; [reflexivity|]. simpl. lia.
  - destruct Hin as [->|Hin]; [contradiction|].
    destruct (IH Hin) as (k & -> & Hk). exists (k + 1)%Z.
    split; [reflexivity|]. simpl length. lia.
Qed.

Section RollMore.
Context {A : Type} (dflt : A).

Lemma rect_fits (sh : idx) (a : @ndarray A) :
  rect sh a -> fits (extents sh a) sh a.
Proof.
  destruct sh as [[l0 l1] l2], a as [a2|a3]; cbn [rect fits extents ix].
  - intros [E Hwf]. split; [reflexivity|]. split; assumption.
  - intros Hwf. split; [reflexivity|assumption].
Qed.

Lemma fits_rect (size : list Z) (sh : idx) (a : @ndarray A) :
  fits size sh a -> rect sh a /\ size = extents sh a.
Proof.
  destruct sh as [[l0 l1] l2], a as [a2|a3]; cbn [rect fits extents ix].
  - intros (E & E0 & Hwf). split; [split|]; assumption.
  - intros (E & Hwf). split; assumption.
Qed.

Lemma ndim_path_val (pth : path) (a : @ndarray A) (steps : Z) :
  ndim (path_val dflt pth a steps) = ndim a.
Proof. destruct pth, a; reflexivity. Qed.

Lemma periodic_run (self : LdftModel) (r : ref) (steps axis : Z)
    (h : list (@ndarray A)) :
  _bound_cond self = "periodic"%string ->
  _boundary_roll dflt self r steps axis h =
  (x <- np_roll dflt r steps axis ;; ret (Some x)) h.
Proof. intros Hbc. unfold _boundary_roll. rewrite Hbc. reflexivity. Qed.

Lemma ix_pos (ax : axis3) (sh : idx) : pos_shape sh -> (0 < ix ax sh)%nat.
Proof.
  destruct sh as [[l0 l1] l2], ax; intros (? & ? & ?); simpl in *; lia.
Qed.

Lemma roll3_roll3 (sh : idx) (a : arr3 A) (s t : Z) (ax : axis3) :
  wf3 sh a -> pos_shape sh ->
  roll3 dflt (roll3 dflt a s ax) t ax = roll3 dflt a (s + t) ax.
Proof.
  intros Hwf Hpos. pose proof (ix_pos ax sh Hpos) as Hn.
  apply (arr3_ext dflt sh).
  - apply roll3_wf; [apply roll3_wf|]; assumption.
  - now apply roll3_wf.
  - intros p Hp.
    rewrite (roll3_get dflt sh) by (try apply roll3_wf; assumption).
    rewrite (roll3_get dflt sh); [|assumption|assumption|].
    2:{ apply inrange_upd; [exact Hp|]. apply wrap_lt. exact Hn. }
    rewrite (roll3_get dflt sh) by assumption.
    rewrite ix_upd_same, upd_upd, wrap_wrap by exact Hn.
    now rewrite Z.add_comm.
Qed.

Lemma roll3_full_turn (sh : idx) (a : arr3 A) (steps : Z) (ax : axis3) :
  wf3 sh a -> pos_shape sh ->
  (steps mod Z.of_nat (ix ax sh) = 0)%Z ->
  roll3 dflt a steps ax = a.
Proof.
  intros Hwf Hpos Hmod. apply (arr3_ext dflt sh).
  - now apply roll3_wf.
  - exact Hwf.
  - intros p Hp. rewrite (roll3_get dflt sh) by assumption.
    rewrite wrap_multiple by (try apply inrange_ix; assumption).
    now rewrite upd_ix.
Qed.

Lemma path_val_compose (sh : idx) (ax : axis3) (a : @ndarray A) (s t : Z) :
  rect sh a -> pos_shape sh ->
  path_val dflt (Plain ax) (path_val dflt (Plain ax) a s) t =
  path_val dflt (Plain ax) a (s + t).
Proof.
  intros Hrect Hpos. destruct a as [a2|a3]; cbn [path_val rect] in *.
  - destruct Hrect as [_ Hwf]. f_equal. unfold roll2.
    rewrite singleton_hd by apply length_roll3.
    now rewrite (roll3_roll3 sh).
  - f_equal. now apply (roll3_roll3 sh).
Qed.

Lemma path_val_full_turn (sh : idx) (ax : axis3) (a : @ndarray A)
    (steps : Z) :
  rect sh a -> pos_shape sh ->
  (steps mod Z.of_nat (ix ax sh) = 0)%Z ->
  path_val dflt (Plain ax) a steps = a.
Proof.
  intros Hrect Hpos Hmod. destruct a as [a2|a3]; cbn [path_val rect] in *.
  - destruct Hrect as [_ Hwf]. f_equal. unfold roll2.
    now rewrite (roll3_full_turn sh).
  - f_equal. now apply (roll3_full_turn sh).
Qed.

(** X18: under the periodic boundary condition, the roll of a
    rectangular array with two or three axes by [steps] along an axis
    (counted from the front or, negative, from the back) followed by the
    roll of the result by [- steps] along that axis returns an array
    equal to the first one. *)
Theorem periodic_roll_round_trip (self : LdftModel) (sh : idx)
    (a : @ndarray A) (r : ref) (steps axis : Z) (h : list (@ndarray A)) :
  _bound_cond self = "periodic"%string ->
  rect sh a -> pos_shape sh -> (- ndim a <= axis < ndim a)%Z ->
  h !! r = Some a ->
  exists r1 h1 r2 h2,
    _boundary_roll dflt self r steps axis h = (Ok (Some r1), h1) /\
    _boundary_roll dflt self r1 (- steps) axis h1 = (Ok (Some r2), h2) /\
    h2 !! r2 = Some a.
Proof.
  intros Hbc Hrect Hpos Hax Hr.
  destruct (norm_axis_total (ndim a) axis Hax) as [ax Hn].
  destruct (plain_run dflt h r a steps axis ax Hr Hn)
    as (r1 & h1 & Hrun1 & H1).
  assert (Hn' : norm_axis (ndim (path_val dflt (Plain ax) a steps)) axis
                = Ok ax) by (now rewrite ndim_path_val).
  destruct (plain_run dflt h1 r1 _ (- steps) axis ax H1 Hn')
    as (r2 & h2 & Hrun2 & H2).
  exists r1, h1, r2, h2. rewrite !periodic_run by exact Hbc.
  split; [exact Hrun1|]. split; [exact Hrun2|].
  rewrite H2. f_equal.
  apply (path_val_inverse dflt (extents sh a) sh);
    [now apply rect_fits|exact Hpos|exact I].
Qed.

(** X19: under the periodic boundary condition, a roll by [s]
    followed by a roll by [t] along the same axis gives the array that one
    roll by [s + t] gives. *)
Theorem periodic_roll_compose (self : LdftModel) (sh : idx)
    (a : @ndarray A) (r : ref) (s t axis : Z) (h : list (@ndarray A)) :
  _bound_cond self = "periodic"%string ->
  rect sh a -> pos_shape sh -> (- ndim a <= axis < ndim a)%Z ->
  h !! r = Some a ->
  exists r1 h1 r2 h2 r3 h3 b,
    _boundary_roll dflt self r s axis h = (Ok (Some r1), h1) /\
    _boundary_roll dflt self r1 t axis h1 = (Ok (Some r2), h2) /\
    _boundary_roll dflt self r (s + t) axis h = (Ok (Some r3), h3) /\
    h2 !! r2 = Some b /\ h3 !! r3 = Some b.
Proof.
  intros Hbc Hrect Hpos Hax Hr.
  destruct (norm_axis_total (ndim a) axis Hax) as [ax Hn].
  destruct (plain_run dflt h r a s axis ax Hr Hn)
    as (r1 & h1 & Hrun1 & H1).
  assert (Hn' : norm_axis (ndim (path_val dflt (Plain ax) a s)) axis
                = Ok ax) by (now rewrite ndim_path_val).
  destruct (plain_run dflt h1 r1 _ t axis ax H1 Hn')
    as (r2 & h2 & Hrun2 & H2).
  destruct (plain_run dflt h r a (s + t) axis ax Hr Hn)
    as (r3 & h3 & Hrun3 & H3).
  exists r1, h1, r2, h2, r3, h3, (path_val dflt (Plain ax) a (s + t)).
  rewrite !periodic_run by exact Hbc.
  split; [exact Hrun1|]. split; [exact Hrun2|]. split; [exact Hrun3|].
  split; [|exact H3]. rewrite H2. f_equal.
  now apply (path_val_compose sh).
Qed.

(** X20: under the periodic boundary condition, a roll by a
    multiple of the extent of the axis, and so a roll by 0 steps, returns
    an array equal to its argument. *)
Theorem periodic_roll_full_turn (self : LdftModel) (sh : idx)
    (a : @ndarray A) (r : ref) (steps axis : Z) (ax : axis3)
    (h : list (@ndarray A)) :
  _bound_cond self = "periodic"%string ->
  rect sh a -> pos_shape sh -> norm_axis (ndim a) axis = Ok ax ->
  (steps mod Z.of_nat (ix ax sh) = 0)%Z ->
  h !! r = Some a ->
  exists r1 h1,
    _boundary_roll dflt self r steps axis h = (Ok (Some r1), h1) /\
    h1 !! r1 = Some a.
Proof.
  intros Hbc Hrect Hpos Hn Hmod Hr.
  destruct (plain_run dflt h r a steps axis ax Hr Hn)
    as (r1 & h1 & Hrun1 & H1).
  exists r1, h1. rewrite periodic_run by exact Hbc.
  split; [exact Hrun1|]. rewrite H1. f_equal.
  now apply (path_val_full_turn sh).
Qed.

(** The longest axis of a lattice that an array fits. *)
Lemma max_axis (size : list Z) (sh : idx) (a : @ndarray A) :
  fits size sh a ->
  exists mx k,
    py_max size = Ok mx /\ py_index_of mx size = Ok k /\
    (0 <= k < ndim a)%Z.
Proof.
  intros Hfit. destruct (fits_rect _ _ _ Hfit) as [_ Hsize].
  assert (Hlen : Z.of_nat (length size) = ndim a).
  { rewrite Hsize. destruct sh as [[l0 l1] l2], a; reflexivity. }
  destruct (py_max size) as [mx|e] eqn:Emx.
  2:{ destruct size; [|discriminate]. destruct a; simpl in Hlen; lia. }
  destruct (py_index_of_in mx size (py_max_in _ _ Emx)) as (k & Hk & Hrange).
  exists mx, k. split; [reflexivity|]. split; [exact Hk|]. lia.
Qed.

(** X21: under each of the four boundary conditions that it
    knows, [_boundary_roll] of an array that has the extents of the
    lattice (all positive) along one of its axes returns, without an
    exception, an array with the same extents, whatever the number of
    steps and also when no extent is twice the others. *)
Theorem boundary_roll_keeps_shape (self : LdftModel) (sh : idx)
    (a : @ndarray A) (r : ref) (steps axis : Z) (h : list (@ndarray A)) :
  known_mode (_bound_cond self) ->
  fits (_size self) sh a -> pos_shape sh -> (0 <= axis < ndim a)%Z ->
  h !! r = Some a ->
  exists r1 h1 b,
    _boundary_roll dflt self r steps axis h = (Ok (Some r1), h1) /\
    h1 !! r1 = Some b /\ fits (_size self) sh b /\ ndim b = ndim a.
Proof.
  intros [Hbc|Hbc] Hfit Hpos Hax Hr.
  - destruct (norm_axis_total (ndim a) axis ltac:(lia)) as [ax Hn].
    destruct (plain_run dflt h r a steps axis ax Hr Hn)
      as (r1 & h1 & Hrun1 & H1).
    exists r1, h1, (path_val dflt (Plain ax) a steps).
    rewrite periodic_run by exact Hbc.
    split; [exact Hrun1|]. split; [exact H1|].
    split; [now apply path_val_fits|apply ndim_path_val].
  - destruct (max_axis _ _ _ Hfit) as (mx & k & Hmx & Hk & Hkr).
    destruct (boundary_roll_run dflt self r steps axis mx k h a
                Hbc Hmx Hk Hax Hkr Hr) as (r1 & h1 & Hrun1 & H1).
    eexists r1, h1, _. split; [exact Hrun1|]. split; [exact H1|].
    split; [now apply path_val_fits|apply ndim_path_val].
Qed.

(** X22: under a boundary condition that is none of
    'periodic', '11_if', '110_if' and '111_if', [_boundary_roll] returns
    [None] without an exception and makes no array. *)
Theorem boundary_roll_unknown_mode (self : LdftModel) (r : ref)
    (steps axis : Z) (h : list (@ndarray A)) :
  ~ known_mode (_bound_cond self) ->
  _boundary_roll dflt self r steps axis h = (Ok None, h).
Proof.
  intros Hbc. unfold _boundary_roll.
  assert (Hneq : forall m, In m ["periodic"; "11_if"; "110_if"; "111_if"]%string ->
            String.eqb (_bound_cond self) m = false).
  { intros m Hm. apply String.eqb_neq. intros E. apply Hbc.
    unfold known_mode, tilted_mode. rewrite E. simpl in Hm.
    intuition (subst; auto). }
  rewrite !Hneq by (simpl; auto). reflexivity.
Qed.

End RollMore.

Lemma periodic_roll_round_trip_witness :
  exists r1 h1 r2 h2,
    _boundary_roll 0%nat lattice_periodic 0 4 (- 1) [field_2x3] =
      (Ok (Some r1), h1) /\
    _boundary_roll 0%nat lattice_periodic r1 (- 4) (- 1) h1 =
      (Ok (Some r2), h2) /\
    h2 !! r2 = Some field_2x3.
Proof.
  apply (periodic_roll_round_trip 0%nat lattice_periodic (1, 2, 3)%nat
           field_2x3 0%nat 4 (- 1) [field_2x3]).
  - reflexivity.
  - split; [reflexivity|]. split; [reflexivity|]. repeat constructor.
  - unfold pos_shape. simpl. lia.
  - simpl. lia.
  - reflexivity.
Defined.

Lemma periodic_roll_compose_witness :
  exists r1 h1 r2 h2 r3 h3 b,
    _boundary_roll 0%nat lattice_periodic 0 2 1 [field_2x3] =
      (Ok (Some r1), h1) /\
    _boundary_roll 0%nat lattice_periodic r1 5 1 h1 = (Ok (Some r2), h2) /\
    _boundary_roll 0%nat lattice_periodic 0 (2 + 5) 1 [field_2x3] =
      (Ok (Some r3), h3) /\
    h2 !! r2 = Some b /\ h3 !! r3 = Some b.
Proof.
  apply (periodic_roll_compose 0%nat lattice_periodic (1, 2, 3)%nat
           field_2x3 0%nat 2 5 1 [field_2x3]).
  - reflexivity.
  - split; [reflexivity|]. split; [reflexivity|]. repeat constructor.
  - unfold pos_shape. simpl. lia.
  - simpl. lia.
  - reflexivity.
Defined.

Lemma periodic_roll_full_turn_witness :
  exists r1 h1,
    _boundary_roll 0%nat lattice_periodic 0 (- 6) 1 [field_2x3] =
      (Ok (Some r1), h1) /\
    h1 !! r1 = Some field_2x3.
Proof.
  apply (periodic_roll_full_turn 0%nat lattice_periodic (1, 2, 3)%nat
           field_2x3 0%nat (- 6) 1 X2 [field_2x3]).
  - reflexivity.
  - split; [reflexivity|]. split; [reflexivity|]. repeat constructor.
  - unfold pos_shape. simpl. lia.
  - reflexivity.
  - reflexivity.
  - reflexivity.
Defined.

Lemma boundary_roll_keeps_shape_witness :
  exists r1 h1 b,
    _boundary_roll 0%nat lattice_2x3_tilted 0 1 0 [field_2x3] =
      (Ok (Some r1), h1) /\
    h1 !! r1 = Some b /\
    fits (_size lattice_2x3_tilted) (1, 2, 3)%nat b /\
    ndim b = ndim field_2x3.
Proof.
  apply (boundary_roll_keeps_shape 0%nat lattice_2x3_tilted (1, 2, 3)%nat
           field_2x3 0%nat 1 0 [field_2x3]).
  - right. left. reflexivity.
  - split; [reflexivity|]. split; [reflexivity|].
    split; [reflexivity|]. repeat constructor.
  - unfold pos_shape. simpl. lia.
  - simpl. lia.
  - reflexivity.
Defined.

Lemma boundary_roll_unknown_mode_witness :
  _boundary_roll 0%nat lattice_unknown 0 1 0 [field_2x3] =
  (Ok None, [field_2x3]).
Proof.
  apply (boundary_roll_unknown_mode 0%nat lattice_unknown 0%nat 1 0
           [field_2x3]).
  intros [H|[H|[H|H]]]; discriminate H.
Defined.

(** ** Initial density profiles *)

Lemma for_each_inv {S : Type} (I : S -> Prop) (l : list nat)
    (body : nat -> S -> result S) (s : S) :
  (forall i s, In i l -> I s -> exists s', body i s = Ok s' /\ I s') ->
  I s -> exists s', for_each l body s = Ok s' /\ I s'.
Proof.
  revert s. induction l as [|i l IH]; intros s Hbody Hs; [now exists s|].
  destruct (Hbody i s (or_introl eq_refl) Hs) as (s1 & E & H1).
  cbn [for_each]. rewrite E. apply IH; [|exact H1].
  intros j t Hj. apply Hbody. now right.
Qed.

Lemma for_each_app {S : Type} (l1 l2 : list nat)
    (body : nat -> S -> result S) (s : S) :
  for_each (l1 ++ l2) body s =
  match for_each l1 body s with
  | Ok s' => for_each l2 body s'
  | Raise e => Raise e
  end.
Proof.
  revert s. induction l1 as [|i l1 IH]; intros s; [reflexivity|].
  cbn [for_each app]. destruct (body i s); [apply IH|reflexivity].
Qed.

Lemma Forall_repeat_elem {A : Type} (P : A -> Prop) (x : A) (n : nat) :
  P x -> Forall P (repeat x n).
Proof. intros Hx. induction n; simpl; constructor; assumption. Qed.

Lemma imap_Forall {A B : Type} (P : B -> Prop) (f : nat -> A -> B)
    (l : list A) :
  (forall i x, l !! i = Some x -> P (f i x)) -> Forall P (imap f l).
Proof.
  intros Hf. apply Forall_lookup_2. intros i y.
  rewrite list_lookup_imap. destruct (l !! i) as [x|] eqn:E; simpl;
    [|discriminate].
  intros [= <-]. now apply Hf.
Qed.

Section ProfileFacts.
Variable P : fl -> Prop.

Lemma roll1_length (row : list fl) (steps : Z) :
  length (roll1 row steps) = length row.
Proof. unfold roll1. rewrite length_app, length_drop, length_take. lia. Qed.

Lemma roll1_Forall (row : list fl) (steps : Z) :
  Forall P row -> Forall P (roll1 row steps).
Proof.
  intros H. unfold roll1. apply Forall_app.
  split; [now apply Forall_drop|now apply Forall_take].
Qed.

Lemma in_slice_empty (n : nat) (b : Z * Z) (i : nat) :
  fst b = snd b -> in_slice n b i = false.
Proof.
  intros E. unfold in_slice. rewrite E.
  destruct (Nat.leb_spec (py_bound n (snd b)) i),
           (Nat.ltb_spec i (py_bound n (snd b))); simpl;
    try reflexivity; lia.
Qed.

Lemma fill1_ok (n : nat) (b : Z * Z) (v : fl) (row : list fl) :
  P v \/ fst b = snd b ->
  length row = n /\ Forall P row ->
  length (fill1 b v row) = n /\ Forall P (fill1 b v row).
Proof.
  intros Hv [Hlen Hall]. unfold fill1. split; [now rewrite length_imap|].
  apply imap_Forall. intros j x Hx.
  destruct (in_slice (length row) b j) eqn:E.
  - destruct Hv as [Hv|Hv]; [exact Hv|].
    rewrite in_slice_empty in E by exact Hv. discriminate.
  - exact (Forall_lookup_1 _ _ _ _ Hall Hx).
Qed.

Lemma fill2_ok (n0 n1 : nat) (b0 b1 : Z * Z) (v : fl)
    (a : list (list fl)) :
  P v \/ fst b1 = snd b1 ->
  all2 P n0 n1 a -> all2 P n0 n1 (fill2 b0 b1 v a).
Proof.
  intros Hv [Hlen Hall]. unfold fill2. split; [now rewrite length_imap|].
  apply imap_Forall. intros i row Hrow.
  pose proof (Forall_lookup_1 _ _ _ _ Hall Hrow) as Hr.
  destruct (in_slice (length a) b0 i); [now apply fill1_ok|exact Hr].
Qed.

Lemma fill3_ok (n0 n1 n2 : nat) (b0 b1 b2 : Z * Z) (v : fl)
    (a : list (list (list fl))) :
  P v \/ fst b2 = snd b2 ->
  all3 P n0 n1 n2 a -> all3 P n0 n1 n2 (fill3 b0 b1 b2 v a).
Proof.
  intros Hv [Hlen Hall]. unfold fill3. split; [now rewrite length_imap|].
  apply imap_Forall. intros i layer Hlayer.
  pose proof (Forall_lookup_1 _ _ _ _ Hall Hlayer) as Hl.
  destruct (in_slice (length a) b0 i); [now apply fill2_ok|exact Hl].
Qed.

Lemma shear_rows_ok (n0 n1 : nat) (a : list (list fl)) :
  all2 P n0 n1 a ->
  exists a', shear_rows n0 a = Ok a' /\ all2 P n0 n1 a'.
Proof.
  intros Ha. unfold shear_rows.
  apply (for_each_inv (all2 P n0 n1)); [|exact Ha].
  intros i s Hi [Hlen Hall]. apply in_seq in Hi.
  destruct (lookup_lt_is_Some_2 s i ltac:(lia)) as [row Hrow].
  rewrite Hrow. eexists. split; [reflexivity|].
  destruct (Forall_lookup_1 _ _ _ _ Hall Hrow) as [Hl Hp].
  split; [now rewrite length_insert|].
  apply Forall_insert; [exact Hall|].
  split; [now rewrite roll1_length|now apply roll1_Forall].
Qed.

Lemma shear_columns_step (n0 n1 n2 i : nat) (steps : Z)
    (s : list (list (list fl))) :
  all3 P n0 n1 n2 s ->
  all3 P n0 n1 n2 (map (alter (fun row => roll1 row steps) i) s).
Proof.
  intros [Hlen Hall]. split; [now rewrite length_map|].
  apply Forall_map. eapply Forall_impl; [exact Hall|].
  intros layer [Hl Hrows]. split; [now rewrite length_alter|].
  apply Forall_alter; [exact Hrows|].
  intros row _ [Hr Hp].
  split; [now rewrite roll1_length|now apply roll1_Forall].
Qed.

Lemma hd_length (n0 n1 n2 : nat) (s : list (list (list fl))) :
  (0 < n0)%nat -> all3 P n0 n1 n2 s -> length (hd [] s) = n1.
Proof.
  intros Hn [Hlen Hall]. destruct s as [|layer s]; [simpl in Hlen; lia|].
  apply Forall_inv in Hall. exact (proj1 Hall).
Qed.

Lemma shear_columns_prefix (k sheer n0 n1 n2 : nat)
    (a : list (list (list fl))) :
  (k <= n0)%nat -> (k <= n1)%nat -> all3 P n0 n1 n2 a ->
  exists a',
    for_each (seq 0 k)
      (fun i profile =>
         if (i <? length (hd [] profile))%nat then
           Ok (map (alter (fun row =>
                             roll1 row (Z.of_nat sheer - Z.of_nat i)) i)
                   profile)
         else Raise IndexError) a = Ok a' /\
    all3 P n0 n1 n2 a'.
Proof.
  intros Hk0 Hk1 Ha.
  apply (for_each_inv (all3 P n0 n1 n2)); [|exact Ha].
  intros i s Hi Hs. apply in_seq in Hi.
  rewrite (hd_length n0 n1 n2) by (try assumption; lia).
  destruct (Nat.ltb_spec i n1); [|lia].
  eexists. split; [reflexivity|]. now apply shear_columns_step.
Qed.

Lemma shear_columns_ok (n0 n1 n2 : nat) (a : list (list (list fl))) :
  (n0 <= n1)%nat -> all3 P n0 n1 n2 a ->
  exists a', shear_columns n0 a = Ok a' /\ all3 P n0 n1 n2 a'.
Proof.
  intros Hle Ha. unfold shear_columns.
  now apply (shear_columns_prefix n0 n0 n0 n1 n2).
Qed.

Lemma shear_columns_short (n0 n1 n2 : nat) (a : list (list (list fl))) :
  (n1 < n0)%nat -> all3 P n0 n1 n2 a ->
  shear_columns n0 a = Raise IndexError.
Proof.
  intros Hlt Ha. unfold shear_columns.
  replace n0 with (n1 + S (n0 - n1 - 1))%nat at 1 by lia.
  rewrite seq_app, for_each_app.
  destruct (shear_columns_prefix n1 n0 n0 n1 n2 a ltac:(lia) ltac:(lia) Ha)
    as (a' & -> & Ha').
  cbn [seq for_each]. rewrite (hd_length n0 n1 n2) by (try assumption; lia).
  destruct (Nat.ltb_spec (0 + n1) n1); [lia|reflexivity].
Qed.

Lemma shear_layers_ok (n0 n1 n2 : nat) (a : list (list (list fl))) :
  all3 P n0 n1 n2 a ->
  exists a', shear_layers n0 a = Ok a' /\ all3 P n0 n1 n2 a'.
Proof.
  intros Ha. unfold shear_layers.
  apply (for_each_inv (all3 P n0 n1 n2)); [|exact Ha].
  intros i s Hi [Hlen Hall]. apply in_seq in Hi.
  destruct (lookup_lt_is_Some_2 s i ltac:(lia)) as [layer Hlayer].
  rewrite Hlayer. eexists. split; [reflexivity|].
  destruct (Forall_lookup_1 _ _ _ _ Hall Hlayer) as [Hl Hrows].
  split; [now rewrite length_insert|].
  apply Forall_insert; [exact Hall|].
  split; [now rewrite length_map|].
  apply Forall_map. eapply Forall_impl; [exact Hrows|].
  intros row [Hr Hp].
  split; [now rewrite roll1_length|now apply roll1_Forall].
Qed.

Lemma all2_concat (n0 n1 : nat) (a : list (list fl)) :
  all2 P n0 n1 a -> Forall P (concat a).
Proof.
  intros [_ Hall]. apply Forall_concat.
  eapply Forall_impl; [exact Hall|]. now intros row [_ H].
Qed.

Lemma grid_all_ravel (size : list Z) (g : grid) :
  grid_all P size g -> Forall P (ravel g).
Proof.
  destruct g as [a|a|a]; cbn [grid_all ravel].
  - intros (n0 & n1 & _ & Ha). exact (all2_concat _ _ _ Ha).
  - intros (n0 & n1 & n2 & _ & _ & Hall). apply Forall_concat.
    apply Forall_concat. eapply Forall_impl; [exact Hall|].
    intros layer [_ Hrows]. eapply Forall_impl; [exact Hrows|].
    now intros row [_ H].
  - now intros (_ & _ & _ & H).
Qed.

End ProfileFacts.

Lemma sites_pos (size : list Z) :
  Forall (fun n => (0 < n)%Z) size -> (0 < sites size)%nat.
Proof.
  intros H. unfold sites.
  assert (0 < fold_right Z.mul 1 size)%Z; [|lia].
  induction H as [|n size Hn _ IH]; simpl; [lia|]. now apply Z.mul_pos_pos.
Qed.

Lemma grid_all_nonempty (P : fl -> Prop) (size : list Z) (g : grid) :
  Forall (fun n => (0 < n)%Z) size -> grid_all P size g -> ravel g <> [].
Proof.
  intros Hpos. destruct g as [a|a|a]; cbn [grid_all ravel].
  - intros (n0 & n1 & -> & Hlen & Hall).
    apply Forall_cons in Hpos as [H0 Hpos].
    apply Forall_cons in Hpos as [H1 _].
    destruct a as [|row a]; [simpl in Hlen; lia|].
    apply Forall_inv in Hall. destruct Hall as [Hr _].
    destruct row as [|x row]; [simpl in Hr; lia|]. discriminate.
  - intros (n0 & n1 & n2 & -> & Hlen & Hall).
    apply Forall_cons in Hpos as [H0 Hpos].
    apply Forall_cons in Hpos as [H1 Hpos].
    apply Forall_cons in Hpos as [H2 _].
    destruct a as [|layer a]; [simpl in Hlen; lia|].
    apply Forall_inv in Hall. destruct Hall as [Hl Hrows].
    destruct layer as [|row layer]; [simpl in Hl; lia|].
    apply Forall_inv in Hrows. destruct Hrows as [Hr _].
    destruct row as [|x row]; [simpl in Hr; lia|]. discriminate.
  - intros (_ & _ & Hlen & _) ->. pose proof (sites_pos size Hpos).
    simpl in Hlen. lia.
Qed.

Lemma grid_all_gmap (P Q : fl -> Prop) (f : fl -> fl) (size : list Z)
    (g : grid) :
  (forall x, P x -> Q (f x)) ->
  grid_all P size g -> grid_all Q size (gmap f g).
Proof.
  intros Hf. destruct g as [a|a|a]; cbn [grid_all gmap].
  - intros (n0 & n1 & Hs & Hlen & Hall). exists n0, n1.
    split; [exact Hs|]. split; [now rewrite length_map|].
    apply Forall_map. eapply Forall_impl; [exact Hall|].
    intros row [Hr Hp]. split; [now rewrite length_map|].
    apply Forall_map. eapply Forall_impl; [exact Hp|]. exact Hf.
  - intros (n0 & n1 & n2 & Hs & Hlen & Hall). exists n0, n1, n2.
    split; [exact Hs|]. split; [now rewrite length_map|].
    apply Forall_map. eapply Forall_impl; [exact Hall|].
    intros layer [Hl Hrows]. split; [now rewrite length_map|].
    apply Forall_map. eapply Forall_impl; [exact Hrows|].
    intros row [Hr Hp]. split; [now rewrite length_map|].
    apply Forall_map. eapply Forall_impl; [exact Hp|]. exact Hf.
  - intros (H2 & H3 & Hlen & Hall).
    split; [exact H2|]. split; [exact H3|].
    split; [now rewrite length_map|].
    apply Forall_map. eapply Forall_impl; [exact Hall|]. exact Hf.
Qed.

Lemma grid_all_impl (P Q : fl -> Prop) (size : list Z) (g : grid) :
  (forall x, P x -> Q x) -> grid_all P size g -> grid_all Q size g.
Proof.
  intros Hf. destruct g as [a|a|a]; cbn [grid_all].
  - intros (n0 & n1 & Hs & Hlen & Hall). exists n0, n1.
    split; [exact Hs|]. split; [exact Hlen|].
    eapply Forall_impl; [exact Hall|].
    intros row [Hr Hp]. split; [exact Hr|].
    eapply Forall_impl; [exact Hp|]. exact Hf.
  - intros (n0 & n1 & n2 & Hs & Hlen & Hall). exists n0, n1, n2.
    split; [exact Hs|]. split; [exact Hlen|].
    eapply Forall_impl; [exact Hall|].
    intros layer [Hl Hrows]. split; [exact Hl|].
    eapply Forall_impl; [exact Hrows|].
    intros row [Hr Hp]. split; [exact Hr|].
    eapply Forall_impl; [exact Hp|]. exact Hf.
  - intros (H2 & H3 & Hlen & Hall).
    split; [exact H2|]. split; [exact H3|]. split; [exact Hlen|].
    eapply Forall_impl; [exact Hall|]. exact Hf.
Qed.

Lemma ravel_gmap (f : fl -> fl) (g : grid) :
  ravel (gmap f g) = map f (ravel g).
Proof.
  destruct g as [a|a|a]; cbn [ravel gmap]; [| |reflexivity].
  - now rewrite concat_map.
  - now rewrite !concat_map.
Qed.

Lemma np_ones_ok (size : list Z) :
  Forall (fun n => (0 <= n)%Z) size ->
  exists g, np_ones size = Ok g /\ grid_all (eq (Fin 1)) size g.
Proof.
  intros Hpos. unfold np_ones.
  assert (E : existsb (fun n => (n <? 0)%Z) size = false).
  { induction Hpos as [|n size Hn _ IH]; [reflexivity|]. simpl.
    rewrite IH. destruct (Z.ltb_spec n 0); [lia|reflexivity]. }
  rewrite E. eexists. split; [reflexivity|].
  assert (HN : forall size', length size' <> 2%nat -> length size' <> 3%nat ->
            grid_all (eq (Fin 1)) size' (GridN (repeat (Fin 1) (sites size')))).
  { intros size' H2 H3. cbn [grid_all]. split; [exact H2|].
    split; [exact H3|]. split; [apply repeat_length|].
    now apply Forall_repeat_elem. }
  destruct size as [|n0 [|n1 [|n2 [|n3 size]]]].
  - apply HN; discriminate.
  - apply HN; discriminate.
  - exists n0, n1. split; [reflexivity|].
    split; [apply repeat_length|]. apply Forall_repeat_elem.
    split; [apply repeat_length|now apply Forall_repeat_elem].
  - exists n0, n1, n2. split; [reflexivity|].
    split; [apply repeat_length|]. apply Forall_repeat_elem.
    split; [apply repeat_length|]. apply Forall_repeat_elem.
    split; [apply repeat_length|now apply Forall_repeat_elem].
  - apply HN; discriminate.
Qed.

Lemma return_hom_densProfile_ok (self : LdftModel) (dens : fl) :
  Forall (fun n => (0 <= n)%Z) (_size self) ->
  exists g, return_hom_densProfile self dens = Ok g /\
            grid_all (eq (fmul (Fin 1) dens)) (_size self) g.
Proof.
  intros Hpos. destruct (np_ones_ok _ Hpos) as (g & E & Hg).
  unfold return_hom_densProfile. rewrite E. eexists.
  split; [reflexivity|].
  apply (grid_all_gmap (eq (Fin 1))); [|exact Hg]. now intros x <-.
Qed.

Lemma place_nucleus_ok (P : fl -> Prop) (self : LdftModel) (v : fl)
    (shape : list Z) (g : grid) :
  nucleus_ok self shape ->
  P v \/ Forall (fun s => s = 0%Z) shape ->
  grid_all P (_size self) g ->
  exists g', place_nucleus self v shape g = Ok g' /\
             grid_all P (_size self) g'.
Proof.
  intros Hok Hv Hg. unfold place_nucleus, nucleus_ok in *.
  destruct g as [a|a|a]; cbn [grid_all] in Hg.
  - destruct Hg as (n0 & n1 & Hs & Ha). rewrite Hs in *.
    destruct shape as [|s0 [|s1 shape]]; try (simpl in Hok; lia).
    assert (Hv' : P v \/ fst (nuc_slice n1 s1) = snd (nuc_slice n1 s1)).
    { destruct Hv as [Hv|Hv]; [now left|right].
      apply Forall_cons in Hv as [_ Hv]. apply Forall_cons in Hv as [-> _].
      unfold nuc_slice. simpl. now rewrite Z.sub_0_r, Z.add_0_r. }
    pose proof (fill2_ok P _ _ (nuc_slice n0 s0) _ v a Hv' Ha) as Hf.
    cbv zeta. rewrite (proj1 Hf).
    destruct (String.eqb (_bound_cond self) "11_if").
    + destruct (shear_rows_ok P _ _ _ Hf) as (a' & -> & Ha').
      eexists. split; [reflexivity|]. now exists n0, n1.
    + eexists. split; [reflexivity|]. now exists n0, n1.
  - destruct Hg as (n0 & n1 & n2 & Hs & Ha). rewrite Hs in *.
    destruct Hok as [Hlen Hle].
    destruct shape as [|s0 [|s1 [|s2 shape]]]; try (simpl in Hlen; lia).
    assert (Hv' : P v \/ fst (nuc_slice n2 s2) = snd (nuc_slice n2 s2)).
    { destruct Hv as [Hv|Hv]; [now left|right].
      apply Forall_cons in Hv as [_ Hv]. apply Forall_cons in Hv as [_ Hv].
      apply Forall_cons in Hv as [-> _].
      unfold nuc_slice. simpl. now rewrite Z.sub_0_r, Z.add_0_r. }
    pose proof (fill3_ok P _ _ _ (nuc_slice n0 s0) (nuc_slice n1 s1) _ v a
                  Hv' Ha) as Hf.
    cbv zeta. rewrite (proj1 Hf).
    assert (Hcol : exists a1,
      (if String.eqb (_bound_cond self) "111_if" ||
          String.eqb (_bound_cond self) "110_if"
       then shear_columns (Z.to_nat n0)
              (fill3 (nuc_slice n0 s0) (nuc_slice n1 s1) (nuc_slice n2 s2)
                 v a)
       else Ok (fill3 (nuc_slice n0 s0) (nuc_slice n1 s1)
                  (nuc_slice n2 s2) v a)) = Ok a1 /\
      all3 P (Z.to_nat n0) (Z.to_nat n1) (Z.to_nat n2) a1).
    { destruct (String.eqb_spec (_bound_cond self) "111_if") as [E1|E1];
        [|destruct (String.eqb_spec (_bound_cond self) "110_if")
            as [E2|E2]]; cbn [orb].
      - apply (shear_columns_ok P); [|exact Hf].
        specialize (Hle (or_intror E1)). lia.
      - apply (shear_columns_ok P); [|exact Hf].
        specialize (Hle (or_introl E2)). lia.
      - eexists. split; [reflexivity|exact Hf]. }
    destruct Hcol as (a1 & -> & Ha1).
    destruct (String.eqb (_bound_cond self) "111_if").
    + destruct (shear_layers_ok P _ _ _ _ Ha1) as (a2 & -> & Ha2).
      eexists. split; [reflexivity|]. now exists n0, n1, n2.
    + eexists. split; [reflexivity|]. now exists n0, n1, n2.
  - eexists. split; [reflexivity|exact Hg].
Qed.

Lemma positive_reals (l : list fl) :
  Forall positive l ->
  exists rs, l = map Fin rs /\ Forall (fun r => (0 < r)%R) rs.
Proof.
  induction 1 as [|x l (r & -> & Hr) _ (rs & -> & Hrs)]; [now exists []|].
  exists (r :: rs). split; [reflexivity|now constructor].
Qed.

Lemma Rsum_pos (rs : list R) :
  Forall (fun r => (0 < r)%R) rs -> rs <> [] -> (0 < Rsum rs)%R.
Proof.
  induction 1 as [|r rs Hr Hrs IH]; [congruence|]. intros _. simpl.
  destruct rs as [|r' rs]; [simpl; lra|].
  specialize (IH ltac:(discriminate)). lra.
Qed.

Lemma Rsum_repeat (d : R) (n : nat) : Rsum (repeat d n) = (INR n * d)%R.
Proof.
  induction n as [|n IH]; [simpl; lra|].
  rewrite S_INR. cbn [repeat Rsum fold_right]. fold (Rsum (repeat d n)).
  rewrite IH. lra.
Qed.

Lemma all_equal_repeat {A : Type} (x : A) (l : list A) :
  Forall (eq x) l -> l = repeat x (length l).
Proof. induction 1 as [|y l <- _ IH]; [reflexivity|]. simpl. now f_equal. Qed.

(** The last statement of [return_nuc_densProfile] on finite elements
    whose sum is not zero. *)
Lemma normalise_mean (rs : list R) (d : R) :
  rs <> [] -> Rsum rs <> 0%R ->
  np_mean (map Fin rs) = Fin (Rsum rs / INR (length rs)) /\
  (Rsum rs / INR (length rs) <> 0)%R /\
  np_mean (map (fun x => fdiv (fmul x (Fin d))
                              (Fin (Rsum rs / INR (length rs))))
               (map Fin rs)) = Fin d.
Proof.
  intros Hne Hsum.
  assert (HN : INR (length rs) <> 0%R).
  { apply not_0_INR. destruct rs; [congruence|discriminate]. }
  assert (Hm : (Rsum rs / INR (length rs) <> 0)%R).
  { unfold Rdiv. apply Rmult_integral_contrapositive.
    split; [exact Hsum|now apply Rinv_neq_0_compat]. }
  split; [now apply np_mean_fin|]. split; [exact Hm|].
  assert (E : map (fun x => fdiv (fmul x (Fin d))
                              (Fin (Rsum rs / INR (length rs))))
                  (map Fin rs) =
              map Fin (map (fun r => r * (d / (Rsum rs / INR (length rs))))%R
                           rs)).
  { rewrite !map_map. apply map_ext. intros r. cbn [fmul].
    rewrite fdiv_fin by exact Hm. f_equal. now field. }
  rewrite E, np_mean_fin by (destruct rs; [congruence|discriminate]).
  rewrite Rsum_scale, length_map. f_equal. now field.
Qed.

Lemma nucleus_profile_ok (self : LdftModel) (d : R) (shape : list Z) :
  Forall (fun n => (0 < n)%Z) (_size self) -> (0 < d)%R ->
  nucleus_ok self shape ->
  exists g,
    return_nuc_densProfile self (Fin d) shape = Ok g /\
    grid_all positive (_size self) g /\
    np_mean (ravel g) = Fin d.
Proof.
  intros Hpos Hd Hok.
  assert (Hnn : Forall (fun n => (0 <= n)%Z) (_size self)).
  { eapply Forall_impl; [exact Hpos|]. intros n Hn. simpl in Hn. lia. }
  destruct (return_hom_densProfile_ok self (Fin d) Hnn) as (g0 & E0 & H0).
  assert (H0' : grid_all positive (_size self) g0).
  { apply (grid_all_impl (eq (fmul (Fin 1) (Fin d)))); [|exact H0].
    intros x <-. exists (1 * d)%R. split; [reflexivity|lra]. }
  assert (Hnuc : positive (if flt (Fin d) (Fin (1/2))
                           then fadd (Fin d) (Fin (5/100))
                           else fsub (Fin d) (Fin (5/100)))).
  { cbn [flt]. destruct (Rlt_dec d (1/2)).
    - exists (d + 5/100)%R. split; [reflexivity|lra].
    - exists (d + - (5/100))%R. split; [reflexivity|lra]. }
  destruct (place_nucleus_ok positive self _ shape g0 Hok (or_introl Hnuc)
              H0') as (g1 & E1 & H1).
  unfold return_nuc_densProfile. rewrite E0. cbv zeta. rewrite E1.
  eexists. split; [reflexivity|].
  pose proof (grid_all_ravel positive _ _ H1) as Hr.
  pose proof (grid_all_nonempty positive _ _ Hpos H1) as Hne.
  destruct (positive_reals _ Hr) as (rs & Ers & Hrs).
  assert (Hrs_ne : rs <> []) by (intros ->; now apply Hne).
  pose proof (Rsum_pos rs Hrs Hrs_ne) as Hsum.
  destruct (normalise_mean rs d Hrs_ne ltac:(lra)) as (Em & Hm & Emean).
  assert (Hmpos : (0 < Rsum rs / INR (length rs))%R).
  { apply Rdiv_lt_0_compat; [exact Hsum|]. apply lt_0_INR.
    destruct rs; [congruence|simpl; lia]. }
  rewrite ravel_gmap, Ers, Em. split; [|exact Emean].
  apply (grid_all_gmap positive); [|exact H1].
  intros x (r & -> & Hr0). cbn [fmul]. rewrite fdiv_fin by exact Hm.
  eexists. split; [reflexivity|].
  apply Rdiv_lt_0_compat; [|exact Hmpos]. now apply Rmult_lt_0_compat.
Qed.

(** X23: on a lattice with positive extents and for a positive
    density [dens], [return_nuc_densProfile] returns, without an
    exception, a profile with one element for each site of the lattice;
    every element is finite and positive, and the mean of the profile is
    [dens], whatever the nucleus and the boundary condition.  The tuple
    [shape] has an entry for each axis of a lattice with two or three
    axes, and a lattice with three axes under '110_if' or '111_if' is not
    longer along its first axis than along its second. *)
Theorem nucleus_profile_mean (self : LdftModel) (d : R) (shape : list Z) :
  Forall (fun n => (0 < n)%Z) (_size self) -> (0 < d)%R ->
  nucleus_ok self shape ->
  exists g,
    return_nuc_densProfile self (Fin d) shape = Ok g /\
    grid_all positive (_size self) g /\
    np_mean (ravel g) = Fin d.
Proof. apply nucleus_profile_ok. Qed.

Lemma nucleus_profile_mean_witness :
  exists g,
    return_nuc_densProfile lattice_2x3_tilted (Fin (1/4)) [1%Z; 1%Z] = Ok g /\
    grid_all positive (_size lattice_2x3_tilted) g /\
    np_mean (ravel g) = Fin (1/4).
Proof.
  apply (nucleus_profile_mean lattice_2x3_tilted (1/4) [1%Z; 1%Z]).
  - repeat constructor.
  - lra.
  - unfold nucleus_ok. simpl. lia.
Defined.

Lemma repeat_Fin (d : R) (n : nat) :
  repeat (Fin d) n = map Fin (repeat d n).
Proof. symmetry. apply map_repeat. Qed.

Lemma all2_unique (c : fl) (n0 n1 : nat) (a : list (list fl)) :
  all2 (eq c) n0 n1 a -> a = repeat (repeat c n1) n0.
Proof.
  intros [Hlen Hall]. subst n0.
  induction Hall as [|row a' [Hr Hc] _ IH]; [reflexivity|].
  simpl. f_equal; [|exact IH].
  subst n1. now apply all_equal_repeat.
Qed.

Lemma all3_unique (c : fl) (n0 n1 n2 : nat) (a : list (list (list fl))) :
  all3 (eq c) n0 n1 n2 a -> a = repeat (repeat (repeat c n2) n1) n0.
Proof.
  intros [Hlen Hall]. subst n0.
  induction Hall as [|layer a' Hl _ IH]; [reflexivity|].
  simpl. f_equal; [|exact IH]. now apply all2_unique.
Qed.

Lemma grid_all_unique (c : fl) (size : list Z) (g g' : grid) :
  grid_all (eq c) size g -> grid_all (eq c) size g' -> g = g'.
Proof.
  destruct g as [a|a|a], g' as [b|b|b]; cbn [grid_all].
  - intros (n0 & n1 & -> & Ha) (m0 & m1 & [= <- <-] & Hb).
    f_equal. rewrite (all2_unique _ _ _ _ Ha). symmetry.
    now apply all2_unique.
  - intros (n0 & n1 & -> & _) (m0 & m1 & m2 & E & _). discriminate E.
  - intros (n0 & n1 & -> & _) (H2 & _). now elim H2.
  - intros (n0 & n1 & n2 & -> & _) (m0 & m1 & E & _). discriminate E.
  - intros (n0 & n1 & n2 & -> & Ha) (m0 & m1 & m2 & [= <- <- <-] & Hb).
    f_equal. rewrite (all3_unique _ _ _ _ _ Ha). symmetry.
    now apply all3_unique.
  - intros (n0 & n1 & n2 & -> & _) (_ & H3 & _). now elim H3.
  - intros (H2 & _) (m0 & m1 & -> & _). now elim H2.
  - intros (_ & H3 & _) (m0 & m1 & m2 & -> & _). now elim H3.
  - intros (_ & _ & Ha & Hall) (_ & _ & Hb & Hbll). f_equal.
    rewrite (all_equal_repeat c a Hall), (all_equal_repeat c b Hbll).
    now rewrite Ha, Hb.
Qed.

Lemma gmap_fixes (P : fl -> Prop) (f : fl -> fl) (size : list Z)
    (g : grid) :
  (forall x, P x -> f x = x) -> grid_all P size g -> gmap f g = g.
Proof.
  intros Hf Hg. pose proof (grid_all_ravel P size g Hg) as Hall.
  assert (Hmap : forall l, Forall P l -> map f l = l).
  { induction 1 as [|x l Hx _ IH]; [reflexivity|]. simpl.
    now rewrite Hf, IH. }
  clear Hg. destruct g as [a|a|a]; cbn [gmap ravel] in *; f_equal.
  - apply Forall_concat in Hall.
    induction Hall as [|row a' Hr _ IH]; [reflexivity|]. simpl.
    now rewrite (Hmap row Hr), IH.
  - apply (proj1 (Forall_concat _ _)) in Hall.
    apply (proj1 (Forall_concat _ _)) in Hall.
    induction Hall as [|layer a' Hl _ IH]; [reflexivity|]. simpl.
    rewrite IH. f_equal.
    induction Hl as [|row layer' Hr _ IH']; [reflexivity|]. simpl.
    now rewrite (Hmap row Hr), IH'.
  - now apply Hmap.
Qed.



Lemma fdiv_zero_zero (x y : R) :
  x = 0%R -> y = 0%R -> fdiv (Fin x) (Fin y) = NaN.
Proof.
  intros Hx Hy. unfold fdiv. destruct (Req_dec_T y 0); [|contradiction].
  unfold inf_signed. destruct (Req_dec_T x 0); [reflexivity|contradiction].
Qed.



(** X26: on a lattice with three axes that is longer along its
    first axis than along its second, [return_nuc_densProfile] raises
    [IndexError] under the boundary conditions '110_if' and '111_if',
    for every density and every nucleus: the loop of the shear runs over
    the extent of the first axis and indexes the second. *)
Theorem nucleus_profile_short_second_axis (self : LdftModel) (dens : fl)
    (shape : list Z) (n0 n1 n2 : Z) :
  _size self = [n0; n1; n2] ->
  (0 <= n1 < n0)%Z -> (0 <= n2)%Z -> (3 <= length shape)%nat ->
  _bound_cond self = "110_if"%string \/
  _bound_cond self = "111_if"%string ->
  return_nuc_densProfile self dens shape = Raise IndexError.
Proof.
  intros Hs H1 H2 Hlen Hbc.
  assert (Hnn : Forall (fun n => (0 <= n)%Z) (_size self)).
  { rewrite Hs. repeat constructor; lia. }
  destruct (return_hom_densProfile_ok self dens Hnn) as (g0 & E0 & H0).
  apply (grid_all_impl _ (fun _ => True)) in H0; [|easy].
  unfold return_nuc_densProfile. rewrite E0. cbv zeta.
  destruct g0 as [a|a|a]; cbn [grid_all] in H0.
  - destruct H0 as (m0 & m1 & E & _). rewrite Hs in E. discriminate E.
  - destruct H0 as (m0 & m1 & m2 & E & Ha). rewrite Hs in E.
    injection E as <- <- <-.
    destruct shape as [|s0 [|s1 [|s2 shape]]]; try (simpl in Hlen; lia).
    unfold place_nucleus. rewrite Hs. cbv zeta.
    pose proof (fill3_ok (fun _ => True) _ _ _ (nuc_slice n0 s0)
                  (nuc_slice n1 s1) (nuc_slice n2 s2)
                  (if flt dens (Fin (1/2)) then fadd dens (Fin (5/100))
                   else fsub dens (Fin (5/100))) a (or_introl I) Ha) as Hf.
    rewrite (proj1 Hf).
    rewrite (shear_columns_short (fun _ => True) _ (Z.to_nat n1)
               (Z.to_nat n2)) by (try exact Hf; lia).
    destruct Hbc as [-> | ->]; reflexivity.
  - destruct H0 as (_ & H3 & _). rewrite Hs in H3. now elim H3.
Qed.

Lemma nucleus_profile_short_second_axis_witness :
  return_nuc_densProfile lattice_3x2x4 (Fin (1/2)) [1%Z; 1%Z; 1%Z] =
  Raise IndexError.
Proof.
  apply (nucleus_profile_short_second_axis lattice_3x2x4 (Fin (1/2))
           [1%Z; 1%Z; 1%Z] 3 2 4).
  - reflexivity.
  - lia.
  - lia.
  - unfold nucleus_ok. simpl. lia.
  - left. reflexivity.
Defined.

Lemma concat_length_rect {A : Type} (n0 n1 : nat) (a : list (list A)) :
  length a = n0 -> Forall (fun row => length row = n1) a ->
  length (concat a) = (n0 * n1)%nat.
Proof.
  intros <- Hall. induction Hall as [|row a' Hr _ IH]; [reflexivity|].
  simpl. rewrite length_app, IH, Hr. reflexivity.
Qed.

Lemma grid_all_length (P : fl -> Prop) (size : list Z) (g : grid) :
  Forall (fun n => (0 <= n)%Z) size -> grid_all P size g ->
  length (ravel g) = sites size.
Proof.
  intros Hnn. destruct g as [a|a|a]; cbn [grid_all ravel].
  - intros (n0 & n1 & -> & Hlen & Hall).
    apply Forall_cons in Hnn as [H0 Hnn].
    apply Forall_cons in Hnn as [H1 _].
    rewrite (concat_length_rect (Z.to_nat n0) (Z.to_nat n1));
      [|exact Hlen|eapply Forall_impl; [exact Hall|]; now intros row [H _]].
    unfold sites. simpl. rewrite Z.mul_1_r. now rewrite Z2Nat.inj_mul.
  - intros (n0 & n1 & n2 & -> & Hlen & Hall).
    apply Forall_cons in Hnn as [H0 Hnn].
    apply Forall_cons in Hnn as [H1 Hnn].
    apply Forall_cons in Hnn as [H2 _].
    rewrite (concat_length_rect (Z.to_nat n0 * Z.to_nat n1) (Z.to_nat n2)).
    + unfold sites. simpl. rewrite Z.mul_1_r.
      rewrite !Z2Nat.inj_mul by nia. lia.
    + apply concat_length_rect; [exact Hlen|].
      eapply Forall_impl; [exact Hall|]. now intros layer [H _].
    + apply Forall_concat. eapply Forall_impl; [exact Hall|].
      intros layer [_ Hrows]. eapply Forall_impl; [exact Hrows|].
      now intros row [H _].
  - now intros (_ & _ & Hlen & _).
Qed.

Lemma lookup_map_Some {A B : Type} (f : A -> B) (l : list A) (i : nat)
    (x : A) :
  l !! i = Some x -> map f l !! i = Some (f x).
Proof.
  revert i. induction l as [|y l IH]; intros [|i]; simpl; try discriminate.
  - now intros [= ->].
  - apply IH.
Qed.

Section InitProfile.
Variable s : LdftModel.
Variable ds : list R.
Variable shapes : list (list Z).
Hypothesis size_pos : Forall (fun n => (0 < n)%Z) (_size s).
Hypothesis ds_pos : Forall (fun d => (0 < d)%R) ds.
Hypothesis shapes_ok : Forall (nucleus_ok s) shapes.
Hypothesis same_length : length shapes = length ds.

Lemma append_profile_loop (n k : nat) (r : list array) :
  (k + n)%nat = length ds ->
  exists r',
    for_each (seq k n) (append_profile s (Some (map Fin ds)) (Some shapes))
      r = Ok (r ++ r') /\
    Forall2 (fun p d => np_mean p = Fin d /\ Forall positive p /\
                        length p = sites (_size s)) r' (drop k ds).
Proof.
  revert k r. induction n as [|n IH]; intros k r Hk.
  - exists []. rewrite app_nil_r. split; [reflexivity|].
    rewrite drop_ge by lia. constructor.
  - destruct (lookup_lt_is_Some_2 ds k ltac:(lia)) as [d Hd].
    destruct (lookup_lt_is_Some_2 shapes k ltac:(lia)) as [sh Hsh].
    pose proof (Forall_lookup_1 _ _ _ _ ds_pos Hd) as Hdpos.
    pose proof (Forall_lookup_1 _ _ _ _ shapes_ok Hsh) as Hshok.
    destruct (nucleus_profile_ok s d sh size_pos Hdpos Hshok)
      as (g & Eg & Hg & Hmean).
    destruct (IH (S k) (r ++ [ravel g]) ltac:(lia)) as (r' & Er & Hr').
    exists (ravel g :: r'). cbn [seq for_each]. unfold append_profile at 1.
    rewrite (lookup_map_Some Fin ds k d Hd), Hsh, Eg, Er.
    split; [now rewrite <- app_assoc|].
    rewrite (drop_S ds d k Hd). constructor; [|exact Hr'].
    split; [exact Hmean|]. split; [exact (grid_all_ravel _ _ _ Hg)|].
    apply (grid_all_length positive); [|exact Hg].
    eapply Forall_impl; [exact size_pos|]. intros m Hm. simpl in Hm. lia.
Qed.

End InitProfile.

(** X27: on a lattice with positive extents, with one
    positive density and one admissible nucleus for each species,
    [create_init_profile] raises no exception; afterwards the profile of
    each species has one element for each site, all positive, and the
    mean that [dens] gives for the species, and the model is at the
    start of a run: the iteration counter is 0, the histories hold the
    new profile at the iteration 0, and the error history is empty. *)
Theorem create_init_profile_means (s : LdftModel) (ds : list R)
    (shapes : list (list Z)) :
  Forall (fun n => (0 < n)%Z) (_size s) ->
  length ds = length (_mu_fix s) -> length shapes = length (_mu_fix s) ->
  Forall (fun d => (0 < d)%R) ds -> Forall (nucleus_ok s) shapes ->
  exists s',
    create_init_profile (Some (map Fin ds)) (Some shapes) s = (Ok tt, s') /\
    Forall2 (fun p d => np_mean p = Fin d /\ Forall positive p /\
                        length p = sites (_size s)) (_r s') ds /\
    _r_hist s' = [_r s'] /\ _it_hist s' = [0%Z] /\
    _it_counter s' = 0%Z /\ _err_hist s' = [].
Proof.
  intros Hsize Hds Hshapes Hpos Hok.
  destruct (append_profile_loop s ds shapes Hsize Hpos Hok ltac:(lia)
              (length (_mu_fix s)) 0 [] ltac:(lia)) as (r & Er & Hr).
  unfold create_init_profile, bind, get, lift. rewrite Er.
  eexists. split; [reflexivity|]. cbn. repeat split. exact Hr.
Qed.

Lemma create_init_profile_means_witness :
  exists s',
    create_init_profile (Some (map Fin [1/4; 1/8]%R))
      (Some [[1%Z; 1%Z]; [0%Z; 0%Z]]) lattice_two_species = (Ok tt, s') /\
    Forall2 (fun p d => np_mean p = Fin d /\ Forall positive p /\
                        length p = sites (_size lattice_two_species))
            (_r s') [1/4; 1/8]%R /\
    _r_hist s' = [_r s'] /\ _it_hist s' = [0%Z] /\
    _it_counter s' = 0%Z /\ _err_hist s' = [].
Proof.
  apply (create_init_profile_means lattice_two_species [1/4; 1/8]%R
           [[1%Z; 1%Z]; [0%Z; 0%Z]]).
  - repeat constructor.
  - reflexivity.
  - reflexivity.
  - repeat constructor; lra.
  - repeat constructor; unfold nucleus_ok; simpl; lia.
Defined.
